(** * Suffix array and LCP array construction (suffix_array.cc)

    A shallow embedding of [buildSuffixArrayAndLCP]: the rank-doubling
    construction of the suffix array followed by Kasai's computation of the
    LCP array, and the properties of both; and of the programs around it,
    [testBuildSuffixArrayAndLCP], [runBuildSuffixArrayAndLCPSample] and
    [main].

    Modelling conventions.
    - A position in the text (the source holds it in an [int] whose value
      stays in [0..n-1]) is a [nat]; a rank, a symbol value and an LCP value
      (also [int] in the source, and the first two may be negative) is a [Z].
      Integers are unbounded here.  In a run that returns, [gap] stays below
      [n] (lemma [doubling_loop_count]), ranks lie between [CHAR_MIN] and
      [CHAR_MAX] or in [0..n-1] and [h] is at most [n], so nothing leaves the
      range of [int] for a text of fewer than [2^30] symbols.
    - [vector<int>] is a list; [v[i]] is the total lookup [v !!! i] and
      [v[i] = x] is the update [<[i:=x]> v].  The source has undefined
      behaviour out of range; the invariants [state_shape] and [rank_range]
      keep the indices of a run in range.
    - [std::sort] is not part of the repository.  It is a parameter
      [std_sort] of the development, constrained only by what the C++
      standard promises for a comparator that is a strict weak ordering
      ([sort_spec]): the result is a permutation of the input, sorted with
      respect to the comparator.  Ties may come out in any order.  Insertion
      sort, which is what libstdc++ runs on short ranges, is shown to conform
      and is used to run the model; the result is shown not to depend on the
      implementation.
    - Whether plain [char] is signed is implementation-defined in C++
      ([CHAR_MIN] is -128 with GCC, Clang and MSVC on x86 and x86-64, and 0
      on ARM Linux).  The flag [char_is_signed] selects the conversion that
      [rank_array[i] = text[i]] performs.  The comparison
      [text[i+h] == text[prev_sa_idx+h]] promotes both sides to [int] too.
    - The two loops without an a priori bound ([for (gap = 1; ; gap *= 2)]
      and Kasai's [while]) take fuel and return [None] when it runs out;
      [build_fuel_enough] shows that the fuel given to them loses nothing.
    - A program that writes to [cout] is a value of [outcome]: what it
      returns together with the text written, or the way it ends otherwise
      (a failed [assert], [std::out_of_range], a callee that never
      returns).  The operands of a chain of [<<] are taken from left to
      right. *)

From Stdlib Require Import ZArith Lia ZifyBool Ascii String DecimalString.
From stdpp Require Import base option list sorting.

Local Open Scope nat_scope.

(** ** Characters and texts *)

(** The value of a [char] converted to [int]. *)
Definition char_to_int (char_is_signed : bool) (c : ascii) : Z :=
  let v := Z.of_nat (nat_of_ascii c) in
  if char_is_signed && (128 <=? v)%Z then (v - 256)%Z else v.

(** [text[0], text[1], ...] as the [int] values the code reads. *)
Definition text_codes (char_is_signed : bool) (text : string) : list Z :=
  map (char_to_int char_is_signed) (list_ascii_of_string text).

(** The string holding the given bytes. *)
Definition string_of_bytes (l : list nat) : string :=
  string_of_list_ascii (map ascii_of_nat l).

(** ** The result structure *)

Record SuffixArrayResult : Type := mkResult { sa : list nat; lcp : list Z }.

(** ** The comparator of one doubling pass (the lambda [compare_suffixes]) *)

Definition compare_suffixes (rank_array : list Z) (n gap : nat) (i j : nat) : bool :=
  if negb (rank_array !!! i =? rank_array !!! j)%Z
  then (rank_array !!! i <? rank_array !!! j)%Z
  else
    let ri_next := if i + gap <? n then rank_array !!! (i + gap)%nat else (-1)%Z in
    let rj_next := if j + gap <? n then rank_array !!! (j + gap)%nat else (-1)%Z in
    (ri_next <? rj_next)%Z.

(** ** Initialisation: [sa[i] = i; rank_array[i] = text[i]] *)

Definition init_arrays (n : nat) (codes : list Z) : list nat * list Z :=
  fold_left
    (fun '(s, r) i => (<[i := i]> s, <[i := codes !!! i]> r))
    (seq 0 n)
    (replicate n 0, replicate n 0%Z).

(** ** Rank recomputation *)

(** [temp_rank_array[sa[0]] = 0] and the loop over [i = 1 .. n-1]. *)
Definition assign_ranks (cmp : nat -> nat -> bool) (n : nat)
    (s : list nat) (temp : list Z) : list Z :=
  fold_left
    (fun t i =>
       let prev := s !!! (i - 1) in
       let cur := s !!! i in
       <[ cur := (t !!! prev + (if cmp prev cur then 1 else 0))%Z ]> t)
    (seq 1 (n - 1))
    (<[ s !!! 0 := 0%Z ]> temp).

(** The loop [rank_array[i] = temp_rank_array[i]]. *)
Definition copy_ranks (n : nat) (temp rank_array : list Z) : list Z :=
  fold_left (fun r i => <[ i := temp !!! i ]> r) (seq 0 n) rank_array.

(** ** Kasai's inner [while] loop *)

Fixpoint extend_match (fuel : nat) (codes : list Z) (n i prev_sa_idx : nat) (h : Z)
    : option Z :=
  match fuel with
  | O => None
  | S fuel' =>
      if (Z.of_nat i + h <? Z.of_nat n)%Z
         && (Z.of_nat prev_sa_idx + h <? Z.of_nat n)%Z
         && (codes !!! Z.to_nat (Z.of_nat i + h)
             =? codes !!! Z.to_nat (Z.of_nat prev_sa_idx + h))%Z
      then extend_match fuel' codes n i prev_sa_idx (h + 1)%Z
      else Some h
  end.

(** One iteration of Kasai's [for] loop, on the pair [(lcp, h)]. *)
Definition kasai_step (fuel : nat) (codes : list Z) (n : nat)
    (s : list nat) (rank_array : list Z)
    (acc : option (list Z * Z)) (i : nat) : option (list Z * Z) :=
  '(l, h) ← acc;
  if (0 <? rank_array !!! i)%Z then
    let prev_sa_idx := s !!! Z.to_nat (rank_array !!! i - 1) in
    h' ← extend_match fuel codes n i prev_sa_idx h;
    Some (<[ Z.to_nat (rank_array !!! i) := h' ]> l,
          if (0 <? h')%Z then (h' - 1)%Z else h')
  else Some (l, h).

Definition kasai (fuel : nat) (codes : list Z) (n : nat)
    (s : list nat) (rank_array : list Z) : option (list Z) :=
  fst <$> fold_left (kasai_step fuel codes n s rank_array) (seq 0 n)
            (Some (replicate n 0%Z, 0%Z)).

(** ** The doubling loop *)

(** The state carried around the loop: [gap], [sa], [rank_array],
    [temp_rank_array]. *)
Record loop_state : Type := mkState {
  st_gap : nat;
  st_sa : list nat;
  st_rank : list Z;
  st_temp : list Z
}.

(** The exit test [rank_array[sa[n-1]] == n - 1]. *)
Definition all_ranked (n : nat) (st : loop_state) : bool :=
  (st_rank st !!! (st_sa st !!! (n - 1)%nat) =? Z.of_nat n - 1)%Z.

(** [gap *= 2], the step of the [for]. *)
Definition double_gap (st : loop_state) : loop_state :=
  mkState (st_gap st * 2) (st_sa st) (st_rank st) (st_temp st).

(** The state in which the loop is entered. *)
Definition initial_state (n : nat) (codes : list Z) : loop_state :=
  let '(s0, r0) := init_arrays n codes in
  mkState 1 s0 r0 (replicate n 0%Z).

Section Build.

(** [std::sort(first, last, comp)]. *)
Variable std_sort : (nat -> nat -> bool) -> list nat -> list nat.

(** Lines 43-62, the body of the loop up to the exit test: sort,
    recompute the ranks into [temp_rank_array], copy them back. *)
Definition pass (n : nat) (st : loop_state) : loop_state :=
  let cmp := compare_suffixes (st_rank st) n (st_gap st) in
  let s := std_sort cmp (st_sa st) in
  let temp := assign_ranks cmp n s (st_temp st) in
  let r := copy_ranks n temp (st_rank st) in
  mkState (st_gap st) s r temp.

(** The loop [for (gap = 1; ; gap *= 2)], entered in state [st].  The
    result is the state at the [break] and the number of times the body
    ran. *)
Fixpoint doubling_loop (fuel : nat) (n : nat) (st : loop_state)
    : option (loop_state * nat) :=
  match fuel with
  | O => None
  | S fuel' =>
      let st' := pass n st in
      if all_ranked n st' then Some (st', 1)
      else '(st'', k) ← doubling_loop fuel' n (double_gap st'); Some (st'', S k)
  end.

(** [loop_enters n st0 k st]: started in [st0], the loop enters its body
    for the [k]-th time (counting from 0) in state [st]. *)
Inductive loop_enters (n : nat) (st0 : loop_state) : nat -> loop_state -> Prop :=
| enters_first : loop_enters n st0 0 st0
| enters_next k st :
    loop_enters n st0 k st ->
    all_ranked n (pass n st) = false ->
    loop_enters n st0 (S k) (double_gap (pass n st)).

(** ** The whole function *)

Variable char_is_signed : bool.

(** The function with explicit fuel, returning also the number of
    iterations of the doubling loop. *)
Definition build_with_fuel (fuel : nat) (text : string)
    : option (SuffixArrayResult * nat) :=
  let codes := text_codes char_is_signed text in
  let n := String.length text in
  if n =? 0 then Some (mkResult [] [], 0)
  else
    '(st, k) ← doubling_loop fuel n (initial_state n codes);
    l ← kasai fuel codes n (st_sa st) (st_rank st);
    Some (mkResult (st_sa st) l, k).

(** [S n] units of fuel are enough whenever any amount is (see
    [build_fuel_enough] and [build_with_fuel_mono]). *)
Definition buildSuffixArrayAndLCP (text : string) : option SuffixArrayResult :=
  fst <$> build_with_fuel (S (String.length text)) text.

(** Number of times the body of the doubling loop runs. *)
Definition doubling_iterations (text : string) : option nat :=
  snd <$> build_with_fuel (S (String.length text)) text.

End Build.

(** ** The contract of [std::sort] *)

(** The requirements on [comp]: a strict weak ordering. *)
Record strict_weak_order (cmp : nat -> nat -> bool) : Prop := {
  swo_irrefl : forall x, cmp x x = false;
  swo_trans : forall x y z, cmp x y = true -> cmp y z = true -> cmp x z = true;
  swo_incomp_trans : forall x y z,
      cmp x y = false -> cmp y x = false ->
      cmp y z = false -> cmp z y = false ->
      cmp x z = false /\ cmp z x = false
}.

(** A sequence is sorted with respect to [comp] when no later element
    compares less than an earlier one. *)
Definition sorted_wrt (cmp : nat -> nat -> bool) (l : list nat) : Prop :=
  forall i j, i < j -> j < length l -> cmp (l !!! j) (l !!! i) = false.

(** What a conforming [std::sort] does. *)
Definition sort_spec (sort : (nat -> nat -> bool) -> list nat -> list nat) : Prop :=
  forall cmp l, strict_weak_order cmp ->
    sort cmp l ≡ₚ l /\ sorted_wrt cmp (sort cmp l).

(** A conforming implementation, used to run the model: insertion sort. *)
Fixpoint insert_sorted (cmp : nat -> nat -> bool) (x : nat) (l : list nat) : list nat :=
  match l with
  | [] => [x]
  | y :: l' => if cmp y x then y :: insert_sorted cmp x l' else x :: l
  end.

Definition insertion_sort (cmp : nat -> nat -> bool) (l : list nat) : list nat :=
  foldr (insert_sorted cmp) [] l.

(** A second conforming implementation, which leaves elements that compare
    equal in the opposite order: insertion sort fed from the other end. *)
Definition insertion_sort_from_end (cmp : nat -> nat -> bool) (l : list nat) : list nat :=
  insertion_sort cmp (reverse l).

(** ** Specification side: suffixes, lexicographic order, common prefixes *)

(** The suffix of the text starting at position [p]. *)
Definition suffix_at (codes : list Z) (p : nat) : list Z := drop p codes.

(** Three-way lexicographic comparison; a proper prefix comes first. *)
Fixpoint lex_compare (a b : list Z) : comparison :=
  match a, b with
  | [], [] => Eq
  | [], _ :: _ => Lt
  | _ :: _, [] => Gt
  | x :: a', y :: b' =>
      match (x ?= y)%Z with
      | Eq => lex_compare a' b'
      | c => c
      end
  end.

(** Lexicographic [<=] and [<]. *)
Fixpoint lex_le (a b : list Z) : bool :=
  match a, b with
  | [], _ => true
  | _ :: _, [] => false
  | x :: a', y :: b' => (x <? y)%Z || ((x =? y)%Z && lex_le a' b')
  end.

Fixpoint lex_lt (a b : list Z) : bool :=
  match a, b with
  | _, [] => false
  | [], _ :: _ => true
  | x :: a', y :: b' => (x <? y)%Z || ((x =? y)%Z && lex_lt a' b')
  end.

(** Length of the longest common prefix, by direct comparison. *)
Fixpoint common_prefix_length (a b : list Z) : nat :=
  match a, b with
  | x :: a', y :: b' =>
      if (x =? y)%Z then S (common_prefix_length a' b') else 0
  | _, _ => 0
  end.

(** *** The properties claimed of the result *)

(** [SA] has length [n] and holds each of [0..n-1] exactly once. *)
Definition permutation_of_positions (n : nat) (SA : list nat) : Prop :=
  length SA = n /\ SA ≡ₚ seq 0 n.

(** Each suffix is [<=] the next one in [SA]. *)
Definition suffixes_sorted (codes : list Z) (SA : list nat) : Prop :=
  forall i, 1 <= i -> i < length codes ->
    lex_le (suffix_at codes (SA !!! (i - 1))) (suffix_at codes (SA !!! i)) = true.

(** [LCP] has length [n], starts with 0 and holds the common prefix
    lengths of the suffixes that are neighbours in [SA]. *)
Definition lcp_exact (codes : list Z) (SA : list nat) (LCP : list Z) : Prop :=
  length LCP = length codes /\
  LCP !!! 0 = 0%Z /\
  forall i, 1 <= i -> i < length codes ->
    LCP !!! i
    = Z.of_nat (common_prefix_length (suffix_at codes (SA !!! (i - 1)))
                                     (suffix_at codes (SA !!! i))).

(** No [LCP] value is negative or exceeds the length of the shorter of the
    two suffixes it is about. *)
Definition lcp_bounded (codes : list Z) (SA : list nat) (LCP : list Z) : Prop :=
  (forall i, i < length codes -> (0 <= LCP !!! i)%Z) /\
  forall i, 1 <= i -> i < length codes ->
    (LCP !!! i
     <= Z.of_nat (length codes)
        - Z.of_nat (max (SA !!! (i - 1)%nat) (SA !!! i)))%Z.

(** [rank[SA[i]]] is non-decreasing in [i]. *)
Definition ranks_nondecreasing (n : nat) (st : loop_state) : Prop :=
  forall i j, i <= j -> j < n ->
    (st_rank st !!! (st_sa st !!! i) <= st_rank st !!! (st_sa st !!! j))%Z.

(** [rank] is the inverse permutation of [SA]. *)
Definition rank_inverts_sa (n : nat) (st : loop_state) : Prop :=
  st_sa st ≡ₚ seq 0 n /\
  (forall i, i < n -> st_rank st !!! (st_sa st !!! i) = Z.of_nat i) /\
  (forall p, p < n -> st_sa st !!! Z.to_nat (st_rank st !!! p) = p).

(** All symbols of the text convert to non-negative [int]s: any text when
    [char] is unsigned, a 7-bit text when it is signed. *)
Definition nonneg_codes (codes : list Z) : Prop := Forall (fun c => (0 <= c)%Z) codes.

(** ** Proof side: keys and prefix comparison *)

(** The pair compared by [compare_suffixes]. *)
Definition next_rank (rank_array : list Z) (n gap i : nat) : Z :=
  if i + gap <? n then rank_array !!! (i + gap)%nat else (-1)%Z.

Definition sort_key (rank_array : list Z) (n gap i : nat) : Z * Z :=
  (rank_array !!! i, next_rank rank_array n gap i).

Definition pair_ltb (p q : Z * Z) : bool :=
  if negb (p.1 =? q.1)%Z then (p.1 <? q.1)%Z else (p.2 <? q.2)%Z.

(** Three-way comparison of two keys. *)
Definition pair_compare (p q : Z * Z) : comparison :=
  match (p.1 ?= q.1)%Z with
  | Eq => (p.2 ?= q.2)%Z
  | c => c
  end.

(** In state [st], the next rank of every position [i] with
    [i + gap >= n] (the sentinel) is below every rank in the table. *)
Definition sentinel_below_ranks (n : nat) (st : loop_state) : Prop :=
  forall i j, i < n -> n <= i + st_gap st -> j < n ->
    (next_rank (st_rank st) n (st_gap st) i < st_rank st !!! j)%Z.

(** In state [st], of two positions with the same rank the one whose
    suffix ends within the next [gap] symbols is put first. *)
Definition ending_suffix_first (n : nat) (st : loop_state) : Prop :=
  forall i j, i < n -> j < n ->
    n <= i + st_gap st -> j + st_gap st < n ->
    st_rank st !!! i = st_rank st !!! j ->
    compare_suffixes (st_rank st) n (st_gap st) i j = true /\
    compare_suffixes (st_rank st) n (st_gap st) j i = false.

(** Comparison of the first [k] symbols of the suffixes at [i] and [j]. *)
Definition prefix_compare (codes : list Z) (k i j : nat) : comparison :=
  lex_compare (take k (suffix_at codes i)) (take k (suffix_at codes j)).

(** The rank table orders positions as their [k]-symbol prefixes do. *)
Definition ranks_order_prefixes (codes : list Z) (k : nat) (r : list Z) : Prop :=
  length r = length codes /\
  (forall i, i < length codes -> (0 <= r !!! i)%Z) /\
  (forall i j, i < length codes -> j < length codes ->
     (r !!! i ?= r !!! j)%Z = prefix_compare codes k i j).

(** The recurrence the rank recomputation establishes along [sa]. *)
Definition rank_steps (cmp : nat -> nat -> bool) (n : nat)
    (s : list nat) (t : list Z) : Prop :=
  t !!! (s !!! 0) = 0%Z /\
  forall i, 1 <= i < n ->
    t !!! (s !!! i)
    = (t !!! (s !!! (i - 1)%nat)
       + (if cmp (s !!! (i - 1)%nat) (s !!! i) then 1 else 0))%Z.

(** What holds of the loop state for every text: the arrays keep their
    length and [sa] stays a permutation of the positions. *)
Definition state_shape (n : nat) (st : loop_state) : Prop :=
  st_sa st ≡ₚ seq 0 n /\ length (st_rank st) = n /\ length (st_temp st) = n.

(** The invariant of the doubling loop at the head of its body, for a text
    of non-negative symbols. *)
Definition loop_inv (codes : list Z) (st : loop_state) : Prop :=
  0 < st_gap st /\
  state_shape (length codes) st /\
  ranks_order_prefixes codes (st_gap st) (st_rank st).

(** The state at the [break]. *)
Definition final_state (codes : list Z) (st : loop_state) : Prop :=
  state_shape (length codes) st /\
  (forall a, a < length codes -> st_rank st !!! (st_sa st !!! a) = Z.of_nat a) /\
  (forall a b, a < b -> b < length codes ->
     lex_compare (suffix_at codes (st_sa st !!! a)) (suffix_at codes (st_sa st !!! b)) = Lt).

(** Length of the longest common prefix of the suffixes at [i] and [j]. *)
Definition lcp_at (codes : list Z) (i j : nat) : nat :=
  common_prefix_length (suffix_at codes i) (suffix_at codes j).

(** The test of Kasai's [while] loop. *)
Definition match_continues (codes : list Z) (i j : nat) (h : nat) : Prop :=
  i + h < length codes /\ j + h < length codes /\
  codes !!! (i + h) = codes !!! (j + h).

(** The invariant of Kasai's [for] loop before position [i] is processed:
    the slots of the positions already seen are final, slot 0 is untouched,
    and the running match length [h] is 0 or is justified by a suffix that
    sorts before the suffix at [i]. *)
Definition kasai_inv (codes : list Z) (s : list nat) (r : list Z)
    (i : nat) (l : list Z) (h : Z) : Prop :=
  length l = length codes /\
  (0 <= h)%Z /\
  l !!! 0 = 0%Z /\
  (forall j, j < i -> (0 < r !!! j)%Z ->
     l !!! Z.to_nat (r !!! j)
     = Z.of_nat (lcp_at codes (s !!! Z.to_nat (r !!! j - 1)) j)) /\
  (i < length codes ->
     h = 0%Z \/
     exists q, q < length codes /\
       lex_compare (suffix_at codes q) (suffix_at codes i) = Lt /\
       (h <= Z.of_nat (lcp_at codes q i))%Z).

(** Two loop states that agree on everything but the order of ties in
    [sa] (and the scratch array). *)
Definition same_ranks (st1 st2 : loop_state) : Prop :=
  st_gap st1 = st_gap st2 /\ st_rank st1 = st_rank st2.

(** ** The order the doubling loop computes on any text *)

(** The suffix at [p] as the passes read it, two symbols at a time: the
    first pass pairs the last symbol with the sentinel [-1], so a suffix of
    odd length is read with a [-1] after it. *)
Definition padded_suffix (codes : list Z) (p : nat) : list Z :=
  suffix_at codes p ++ (if Nat.odd (length codes - p) then [(-1)%Z] else []).

(** The text ends with two symbols of value [-1] (two bytes [0xFF] where
    [char] is signed). *)
Definition ends_with_sentinel_pair (codes : list Z) : bool :=
  let last_but_one := codes !!! (length codes - 2) in
  let last := codes !!! (length codes - 1) in
  (2 <=? length codes) && (last_but_one =? -1)%Z && (last =? -1)%Z.

(** The rank table orders positions as the first [k] symbols of their
    padded suffixes do. *)
Definition ranks_order_padded (codes : list Z) (k : nat) (r : list Z) : Prop :=
  length r = length codes /\
  (forall i, i < length codes -> (0 <= r !!! i)%Z) /\
  (forall i j, i < length codes -> j < length codes ->
     (r !!! i ?= r !!! j)%Z
     = lex_compare (take k (padded_suffix codes i)) (take k (padded_suffix codes j))).

(** The invariant of the doubling loop at the head of its body, for any
    text: the first pass starts from the symbols themselves, every later one
    from ranks of padded prefixes of even length [gap]. *)
Definition padded_inv (codes : list Z) (st : loop_state) : Prop :=
  state_shape (length codes) st /\
  ((st_gap st = 1 /\ st_rank st = codes) \/
   (0 < st_gap st /\ Nat.even (st_gap st) = true /\
    ranks_order_padded codes (st_gap st) (st_rank st))).

(** The last two positions have the same key. *)
Definition last_pair_tied (n : nat) (st : loop_state) : Prop :=
  sort_key (st_rank st) n (st_gap st) (n - 2)
  = sort_key (st_rank st) n (st_gap st) (n - 1).

(** ** A reference construction, by the definitions *)

(** The suffix at [i] is lexicographically below the suffix at [j]. *)
Definition suffix_ltb (codes : list Z) (i j : nat) : bool :=
  lex_lt (suffix_at codes i) (suffix_at codes j).

Definition naive_suffix_array (codes : list Z) : list nat :=
  insertion_sort (suffix_ltb codes) (seq 0 (length codes)).

Definition naive_lcp_array (codes : list Z) (SA : list nat) : list Z :=
  (fun i =>
     match i with
     | 0 => 0%Z
     | S i' =>
         Z.of_nat (common_prefix_length (suffix_at codes (SA !!! i'))
                                        (suffix_at codes (SA !!! i)))
     end) <$> seq 0 (length SA).

Definition naive_build (codes : list Z) : SuffixArrayResult :=
  mkResult (naive_suffix_array codes)
           (naive_lcp_array codes (naive_suffix_array codes)).

(** ** Kasai's pass with a count of the iterations of its [while] loop *)

(** The inner loop, counting in [steps] each execution of [h++]. *)
Fixpoint extend_match_count (fuel : nat) (codes : list Z) (n i prev_sa_idx : nat)
    (h : Z) (steps : nat) : option (Z * nat) :=
  match fuel with
  | O => None
  | S fuel' =>
      if (Z.of_nat i + h <? Z.of_nat n)%Z
         && (Z.of_nat prev_sa_idx + h <? Z.of_nat n)%Z
         && (codes !!! Z.to_nat (Z.of_nat i + h)
             =? codes !!! Z.to_nat (Z.of_nat prev_sa_idx + h))%Z
      then extend_match_count fuel' codes n i prev_sa_idx (h + 1)%Z (S steps)
      else Some (h, steps)
  end.

Definition kasai_step_count (fuel : nat) (codes : list Z) (n : nat)
    (s : list nat) (rank_array : list Z)
    (acc : option (list Z * Z * nat)) (i : nat) : option (list Z * Z * nat) :=
  '(l, h, steps) ← acc;
  if (0 <? rank_array !!! i)%Z then
    let prev_sa_idx := s !!! Z.to_nat (rank_array !!! i - 1) in
    '(h', steps') ← extend_match_count fuel codes n i prev_sa_idx h steps;
    Some (<[ Z.to_nat (rank_array !!! i) := h' ]> l,
          if (0 <? h')%Z then (h' - 1)%Z else h', steps')
  else Some (l, h, steps).

(** The LCP array and the total number of iterations of the [while]
    loop. *)
Definition kasai_count (fuel : nat) (codes : list Z) (n : nat)
    (s : list nat) (rank_array : list Z) : option (list Z * nat) :=
  (fun '(l, _, steps) => (l, steps))
    <$> fold_left (kasai_step_count fuel codes n s rank_array) (seq 0 n)
          (Some (replicate n 0%Z, 0%Z, 0)).

(** ** The programs around the function: output and outcomes *)

(** How a call ends, with the text it has written to [cout]: it returns a
    value; an [assert] fails and the program is aborted; an exception leaves
    it ([std::out_of_range] is the only one raised here); or a callee never
    returns. *)
Inductive outcome (A : Type) : Type :=
| Returns (a : A) (out : string)
| AssertFails (out : string)
| Throws (out : string)
| NeverReturns (out : string).
Arguments Returns {A} a out.
Arguments AssertFails {A} out.
Arguments Throws {A} out.
Arguments NeverReturns {A} out.

(** Sequencing: the output of the second part follows that of the first;
    nothing runs after a failure. *)
Definition outcome_bind {A B : Type} (f : A -> outcome B) (m : outcome A) : outcome B :=
  match m with
  | Returns a out =>
      match f a with
      | Returns b out' => Returns b (out ++ out')
      | AssertFails out' => AssertFails (out ++ out')
      | Throws out' => Throws (out ++ out')
      | NeverReturns out' => NeverReturns (out ++ out')
      end
  | AssertFails out => AssertFails out
  | Throws out => Throws out
  | NeverReturns out => NeverReturns out
  end.

#[global] Instance outcome_ret : MRet outcome := fun A a => Returns a EmptyString.
#[global] Instance outcome_mbind : MBind outcome := @outcome_bind.

(** [cout << s], [cout << endl] and [cout << k] for an [int]. *)
Definition cout (s : string) : outcome unit := Returns tt s.
Definition newline : string := String "010" EmptyString.
Definition endl : outcome unit := cout newline.
Definition cout_int (k : Z) : outcome unit := cout (NilZero.string_of_int (Z.to_int k)).

(** [assert(b)]. *)
Definition assert_true (b : bool) : outcome unit :=
  if b then mret tt else AssertFails EmptyString.

(** A call of a function of the model that may fail to return. *)
Definition call {A : Type} (r : option A) : outcome A :=
  match r with
  | Some a => mret a
  | None => NeverReturns EmptyString
  end.

(** [s.substr(pos)]: the rest of [s] from [pos], [std::out_of_range] when
    [pos > s.size()]. *)
Definition substr (s : string) (pos : nat) : outcome string :=
  if pos <=? String.length s
  then mret (String.substring pos (String.length s - pos) s)
  else Throws EmptyString.

(** A range-based [for] and a counting [for] over [0 .. n-1]. *)
Definition for_each {A : Type} (l : list A) (body : A -> outcome unit) : outcome unit :=
  fold_left (fun acc x => acc ;; body x) l (mret tt).

Definition for_range (n : nat) (body : nat -> outcome unit) : outcome unit :=
  for_each (seq 0 n) body.

Section Programs.
Variable std_sort : (nat -> nat -> bool) -> list nat -> list nat.
Variable char_is_signed : bool.

(** [testBuildSuffixArrayAndLCP]. *)
Definition testBuildSuffixArrayAndLCP : outcome unit :=
  result ← call (buildSuffixArrayAndLCP std_sort char_is_signed "banana");
  assert_true (bool_decide (sa result = [5; 3; 1; 0; 4; 2])) ;;
  assert_true (bool_decide (lcp result = [0; 1; 3; 0; 0; 2]%Z)) ;;
  cout "Test case 1 passed." ;; endl ;;
  result ← call (buildSuffixArrayAndLCP std_sort char_is_signed "ababa");
  assert_true (bool_decide (sa result = [4; 2; 0; 3; 1])) ;;
  assert_true (bool_decide (lcp result = [0; 1; 3; 0; 2]%Z)) ;;
  cout "Test case 2 passed." ;; endl ;;
  result ← call (buildSuffixArrayAndLCP std_sort char_is_signed "aaaaa");
  assert_true (bool_decide (sa result = [4; 3; 2; 1; 0])) ;;
  assert_true (bool_decide (lcp result = [0; 1; 2; 3; 4]%Z)) ;;
  cout "Test case 3 passed." ;; endl ;;
  result ← call (buildSuffixArrayAndLCP std_sort char_is_signed "abcde");
  assert_true (bool_decide (sa result = [0; 1; 2; 3; 4])) ;;
  assert_true (bool_decide (lcp result = [0; 0; 0; 0; 0]%Z)) ;;
  cout "Test case 4 passed." ;; endl ;;
  result ← call (buildSuffixArrayAndLCP std_sort char_is_signed EmptyString);
  assert_true (bool_decide (sa result = [])) ;;
  assert_true (bool_decide (lcp result = [])) ;;
  cout "Test case 5 passed." ;; endl ;;
  result ← call (buildSuffixArrayAndLCP std_sort char_is_signed "a");
  assert_true (bool_decide (sa result = [0])) ;;
  assert_true (bool_decide (lcp result = [0%Z])) ;;
  cout "Test case 6 passed." ;; endl ;;
  result ← call (buildSuffixArrayAndLCP std_sort char_is_signed "mississippi");
  assert_true (bool_decide (sa result = [10; 7; 4; 1; 0; 9; 8; 6; 3; 5; 2])) ;;
  assert_true (bool_decide (lcp result = [0; 1; 1; 4; 0; 0; 1; 0; 2; 1; 3]%Z)) ;;
  cout "Test case 7 passed." ;; endl ;;
  cout (newline ++ "All tests passed successfully!") ;; endl.

(** The body of [runBuildSuffixArrayAndLCPSample], in terms of its local
    [sample_text]. *)
Definition sample_report (sample_text : string) : outcome unit :=
  cout ("Building Suffix Array and LCP for: " ++ String "034" EmptyString) ;;
  cout sample_text ;; cout (String "034" EmptyString) ;; endl ;;
  result ← call (buildSuffixArrayAndLCP std_sort char_is_signed sample_text);
  cout "Suffix Array (SA): " ;;
  for_each (sa result) (fun index => cout_int (Z.of_nat index) ;; cout " ") ;;
  endl ;;
  cout "LCP Array (LCP): " ;;
  for_each (lcp result) (fun lcp_val => cout_int lcp_val ;; cout " ") ;;
  endl ;;
  cout (newline ++ "Suffixes in Lexicographical Order:") ;; endl ;;
  for_range (length (sa result)) (fun i =>
    cout "SA[" ;; cout_int (Z.of_nat i) ;; cout "]=" ;;
    cout_int (Z.of_nat (sa result !!! i)) ;;
    cout ", LCP[" ;; cout_int (Z.of_nat i) ;; cout "]=" ;;
    cout_int (lcp result !!! i) ;; cout ": " ;;
    rest ← substr sample_text (sa result !!! i);
    cout rest ;; endl) ;;
  endl.

(** [runBuildSuffixArrayAndLCPSample]: [sample_text = "banana"]. *)
Definition runBuildSuffixArrayAndLCPSample : outcome unit :=
  sample_report "banana".

(** [main]. *)
Definition main : outcome Z :=
  testBuildSuffixArrayAndLCP ;;
  runBuildSuffixArrayAndLCPSample ;;
  mret 0%Z.

End Programs.

(** [lines l]: the strings of [l], each followed by a line break. *)
Definition lines (l : list string) : string :=
  String.concat EmptyString (map (fun s => (s ++ newline)%string) l).

(** The text of [n] copies of the character [c]. *)
Fixpoint repeat_char (c : ascii) (n : nat) : string :=
  match n with
  | 0 => EmptyString
  | S n' => String c (repeat_char c n')
  end.

(** * Properties *)

(** ** Array loops *)

Lemma fold_left_pair {A B C} (F : A -> C -> A) (G : B -> C -> B) l a b :
  fold_left (fun '(x, y) i => (F x i, G y i)) l (a, b)
  = (fold_left F l a, fold_left G l b).
Proof. revert a b. induction l as [|c l IH]; intros a b; simpl; [done|]. apply IH. Qed.

Lemma fold_left_insert_prefix {A} (f : nat -> A) (l : list A) k :
  k <= length l ->
  fold_left (fun r i => <[i := f i]> r) (seq 0 k) l = (f <$> seq 0 k) ++ drop k l.
Proof.
  induction k as [|k IH]; intros Hk; [done|].
  rewrite seq_S, fold_left_app, IH by lia. simpl.
  rewrite fmap_app, <- app_assoc. simpl.
  rewrite insert_app_r_alt by (rewrite length_fmap, length_seq; lia).
  rewrite length_fmap, length_seq, Nat.sub_diag.
  destruct (drop k l) as [|x l'] eqn:Hd.
  - apply (f_equal length) in Hd. rewrite length_drop in Hd. simpl in Hd. lia.
  - simpl. f_equal. f_equal.
    replace (S k) with (k + 1) by lia. rewrite <- drop_drop, Hd. done.
Qed.

Lemma fold_left_insert_all {A} (f : nat -> A) (l : list A) :
  fold_left (fun r i => <[i := f i]> r) (seq 0 (length l)) l = f <$> seq 0 (length l).
Proof. rewrite fold_left_insert_prefix, drop_all, app_nil_r by lia. done. Qed.

Lemma fmap_lookup_total_seq (l : list Z) :
  (fun i => l !!! i) <$> seq 0 (length l) = l.
Proof.
  apply list_eq. intros i. rewrite list_lookup_fmap.
  destruct (decide (i < length l)) as [Hi|Hi].
  - rewrite lookup_seq_lt by done. simpl.
    symmetry. by apply list_lookup_lookup_total_lt.
  - rewrite lookup_seq_ge, lookup_ge_None_2 by lia. done.
Qed.

Lemma init_arrays_eq (codes : list Z) :
  init_arrays (length codes) codes = (seq 0 (length codes), codes).
Proof.
  unfold init_arrays.
  rewrite (fold_left_pair (fun s i => <[i := i]> s) (fun r i => <[i := codes !!! i]> r)).
  f_equal.
  - pose proof (fold_left_insert_all (fun i => i) (replicate (length codes) 0)) as H.
    rewrite length_replicate in H. rewrite H. apply list_fmap_id.
  - pose proof (fold_left_insert_all (fun i => codes !!! i)
                  (replicate (length codes) 0%Z)) as H.
    rewrite length_replicate in H. rewrite H. apply fmap_lookup_total_seq.
Qed.

Lemma copy_ranks_eq n (temp r : list Z) :
  length temp = n -> length r = n -> copy_ranks n temp r = temp.
Proof.
  intros <- Hr. unfold copy_ranks. rewrite <- Hr at 1.
  rewrite fold_left_insert_all, Hr. apply fmap_lookup_total_seq.
Qed.

Lemma NoDup_lookup_total_inj (s : list nat) i j :
  NoDup s -> i < length s -> j < length s -> s !!! i = s !!! j -> i = j.
Proof.
  intros Hnd Hi Hj Heq.
  apply (NoDup_lookup s i j (s !!! i)); [done| |].
  - by apply list_lookup_lookup_total_lt.
  - rewrite Heq. by apply list_lookup_lookup_total_lt.
Qed.

(** The permutations of [0..n-1] are the arrays that [sa] can hold. *)
Lemma perm_seq_length (s : list nat) n : s ≡ₚ seq 0 n -> length s = n.
Proof. intros H. rewrite (Permutation_length H). apply length_seq. Qed.

Lemma perm_seq_NoDup (s : list nat) n : s ≡ₚ seq 0 n -> NoDup s.
Proof. intros H. rewrite H. apply NoDup_seq. Qed.

Lemma perm_seq_lookup_lt (s : list nat) n i :
  s ≡ₚ seq 0 n -> i < n -> s !!! i < n.
Proof.
  intros H Hi.
  assert (forall x, x ∈ s -> x < n) as Hlt.
  { intros x Hx. rewrite H in Hx. apply elem_of_seq in Hx. lia. }
  apply Hlt, list_elem_of_lookup_total_2. rewrite (perm_seq_length s n); done.
Qed.

Lemma perm_seq_position (s : list nat) n x :
  s ≡ₚ seq 0 n -> x < n -> exists i, i < n /\ s !!! i = x.
Proof.
  intros H Hx.
  assert (x ∈ s) as Hin by (rewrite H; apply elem_of_seq; lia).
  apply list_elem_of_lookup_total_1 in Hin as (i & Hi & Heq).
  exists i. rewrite (perm_seq_length s n) in Hi; done.
Qed.

(** What the rank recomputation stores, read along [sa]. *)
Lemma assign_ranks_spec cmp n (s : list nat) (temp : list Z) :
  0 < n -> s ≡ₚ seq 0 n -> length temp = n ->
  let t := assign_ranks cmp n s temp in
  length t = n /\
  t !!! (s !!! 0) = 0%Z /\
  forall i, 1 <= i < n ->
    t !!! (s !!! i)
    = (t !!! (s !!! (i - 1)%nat) + (if cmp (s !!! (i - 1)%nat) (s !!! i) then 1 else 0))%Z.
Proof.
  intros Hn Hperm Hlen. unfold assign_ranks.
  pose proof (perm_seq_length _ _ Hperm) as Hls.
  pose proof (perm_seq_NoDup _ _ Hperm) as Hnd.
  set (step := fun (t : list Z) (i : nat) =>
       let prev := s !!! (i - 1)%nat in
       let cur := s !!! i in
       <[ cur := (t !!! prev + (if cmp prev cur then 1 else 0))%Z ]> t).
  set (t0 := <[ s !!! 0 := 0%Z ]> temp).
  assert (forall k, k <= n - 1 ->
    length (fold_left step (seq 1 k) t0) = n /\
    fold_left step (seq 1 k) t0 !!! (s !!! 0) = 0%Z /\
    forall i, 1 <= i <= k ->
      fold_left step (seq 1 k) t0 !!! (s !!! i)
      = (fold_left step (seq 1 k) t0 !!! (s !!! (i - 1)%nat)
         + (if cmp (s !!! (i - 1)%nat) (s !!! i) then 1 else 0))%Z)
    as Hinv.
  { induction k as [|k IH]; intros Hk.
    - simpl. split; [|split].
      + unfold t0. by rewrite length_insert.
      + unfold t0. apply list_lookup_total_insert_eq.
        rewrite Hlen. apply (perm_seq_lookup_lt s n); [done|lia].
      + intros i Hi. lia.
    - rewrite seq_S, fold_left_app. simpl.
      destruct IH as (IH1 & IH2 & IH3); [lia|].
      set (t := fold_left step (seq 1 k) t0) in *.
      assert (forall a, a <= k -> step t (S k) !!! (s !!! a) = t !!! (s !!! a)) as Hsame.
      { intros a Ha. unfold step. simpl.
        apply list_lookup_total_insert_ne. intros Heq.
        apply NoDup_lookup_total_inj in Heq; [lia|done|lia|lia]. }
      split; [|split].
      + unfold step. by rewrite length_insert.
      + rewrite Hsame by lia. done.
      + intros i Hi. destruct (decide (i = S k)) as [->|Hne].
        * replace (S k - 1) with k by lia. rewrite (Hsame k) by lia.
          unfold step. simpl. replace (k - 0) with k by lia.
          apply list_lookup_total_insert_eq.
          rewrite IH1. apply (perm_seq_lookup_lt s n); [done|lia].
        * rewrite !Hsame by lia. apply IH3. lia. }
  destruct (Hinv (n - 1)) as (H1 & H2 & H3); [lia|].
  split; [done|]. split; [done|]. intros i Hi. apply H3. lia.
Qed.

(** ** The comparator is a strict weak ordering *)

Lemma compare_suffixes_key r n gap i j :
  compare_suffixes r n gap i j = pair_ltb (sort_key r n gap i) (sort_key r n gap j).
Proof. reflexivity. Qed.

Lemma pair_ltb_true p q :
  pair_ltb p q = true <-> (p.1 < q.1 \/ (p.1 = q.1 /\ p.2 < q.2))%Z.
Proof.
  unfold pair_ltb. destruct (Z.eqb_spec p.1 q.1); simpl; rewrite Z.ltb_lt; lia.
Qed.

Lemma pair_ltb_false p q :
  pair_ltb p q = false <-> (q.1 < p.1 \/ (p.1 = q.1 /\ q.2 <= p.2))%Z.
Proof.
  unfold pair_ltb. destruct (Z.eqb_spec p.1 q.1); simpl; rewrite Z.ltb_ge; lia.
Qed.

Lemma pair_ltb_swo (key : nat -> Z * Z) :
  strict_weak_order (fun i j => pair_ltb (key i) (key j)).
Proof.
  split.
  - intros x. rewrite pair_ltb_false. lia.
  - intros x y z. rewrite !pair_ltb_true. lia.
  - intros x y z. rewrite !pair_ltb_false. lia.
Qed.

Lemma compare_suffixes_swo r n gap : strict_weak_order (compare_suffixes r n gap).
Proof. apply (pair_ltb_swo (sort_key r n gap)). Qed.

(** ** Insertion sort conforms to the contract *)

Lemma swo_asym cmp x y :
  strict_weak_order cmp -> cmp x y = true -> cmp y x = false.
Proof.
  intros H Hxy. destruct (cmp y x) eqn:Hyx; [|done].
  pose proof (swo_trans _ H _ _ _ Hxy Hyx) as Hxx.
  rewrite (swo_irrefl _ H) in Hxx. done.
Qed.

(** "Does not compare less than" is transitive. *)
Lemma swo_not_lt_trans cmp x y z :
  strict_weak_order cmp -> cmp y x = false -> cmp z y = false -> cmp z x = false.
Proof.
  intros H Hyx Hzy. destruct (cmp z x) eqn:Hzx; [|done].
  destruct (cmp x y) eqn:Hxy.
  - pose proof (swo_trans _ H _ _ _ Hzx Hxy). congruence.
  - destruct (cmp y z) eqn:Hyz.
    + pose proof (swo_trans _ H _ _ _ Hyz Hzx). congruence.
    + destruct (swo_incomp_trans _ H x y z Hxy Hyx Hyz Hzy). congruence.
Qed.

Lemma insert_sorted_perm cmp x l : insert_sorted cmp x l ≡ₚ x :: l.
Proof.
  induction l as [|y l IH]; simpl; [done|].
  destruct (cmp y x); [|done]. rewrite IH. apply Permutation_swap.
Qed.

Lemma insertion_sort_perm cmp l : insertion_sort cmp l ≡ₚ l.
Proof.
  induction l as [|x l IH]; simpl; [done|].
  rewrite insert_sorted_perm. by f_equiv.
Qed.

Lemma insert_sorted_sorted cmp x l :
  strict_weak_order cmp ->
  StronglySorted (fun a b => cmp b a = false) l ->
  StronglySorted (fun a b => cmp b a = false) (insert_sorted cmp x l).
Proof.
  intros Hswo. induction l as [|y l IH]; intros Hs; simpl.
  - repeat constructor.
  - apply StronglySorted_inv in Hs as [Hs Hall].
    destruct (cmp y x) eqn:Hyx.
    + constructor; [by apply IH|].
      rewrite (insert_sorted_perm cmp x l). constructor; [|done].
      by apply (swo_asym cmp).
    + constructor; [by constructor|]. constructor; [done|].
      eapply Forall_impl; [exact Hall|]. simpl. intros z Hzy.
      by apply (swo_not_lt_trans cmp x y z).
Qed.

Lemma StronglySorted_sorted_wrt cmp l :
  StronglySorted (fun a b => cmp b a = false) l -> sorted_wrt cmp l.
Proof.
  induction 1 as [|x l Hs IH Hall]; intros i j Hij Hj; simpl in *; [lia|].
  destruct j as [|j]; [lia|]. rewrite lookup_total_cons_ne_0 by lia. simpl.
  destruct i as [|i].
  - simpl. rewrite Forall_forall in Hall. apply Hall.
    apply list_elem_of_lookup_total_2. lia.
  - rewrite (lookup_total_cons_ne_0 l x (S i)) by lia. simpl. apply IH; lia.
Qed.

Lemma insertion_sort_spec : sort_spec insertion_sort.
Proof.
  intros cmp l Hswo. split; [apply insertion_sort_perm|].
  apply StronglySorted_sorted_wrt.
  induction l as [|x l IH]; simpl; [constructor|].
  by apply insert_sorted_sorted.
Qed.

Lemma insertion_sort_from_end_spec : sort_spec insertion_sort_from_end.
Proof.
  intros cmp l Hswo. unfold insertion_sort_from_end.
  destruct (insertion_sort_spec cmp (reverse l) Hswo) as [Hp Hs].
  split; [|done]. by rewrite Hp, reverse_Permutation.
Qed.

(** ** Lexicographic comparison *)

Lemma lex_compare_refl a : lex_compare a a = Eq.
Proof. induction a as [|x a IH]; simpl; [done|]. by rewrite Z.compare_refl. Qed.

Lemma lex_compare_eq a b : lex_compare a b = Eq -> a = b.
Proof.
  revert b. induction a as [|x a IH]; intros [|y b]; simpl; try done.
  destruct (Z.compare_spec x y); try done. intros Hab. f_equal; [done|by apply IH].
Qed.

Lemma lex_compare_antisym a b : lex_compare b a = CompOpp (lex_compare a b).
Proof.
  revert b. induction a as [|x a IH]; intros [|y b]; simpl; try done.
  rewrite (Z.compare_antisym x y).
  destruct (x ?= y)%Z; simpl; [apply IH|done|done].
Qed.

Lemma lex_compare_lt_trans a b c :
  lex_compare a b = Lt -> lex_compare b c = Lt -> lex_compare a c = Lt.
Proof.
  revert b c. induction a as [|x a IH]; intros [|y b] [|z c]; simpl; try done.
  destruct (Z.compare_spec x y), (Z.compare_spec y z), (Z.compare_spec x z);
    try done; try lia.
  apply IH.
Qed.

Lemma lex_compare_not_gt_trans a b c :
  lex_compare a b <> Gt -> lex_compare b c <> Gt -> lex_compare a c <> Gt.
Proof.
  intros Hab Hbc.
  destruct (lex_compare a b) eqn:E1; [| |done].
  - apply lex_compare_eq in E1 as ->. done.
  - destruct (lex_compare b c) eqn:E2; [| |done].
    + apply lex_compare_eq in E2 as <-. by rewrite E1.
    + by rewrite (lex_compare_lt_trans a b c).
Qed.

Lemma lex_le_compare a b : lex_le a b = true <-> lex_compare a b <> Gt.
Proof.
  revert b. induction a as [|x a IH]; intros [|y b]; simpl; try done.
  rewrite orb_true_iff, andb_true_iff, Z.ltb_lt, Z.eqb_eq, IH.
  destruct (Z.compare_spec x y); intuition (try discriminate; try lia).
Qed.

Lemma lex_lt_compare a b : lex_lt a b = true <-> lex_compare a b = Lt.
Proof.
  revert b. induction a as [|x a IH]; intros [|y b]; simpl; try done.
  rewrite orb_true_iff, andb_true_iff, Z.ltb_lt, Z.eqb_eq, IH.
  destruct (Z.compare_spec x y); intuition (try discriminate; try lia).
Qed.

(** A comparison decided within the first [k] symbols stands for the
    whole lists. *)
Lemma lex_compare_take_lt k a b :
  lex_compare (take k a) (take k b) = Lt -> lex_compare a b = Lt.
Proof.
  revert a b. induction k as [|k IH]; intros [|x a] [|y b]; simpl; try done.
  destruct (x ?= y)%Z; try done. apply IH.
Qed.

(** Comparing concatenations piecewise, when a shorter first piece is
    followed by nothing. *)
Lemma lex_compare_app a a' b b' :
  (length a < length a' -> b = []) ->
  (length a' < length a -> b' = []) ->
  lex_compare (a ++ b) (a' ++ b')
  = match lex_compare a a' with Eq => lex_compare b b' | c => c end.
Proof.
  revert a'. induction a as [|x a IH]; intros [|y a'] H1 H2; simpl in *.
  - done.
  - rewrite H1 by lia. done.
  - rewrite H2 by lia. done.
  - destruct (x ?= y)%Z; try done. apply IH; intros; [apply H1|apply H2]; lia.
Qed.

(** ** Prefix comparison of suffixes *)

Section Prefixes.
Variable codes : list Z.
Local Abbreviation n := (length codes).

Lemma suffix_at_cons i :
  i < n -> suffix_at codes i = codes !!! i :: suffix_at codes (S i).
Proof.
  intros Hi. unfold suffix_at. apply drop_S.
  by apply list_lookup_lookup_total_lt.
Qed.

Lemma suffix_at_nil i : n <= i -> suffix_at codes i = [].
Proof. intros Hi. unfold suffix_at. by apply drop_ge. Qed.

Lemma length_suffix_at i : length (suffix_at codes i) = n - i.
Proof. unfold suffix_at. apply length_drop. Qed.

Lemma prefix_compare_refl k i : prefix_compare codes k i i = Eq.
Proof. apply lex_compare_refl. Qed.

Lemma prefix_compare_antisym k i j :
  prefix_compare codes k j i = CompOpp (prefix_compare codes k i j).
Proof. apply lex_compare_antisym. Qed.

Lemma prefix_compare_one i j :
  i < n -> j < n ->
  prefix_compare codes 1 i j = (codes !!! i ?= codes !!! j)%Z.
Proof.
  intros Hi Hj. unfold prefix_compare.
  rewrite (suffix_at_cons i), (suffix_at_cons j) by done. simpl.
  by destruct (_ ?= _)%Z.
Qed.

(** The doubling step: [2 * gap] symbols are compared as [gap] symbols
    here and [gap] symbols further on. *)
Lemma prefix_compare_double g i j :
  prefix_compare codes (g + g) i j
  = match prefix_compare codes g i j with
    | Eq => prefix_compare codes g (i + g) (j + g)
    | c => c
    end.
Proof.
  unfold prefix_compare, suffix_at.
  rewrite <- !(take_take_drop _ g g), !drop_drop.
  apply lex_compare_app; rewrite !length_take, !length_drop; intros Hlen.
  - rewrite (drop_ge codes (i + g)) by lia. by rewrite take_nil.
  - rewrite (drop_ge codes (j + g)) by lia. by rewrite take_nil.
Qed.

(** Past the end there is nothing left to compare. *)
Lemma prefix_compare_end_l g i j :
  0 < g -> n <= i -> j < n -> prefix_compare codes g i j = Lt.
Proof.
  intros Hg Hi Hj. unfold prefix_compare.
  rewrite (suffix_at_nil i), (suffix_at_cons j) by done.
  destruct g; [lia|]. done.
Qed.

Lemma prefix_compare_end_r g i j :
  0 < g -> i < n -> n <= j -> prefix_compare codes g i j = Gt.
Proof.
  intros Hg Hi Hj. rewrite prefix_compare_antisym.
  by rewrite prefix_compare_end_l.
Qed.

Lemma prefix_compare_end_both g i j :
  n <= i -> n <= j -> prefix_compare codes g i j = Eq.
Proof.
  intros Hi Hj. unfold prefix_compare.
  rewrite (suffix_at_nil i), (suffix_at_nil j) by done. apply lex_compare_refl.
Qed.

(** Distinct suffixes differ within [n] symbols. *)
Lemma prefix_compare_distinct k i j :
  n <= k -> i <= n -> j <= n -> prefix_compare codes k i j = Eq -> i = j.
Proof.
  intros Hk Hi Hj Heq. unfold prefix_compare in Heq.
  rewrite !take_ge in Heq by (rewrite length_suffix_at; lia).
  apply lex_compare_eq in Heq. apply (f_equal length) in Heq.
  rewrite !length_suffix_at in Heq. lia.
Qed.

Lemma prefix_compare_lt_suffix k i j :
  prefix_compare codes k i j = Lt ->
  lex_compare (suffix_at codes i) (suffix_at codes j) = Lt.
Proof. apply lex_compare_take_lt. Qed.

(** *** The comparator under the loop invariant *)

Lemma sort_key_compare_prefix g r i j :
  0 < g -> ranks_order_prefixes codes g r -> i < n -> j < n ->
  pair_compare (sort_key r n g i) (sort_key r n g j)
  = prefix_compare codes (g + g) i j.
Proof.
  intros Hg Hinv Hi Hj. unfold pair_compare, sort_key. simpl.
  rewrite prefix_compare_double.
  destruct Hinv as (Hlen & Hpos & Hord). rewrite (Hord i j Hi Hj).
  destruct (prefix_compare codes g i j); try done.
  unfold next_rank.
  destruct (Nat.ltb_spec (i + g) n) as [Hi'|Hi'],
           (Nat.ltb_spec (j + g) n) as [Hj'|Hj'].
  - by apply Hord.
  - rewrite prefix_compare_end_r by done.
    specialize (Hpos (i + g) Hi'). apply Z.compare_gt_iff. lia.
  - rewrite prefix_compare_end_l by done.
    specialize (Hpos (j + g) Hj'). apply Z.compare_lt_iff. lia.
  - by rewrite prefix_compare_end_both.
Qed.

(** The table the loop starts from. *)
Lemma initial_ranks_order :
  nonneg_codes codes -> ranks_order_prefixes codes 1 codes.
Proof.
  intros Hnn. split; [done|]. split.
  - intros i Hi. unfold nonneg_codes in Hnn. rewrite Forall_forall in Hnn.
    apply Hnn. by apply list_elem_of_lookup_total_2.
  - intros i j Hi Hj. by rewrite prefix_compare_one.
Qed.

End Prefixes.

(** ** Ranks read along [sa] *)

Section RankSteps.
Variables (cmp : nat -> nat -> bool) (n : nat) (s : list nat) (t : list Z).
Hypothesis Hsteps : rank_steps cmp n s t.

Lemma rank_steps_bounds a b :
  a <= b -> b < n ->
  (0 <= t !!! (s !!! b) - t !!! (s !!! a) <= Z.of_nat b - Z.of_nat a)%Z.
Proof.
  destruct Hsteps as [_ Hrec].
  induction b as [|b IH]; intros Hab Hb.
  - replace a with 0 by lia. lia.
  - destruct (decide (a = S b)) as [->|Hne]; [lia|].
    specialize (Hrec (S b)). replace (S b - 1) with b in Hrec by lia.
    rewrite Hrec by lia. destruct (cmp _ _); lia.
Qed.

Lemma rank_steps_nonneg a : a < n -> (0 <= t !!! (s !!! a))%Z.
Proof.
  intros Ha. pose proof (rank_steps_bounds 0 a) as H.
  destruct Hsteps as [H0 _]. rewrite H0 in H. lia.
Qed.

Lemma rank_steps_le a : a < n -> (t !!! (s !!! a) <= Z.of_nat a)%Z.
Proof.
  intros Ha. pose proof (rank_steps_bounds 0 a) as H.
  destruct Hsteps as [H0 _]. rewrite H0 in H. lia.
Qed.

(** The exit test holds exactly when the ranks along [sa] count up. *)
Lemma rank_steps_full a :
  0 < n -> t !!! (s !!! (n - 1)) = (Z.of_nat n - 1)%Z ->
  a < n -> t !!! (s !!! a) = Z.of_nat a.
Proof.
  intros Hn Hlast Ha.
  pose proof (rank_steps_bounds a (n - 1)) as H1.
  pose proof (rank_steps_le a Ha) as H2. lia.
Qed.

(** When every step increases, the ranks count up. *)
Lemma rank_steps_strict a :
  (forall i, 1 <= i < n -> cmp (s !!! (i - 1)) (s !!! i) = true) ->
  a < n -> t !!! (s !!! a) = Z.of_nat a.
Proof.
  intros Hall. destruct Hsteps as [H0 Hrec].
  induction a as [|a IH]; intros Ha; [done|].
  specialize (Hrec (S a)). specialize (Hall (S a)).
  replace (S a - 1) with a in * by lia.
  rewrite Hrec, Hall, IH by lia. lia.
Qed.

End RankSteps.

(** ** Keys *)

Lemma pair_ltb_compare p q :
  pair_ltb p q = match pair_compare p q with Lt => true | _ => false end.
Proof.
  unfold pair_ltb, pair_compare.
  destruct (Z.compare_spec p.1 q.1), (Z.eqb_spec p.1 q.1); simpl; try lia.
  destruct (Z.compare_spec p.2 q.2); lia.
Qed.

Lemma pair_compare_refl p : pair_compare p p = Eq.
Proof. unfold pair_compare. by rewrite !Z.compare_refl. Qed.

Lemma pair_compare_eq p q : pair_compare p q = Eq -> p = q.
Proof.
  unfold pair_compare. destruct p as [a b], q as [c d]. simpl.
  destruct (Z.compare_spec a c); try done.
  destruct (Z.compare_spec b d); try done. congruence.
Qed.

Lemma pair_compare_antisym p q : pair_compare q p = CompOpp (pair_compare p q).
Proof.
  unfold pair_compare. rewrite (Z.compare_antisym p.1 q.1).
  destruct (p.1 ?= q.1)%Z; simpl; [apply Z.compare_antisym|done|done].
Qed.

Lemma pair_compare_lt_trans p q u :
  pair_compare p q = Lt -> pair_compare q u = Lt -> pair_compare p u = Lt.
Proof.
  unfold pair_compare. destruct p as [a b], q as [c d], u as [e f]. simpl.
  destruct (Z.compare_spec a c), (Z.compare_spec c e), (Z.compare_spec a e);
    try done; try lia.
  rewrite !Z.compare_lt_iff. lia.
Qed.

(** ** The recomputed ranks order the positions as their keys do *)

Section RankOrder.
Variables (key : nat -> Z * Z) (n : nat) (s : list nat) (t : list Z).
Let cmp := fun i j => pair_ltb (key i) (key j).
Hypothesis Hsteps : rank_steps cmp n s t.
Hypothesis Hperm : s ≡ₚ seq 0 n.
Hypothesis Hsorted : sorted_wrt cmp s.

Lemma sorted_key_not_gt a b :
  a <= b -> b < n -> pair_compare (key (s !!! a)) (key (s !!! b)) <> Gt.
Proof.
  intros Hab Hb. destruct (decide (a = b)) as [->|Hne].
  - by rewrite pair_compare_refl.
  - assert (cmp (s !!! b) (s !!! a) = false) as Hf.
    { apply Hsorted; [lia|]. by rewrite (perm_seq_length s n). }
    unfold cmp in Hf. rewrite pair_ltb_compare, pair_compare_antisym in Hf.
    by destruct (pair_compare (key (s !!! a)) (key (s !!! b))).
Qed.

Lemma ranks_order_along a b :
  a <= b -> b < n ->
  (t !!! (s !!! a) ?= t !!! (s !!! b))%Z
  = pair_compare (key (s !!! a)) (key (s !!! b)).
Proof.
  induction b as [|b IH]; intros Hab Hb.
  - replace a with 0 by lia. by rewrite Z.compare_refl, pair_compare_refl.
  - destruct (decide (a = S b)) as [->|Hne].
    { by rewrite Z.compare_refl, pair_compare_refl. }
    specialize (IH ltac:(lia) ltac:(lia)).
    destruct Hsteps as [_ Hrec]. specialize (Hrec (S b) ltac:(lia)).
    replace (S b - 1) with b in Hrec by lia.
    pose proof (sorted_key_not_gt b (S b) ltac:(lia) Hb) as Hstep.
    pose proof (sorted_key_not_gt a b ltac:(lia) ltac:(lia)) as Hab'.
    unfold cmp in Hrec. rewrite pair_ltb_compare in Hrec.
    destruct (pair_compare (key (s !!! b)) (key (s !!! S b))) eqn:E1;
      [| |done]; simpl in Hrec.
    + apply pair_compare_eq in E1. by rewrite <- E1, <- IH, Hrec, Z.add_0_r.
    + destruct (pair_compare (key (s !!! a)) (key (s !!! b))) eqn:E2;
        [| |done].
      * apply pair_compare_eq in E2. rewrite E2, E1.
        apply Z.compare_eq in IH. apply Z.compare_lt_iff. rewrite Hrec, IH. lia.
      * rewrite (pair_compare_lt_trans _ _ _ E2 E1).
        rewrite Z.compare_lt_iff in IH. apply Z.compare_lt_iff. rewrite Hrec. lia.
Qed.

Lemma ranks_order_keys i j :
  i < n -> j < n ->
  (t !!! i ?= t !!! j)%Z = pair_compare (key i) (key j).
Proof.
  intros Hi Hj.
  destruct (perm_seq_position s n i Hperm Hi) as (a & Ha & <-).
  destruct (perm_seq_position s n j Hperm Hj) as (b & Hb & <-).
  destruct (decide (a <= b)) as [Hab|Hab].
  - by apply ranks_order_along.
  - rewrite Z.compare_antisym, pair_compare_antisym. f_equal.
    apply ranks_order_along; lia.
Qed.

Lemma ranks_nonneg i : i < n -> (0 <= t !!! i)%Z.
Proof.
  intros Hi. destruct (perm_seq_position s n i Hperm Hi) as (a & Ha & <-).
  by apply (rank_steps_nonneg cmp n).
Qed.

End RankOrder.

(** ** One pass of the doubling loop *)

Lemma initial_state_eq (codes : list Z) :
  initial_state (length codes) codes
  = mkState 1 (seq 0 (length codes)) codes (replicate (length codes) 0%Z).
Proof. unfold initial_state. by rewrite init_arrays_eq. Qed.

Lemma initial_state_shape (codes : list Z) :
  state_shape (length codes) (initial_state (length codes) codes).
Proof.
  rewrite initial_state_eq. split; [done|]. split; [done|].
  simpl. apply length_replicate.
Qed.

Lemma initial_state_inv (codes : list Z) :
  nonneg_codes codes -> loop_inv codes (initial_state (length codes) codes).
Proof.
  intros Hnn. split; [|split].
  - rewrite initial_state_eq. simpl. lia.
  - apply initial_state_shape.
  - rewrite initial_state_eq. simpl. by apply initial_ranks_order.
Qed.

Lemma double_gap_shape n st : state_shape n st -> state_shape n (double_gap st).
Proof. done. Qed.

Section Doubling.
Variable std_sort : (nat -> nat -> bool) -> list nat -> list nat.
Hypothesis Hsort : sort_spec std_sort.

(** What one pass does to any state of the right shape. *)
Lemma pass_shape n st :
  0 < n -> state_shape n st ->
  state_shape n (pass std_sort n st) /\
  st_gap (pass std_sort n st) = st_gap st /\
  st_temp (pass std_sort n st) = st_rank (pass std_sort n st) /\
  sorted_wrt (compare_suffixes (st_rank st) n (st_gap st))
             (st_sa (pass std_sort n st)) /\
  rank_steps (compare_suffixes (st_rank st) n (st_gap st)) n
             (st_sa (pass std_sort n st)) (st_rank (pass std_sort n st)).
Proof.
  intros Hn (Hperm & Hlr & Hlt). unfold pass. simpl.
  set (cmp := compare_suffixes (st_rank st) n (st_gap st)).
  destruct (Hsort cmp (st_sa st) (compare_suffixes_swo _ _ _)) as [Hp Hs].
  assert (std_sort cmp (st_sa st) ≡ₚ seq 0 n) as Hperm' by (by rewrite Hp).
  destruct (assign_ranks_spec cmp n (std_sort cmp (st_sa st)) (st_temp st)
              Hn Hperm' Hlt) as (Hl & H0 & Hrec).
  rewrite (copy_ranks_eq n _ (st_rank st)) by done.
  repeat split; done.
Qed.

(** The ranks are non-decreasing along [sa] after a pass, and when the
    exit test holds they count up from 0. *)
Lemma pass_monotone n st a b :
  0 < n -> state_shape n st -> a <= b -> b < n ->
  (st_rank (pass std_sort n st) !!! (st_sa (pass std_sort n st) !!! a)
   <= st_rank (pass std_sort n st) !!! (st_sa (pass std_sort n st) !!! b))%Z.
Proof.
  intros Hn Hshape Hab Hb.
  destruct (pass_shape n st Hn Hshape) as (_ & _ & _ & _ & Hsteps).
  pose proof (rank_steps_bounds _ _ _ _ Hsteps a b Hab Hb). lia.
Qed.

Lemma pass_all_ranked n st a :
  0 < n -> state_shape n st ->
  all_ranked n (pass std_sort n st) = true -> a < n ->
  st_rank (pass std_sort n st) !!! (st_sa (pass std_sort n st) !!! a)
  = Z.of_nat a.
Proof.
  intros Hn Hshape Hex Ha.
  destruct (pass_shape n st Hn Hshape) as (_ & _ & _ & _ & Hsteps).
  apply (rank_steps_full _ _ _ _ Hsteps); [done| |done].
  unfold all_ranked in Hex. by apply Z.eqb_eq in Hex.
Qed.

Section NonNegative.
Variable codes : list Z.
Local Abbreviation n := (length codes).
Hypothesis Hn : 0 < n.

Lemma pass_ranks_order st :
  loop_inv codes st ->
  ranks_order_prefixes codes (st_gap st + st_gap st)
    (st_rank (pass std_sort n st)).
Proof.
  intros Hinv. pose proof Hinv as (Hg & Hshape & Hord).
  destruct (pass_shape n st Hn Hshape)
    as ((Hperm & Hlr & Hlt) & Hgap & Htemp & Hsorted & Hsteps).
  split; [done|]. split.
  - intros i Hi.
    by apply (ranks_nonneg (sort_key (st_rank st) n (st_gap st)) n _ _
                Hsteps Hperm).
  - intros i j Hi Hj.
    rewrite (ranks_order_keys (sort_key (st_rank st) n (st_gap st)) n _ _
               Hsteps Hperm Hsorted) by done.
    by apply sort_key_compare_prefix.
Qed.

Lemma pass_inv st :
  loop_inv codes st -> loop_inv codes (double_gap (pass std_sort n st)).
Proof.
  intros Hinv. pose proof Hinv as (Hg & Hshape & Hord).
  destruct (pass_shape n st Hn Hshape) as (Hshape' & Hgap & _).
  split; [|split].
  - simpl. lia.
  - by apply double_gap_shape.
  - simpl.
    replace (st_gap st * 2) with (st_gap st + st_gap st) by lia.
    by apply pass_ranks_order.
Qed.

(** Once [2 * gap] reaches [n] all suffixes are told apart and the exit
    test holds. *)
Lemma pass_exits st :
  loop_inv codes st -> n <= st_gap st * 2 ->
  all_ranked n (pass std_sort n st) = true.
Proof.
  intros Hinv Hbig. pose proof Hinv as (Hg & Hshape & Hord).
  destruct (pass_shape n st Hn Hshape)
    as ((Hperm & Hlr & Hlt) & Hgap & Htemp & Hsorted & Hsteps).
  unfold all_ranked. apply Z.eqb_eq.
  rewrite (rank_steps_strict _ _ _ _ Hsteps); [lia| |lia].
  intros i Hi.
  assert (st_sa (pass std_sort n st) !!! (i - 1) < n) as H1
    by (apply (perm_seq_lookup_lt _ n); [done|lia]).
  assert (st_sa (pass std_sort n st) !!! i < n) as H2
    by (apply (perm_seq_lookup_lt _ n); [done|lia]).
  rewrite compare_suffixes_key, pair_ltb_compare.
  pose proof (sorted_key_not_gt (sort_key (st_rank st) n (st_gap st)) n _
                Hperm Hsorted (i - 1) i ltac:(lia) ltac:(lia)) as Hle.
  rewrite sort_key_compare_prefix in * by done.
  destruct (prefix_compare codes (st_gap st + st_gap st)
              (st_sa (pass std_sort n st) !!! (i - 1))
              (st_sa (pass std_sort n st) !!! i)) eqn:E; [|done|done].
  apply prefix_compare_distinct in E; [|lia|lia|lia].
  apply NoDup_lookup_total_inj in E;
    [lia|by apply (perm_seq_NoDup _ n)
        |rewrite (perm_seq_length _ n); [lia|done]
        |rewrite (perm_seq_length _ n); [lia|done]].
Qed.

(** At the [break] the suffix array is sorted. *)
Lemma pass_final st :
  loop_inv codes st -> all_ranked n (pass std_sort n st) = true ->
  final_state codes (pass std_sort n st).
Proof.
  intros Hinv Hex. pose proof Hinv as (Hg & Hshape & Hord).
  pose proof (pass_ranks_order st Hinv) as (_ & _ & Hord').
  destruct (pass_shape n st Hn Hshape) as (Hshape' & _).
  pose proof Hshape' as (Hperm & _).
  split; [done|]. split.
  - intros a Ha. by apply pass_all_ranked.
  - intros a b Hab Hb.
    apply (prefix_compare_lt_suffix codes (st_gap st + st_gap st)).
    rewrite <- Hord' by (apply (perm_seq_lookup_lt _ n); [done|lia]).
    rewrite !pass_all_ranked by (done || lia).
    apply Z.compare_lt_iff. lia.
Qed.

(** The loop terminates, within the fuel that lets [gap] reach [n]. *)
Lemma doubling_loop_terminates fuel st :
  loop_inv codes st -> 0 < fuel -> n <= st_gap st * 2 ^ fuel ->
  exists st' k,
    doubling_loop std_sort fuel n st = Some (st', k) /\
    final_state codes st' /\ 1 <= k <= fuel.
Proof.
  revert st. induction fuel as [|fuel IH]; intros st Hinv Hf Hbig; [lia|].
  simpl. destruct (all_ranked n (pass std_sort n st)) eqn:Hex.
  - eexists _, _. split; [done|]. split; [by apply pass_final|lia].
  - assert (st_gap st * 2 < n) as Hsmall.
    { destruct (decide (n <= st_gap st * 2)) as [Hle|]; [|lia].
      rewrite pass_exits in Hex; done. }
    assert (0 < fuel) as Hf'.
    { destruct fuel; [simpl in Hbig; lia|lia]. }
    destruct (IH (double_gap (pass std_sort n st))) as (st' & k & Hrun & Hfin & Hk).
    + by apply pass_inv.
    + done.
    + simpl. rewrite Nat.pow_succ_r' in Hbig. lia.
    + rewrite Hrun. simpl. eexists _, _. split; [done|]. split; [done|lia].
Qed.

End NonNegative.
End Doubling.

(** ** Common prefixes *)

Lemma common_prefix_length_sym a b :
  common_prefix_length a b = common_prefix_length b a.
Proof.
  revert b. induction a as [|x a IH]; intros [|y b]; simpl; try done.
  rewrite (Z.eqb_sym y x). destruct (x =? y)%Z; [by rewrite IH|done].
Qed.

Lemma common_prefix_length_le a b :
  common_prefix_length a b <= length a /\ common_prefix_length a b <= length b.
Proof.
  revert b. induction a as [|x a IH]; intros [|y b]; simpl; try lia.
  destruct (x =? y)%Z; [|lia]. specialize (IH b). lia.
Qed.

(** Between two lists in lexicographic order, the one in the middle shares
    at least as much with the last as the first does. *)
Lemma common_prefix_sandwich a b c :
  lex_compare a b <> Gt -> lex_compare b c <> Gt ->
  common_prefix_length a c <= common_prefix_length b c.
Proof.
  revert b c. induction a as [|x a IH]; intros [|y b] [|z c]; simpl;
    try lia; try done.
  destruct (Z.compare_spec x y), (Z.compare_spec y z); try done;
    intros Hab Hbc;
    destruct (Z.eqb_spec x z), (Z.eqb_spec y z); try lia.
  apply le_n_S. by apply IH.
Qed.

Section CommonPrefix.
Variable codes : list Z.
Local Abbreviation n := (length codes).

Lemma lcp_at_sym i j : lcp_at codes i j = lcp_at codes j i.
Proof. apply common_prefix_length_sym. Qed.

Lemma lcp_at_le i j : lcp_at codes i j <= n - i /\ lcp_at codes i j <= n - j.
Proof.
  unfold lcp_at.
  pose proof (common_prefix_length_le (suffix_at codes i) (suffix_at codes j)).
  by rewrite !length_suffix_at in *.
Qed.

Lemma lcp_at_step i j :
  i < n -> j < n -> codes !!! i = codes !!! j ->
  lcp_at codes i j = S (lcp_at codes (S i) (S j)).
Proof.
  intros Hi Hj Heq. unfold lcp_at.
  rewrite (suffix_at_cons codes i), (suffix_at_cons codes j) by done.
  simpl. by rewrite Heq, Z.eqb_refl.
Qed.

Lemma lcp_at_pos i j :
  0 < lcp_at codes i j -> i < n /\ j < n /\ codes !!! i = codes !!! j.
Proof.
  unfold lcp_at. intros Hpos.
  destruct (decide (i < n)) as [Hi|Hi];
    [|rewrite (suffix_at_nil codes i) in Hpos by lia; simpl in Hpos; lia].
  destruct (decide (j < n)) as [Hj|Hj];
    [|rewrite (suffix_at_nil codes j) in Hpos by lia;
      destruct (suffix_at codes i); simpl in Hpos; lia].
  rewrite (suffix_at_cons codes i), (suffix_at_cons codes j) in Hpos by done.
  simpl in Hpos. destruct (Z.eqb_spec (codes !!! i) (codes !!! j)); [done|lia].
Qed.

Lemma lcp_at_add i j h :
  h <= lcp_at codes i j ->
  lcp_at codes i j = h + lcp_at codes (i + h) (j + h).
Proof.
  induction h as [|h IH]; intros Hh.
  - by rewrite !Nat.add_0_r.
  - specialize (IH ltac:(lia)).
    destruct (lcp_at_pos (i + h) (j + h)) as (Hi & Hj & Heq); [lia|].
    rewrite (lcp_at_step _ _ Hi Hj Heq) in IH.
    replace (i + S h) with (S (i + h)) by lia.
    replace (j + S h) with (S (j + h)) by lia. lia.
Qed.

(** The loop test holds exactly below the common prefix length. *)
Lemma match_continues_iff i j h :
  h <= lcp_at codes i j ->
  match_continues codes i j h <-> h < lcp_at codes i j.
Proof.
  intros Hh. pose proof (lcp_at_add i j h Hh) as Hadd. split.
  - intros (Hi & Hj & Heq). rewrite (lcp_at_step _ _ Hi Hj Heq) in Hadd. lia.
  - intros Hlt. apply lcp_at_pos. lia.
Qed.

(** Dropping a common first symbol keeps the order. *)
Lemma lex_compare_suffix_step i j :
  0 < lcp_at codes i j ->
  lex_compare (suffix_at codes (S i)) (suffix_at codes (S j))
  = lex_compare (suffix_at codes i) (suffix_at codes j).
Proof.
  intros Hpos. destruct (lcp_at_pos i j Hpos) as (Hi & Hj & Heq).
  rewrite (suffix_at_cons codes i), (suffix_at_cons codes j) by done.
  simpl. by rewrite Heq, Z.compare_refl.
Qed.

(** Kasai's [while] loop stops at the common prefix length. *)
Lemma extend_match_exact fuel i j (h : nat) :
  h <= lcp_at codes i j -> lcp_at codes i j - h < fuel ->
  extend_match fuel codes n i j (Z.of_nat h)
  = Some (Z.of_nat (lcp_at codes i j)).
Proof.
  revert h. induction fuel as [|fuel IH]; intros h Hh Hfuel; [lia|].
  simpl. pose proof (match_continues_iff i j h Hh) as Hiff.
  unfold match_continues in Hiff.
  replace (Z.to_nat (Z.of_nat i + Z.of_nat h)) with (i + h) by lia.
  replace (Z.to_nat (Z.of_nat j + Z.of_nat h)) with (j + h) by lia.
  destruct (decide (h < lcp_at codes i j)) as [Hlt|Hge].
  - apply Hiff in Hlt as (Hi & Hj & Heq).
    rewrite Heq, Z.eqb_refl, andb_true_r.
    replace (Z.of_nat i + Z.of_nat h <? Z.of_nat n)%Z with true by lia.
    replace (Z.of_nat j + Z.of_nat h <? Z.of_nat n)%Z with true by lia.
    simpl. replace (Z.of_nat h + 1)%Z with (Z.of_nat (S h)) by lia.
    apply IH; lia.
  - replace (lcp_at codes i j) with h by lia.
    destruct (_ && _ && _) eqn:E; [|done].
    exfalso. apply Hge, Hiff.
    rewrite !andb_true_iff in E. destruct E as [[E1 E2] E3].
    apply Z.eqb_eq in E3. lia.
Qed.

End CommonPrefix.

(** ** Kasai's algorithm *)

Section Kasai.
Variable codes : list Z.
Local Abbreviation n := (length codes).
Variables (s : list nat) (r : list Z).
Hypothesis Hn : 0 < n.
Hypothesis Hperm : s ≡ₚ seq 0 n.
Hypothesis Hrank : forall a, a < n -> r !!! (s !!! a) = Z.of_nat a.
Hypothesis Hsorted : forall a b, a < b -> b < n ->
  lex_compare (suffix_at codes (s !!! a)) (suffix_at codes (s !!! b)) = Lt.

(** [rank_array] is the inverse of [sa]. *)
Lemma rank_range i : i < n -> (0 <= r !!! i < Z.of_nat n)%Z.
Proof.
  intros Hi. destruct (perm_seq_position s n i Hperm Hi) as (a & Ha & <-).
  rewrite Hrank by done. lia.
Qed.

Lemma sa_rank i : i < n -> s !!! Z.to_nat (r !!! i) = i.
Proof.
  intros Hi. destruct (perm_seq_position s n i Hperm Hi) as (a & Ha & <-).
  rewrite Hrank by done. by rewrite Nat2Z.id.
Qed.

Lemma rank_inj i j : i < n -> j < n -> r !!! i = r !!! j -> i = j.
Proof.
  intros Hi Hj Heq. rewrite <- (sa_rank i Hi), <- (sa_rank j Hj). by rewrite Heq.
Qed.

(** A suffix that sorts before the one at [s !!! a] sits at an earlier
    index of [sa]. *)
Lemma sorted_before q a :
  q < n -> a < n ->
  lex_compare (suffix_at codes q) (suffix_at codes (s !!! a)) = Lt ->
  exists c, c < a /\ s !!! c = q.
Proof.
  intros Hq Ha Hlt.
  destruct (perm_seq_position s n q Hperm Hq) as (c & Hc & <-).
  exists c. split; [|done].
  destruct (decide (c < a)) as [|Hge]; [done|].
  destruct (decide (c = a)) as [->|Hne].
  - by rewrite lex_compare_refl in Hlt.
  - pose proof (Hsorted a c ltac:(lia) Hc) as Hgt.
    rewrite lex_compare_antisym, Hlt in Hgt. done.
Qed.

Lemma sorted_not_gt a b :
  a <= b -> b < n ->
  lex_compare (suffix_at codes (s !!! a)) (suffix_at codes (s !!! b)) <> Gt.
Proof.
  intros Hab Hb. destruct (decide (a = b)) as [->|Hne].
  - by rewrite lex_compare_refl.
  - by rewrite Hsorted by lia.
Qed.

(** The predecessor in [sa] shares the longest prefix among all suffixes
    that sort before. *)
Lemma predecessor_shares_most q a :
  q < n -> 0 < a -> a < n ->
  lex_compare (suffix_at codes q) (suffix_at codes (s !!! a)) = Lt ->
  lcp_at codes q (s !!! a) <= lcp_at codes (s !!! (a - 1)) (s !!! a).
Proof.
  intros Hq Ha0 Ha Hlt.
  destruct (sorted_before q a Hq Ha Hlt) as (c & Hc & <-).
  apply common_prefix_sandwich.
  - apply sorted_not_gt; lia.
  - apply sorted_not_gt; lia.
Qed.

Lemma kasai_inv_initial : kasai_inv codes s r 0 (replicate n 0%Z) 0%Z.
Proof.
  split; [apply length_replicate|]. split; [done|]. split.
  - by apply lookup_total_replicate_2.
  - split; [intros j Hj; lia|]. intros _. by left.
Qed.

(** One iteration of the [for] loop keeps the invariant. *)
Lemma kasai_step_inv fuel i l h :
  n < fuel -> i < n -> kasai_inv codes s r i l h ->
  exists l' h',
    kasai_step fuel codes n s r (Some (l, h)) i = Some (l', h') /\
    kasai_inv codes s r (S i) l' h'.
Proof.
  intros Hfuel Hi (Hlen & Hh & Hl0 & Hdone & Hjust).
  specialize (Hjust Hi). unfold kasai_step. simpl.
  pose proof (rank_range i Hi) as Hri.
  pose proof (sa_rank i Hi) as Hsr.
  destruct (Z.ltb_spec 0 (r !!! i)) as [Hpos|Hzero].
  - (* the suffix at [i] has a predecessor *)
    set (a := Z.to_nat (r !!! i)) in *.
    replace (Z.to_nat (r !!! i - 1)) with (a - 1) by lia.
    set (prev := s !!! (a - 1)).
    assert (0 < a /\ a < n) as [Ha0 Ha] by lia.
    assert (prev < n) as Hprev
      by (apply (perm_seq_lookup_lt s n); [done|lia]).
    assert (lex_compare (suffix_at codes prev) (suffix_at codes i) = Lt) as Hlt.
    { rewrite <- Hsr. apply Hsorted; lia. }
    assert (h <= Z.of_nat (lcp_at codes i prev))%Z as Hbound.
    { destruct Hjust as [->|(q & Hq & Hqlt & Hqh)]; [lia|].
      rewrite <- Hsr in Hqlt.
      pose proof (predecessor_shares_most q a Hq Ha0 Ha Hqlt) as Hle.
      rewrite Hsr in Hle. fold prev in Hle. rewrite (lcp_at_sym codes i prev). lia. }
    rewrite <- (Z2Nat.id h) by done.
    rewrite (extend_match_exact codes fuel i prev (Z.to_nat h)).
    2: lia.
    2: { pose proof (lcp_at_le codes i prev). lia. }
    simpl. eexists _, _. split; [done|].
    set (L := lcp_at codes i prev) in *.
    split; [by rewrite length_insert|]. split.
    { destruct (Z.ltb_spec 0 (Z.of_nat L)); lia. }
    split.
    { rewrite list_lookup_total_insert_ne by lia. done. }
    split.
    + intros j Hj Hrj. destruct (decide (j = i)) as [->|Hne].
      * fold a. replace (Z.to_nat (r !!! i - 1)) with (a - 1) by lia.
        rewrite list_lookup_total_insert_eq by lia.
        fold prev. unfold L. by rewrite lcp_at_sym.
      * rewrite list_lookup_total_insert_ne.
        -- apply Hdone; [lia|done].
        -- intros Heq. apply Hne.
           pose proof (rank_range j ltac:(lia)) as Hrj'.
           apply rank_inj; [lia|done|]. unfold a in Heq. lia.
    + intros Hi'. destruct (Z.ltb_spec 0 (Z.of_nat L)) as [HL|HL]; [|left; lia].
      destruct (decide (L = 1)) as [HL1|HL1]; [left; lia|]. right.
      pose proof (lcp_at_add codes i prev 1 ltac:(lia)) as Hadd.
      fold L in Hadd. replace (i + 1) with (S i) in Hadd by lia.
      replace (prev + 1) with (S prev) in Hadd by lia.
      exists (S prev). split.
      { destruct (lcp_at_pos codes (S i) (S prev)) as (_ & ? & _); lia. }
      split.
      * rewrite lex_compare_suffix_step; [done|].
        rewrite lcp_at_sym. fold L. lia.
      * rewrite (lcp_at_sym codes (S prev) (S i)). lia.
  - (* the suffix at [i] is the smallest *)
    eexists _, _. split; [done|].
    split; [done|]. split; [done|]. split; [done|]. split.
    + intros j Hj Hrj. destruct (decide (j = i)) as [->|Hne]; [lia|].
      apply Hdone; [lia|done].
    + intros _. left.
      destruct Hjust as [->|(q & Hq & Hqlt & Hqh)]; [done|].
      rewrite <- Hsr in Hqlt.
      destruct (sorted_before q (Z.to_nat (r !!! i)) Hq ltac:(lia) Hqlt)
        as (c & Hc & _). lia.
Qed.

(** The [for] loop as a whole. *)
Lemma kasai_loop_inv fuel k :
  n < fuel -> k <= n ->
  exists l h,
    fold_left (kasai_step fuel codes n s r) (seq 0 k)
      (Some (replicate n 0%Z, 0%Z)) = Some (l, h) /\
    kasai_inv codes s r k l h.
Proof.
  intros Hfuel. induction k as [|k IH]; intros Hk.
  - eexists _, _. split; [done|]. apply kasai_inv_initial.
  - destruct IH as (l & h & Hrun & Hinv); [lia|].
    rewrite seq_S, fold_left_app, Hrun. simpl.
    apply kasai_step_inv; [done|lia|done].
Qed.

(** The LCP array Kasai's algorithm returns. *)
Lemma kasai_correct fuel :
  n < fuel ->
  exists l,
    kasai fuel codes n s r = Some l /\
    length l = n /\
    l !!! 0 = 0%Z /\
    forall a, 1 <= a -> a < n ->
      l !!! a = Z.of_nat (lcp_at codes (s !!! (a - 1)) (s !!! a)).
Proof.
  intros Hfuel.
  destruct (kasai_loop_inv fuel n Hfuel ltac:(lia))
    as (l & h & Hrun & Hlen & Hh & Hl0 & Hdone & _).
  exists l. unfold kasai. rewrite Hrun. simpl.
  split; [done|]. split; [done|]. split; [done|].
  intros a Ha1 Ha.
  assert (s !!! a < n) as Hsa by (by apply (perm_seq_lookup_lt s n)).
  specialize (Hdone (s !!! a) Hsa). rewrite Hrank in Hdone by done.
  rewrite Nat2Z.id in Hdone.
  replace (Z.to_nat (Z.of_nat a - 1)) with (a - 1) in Hdone by lia.
  apply Hdone. lia.
Qed.

End Kasai.

(** ** The result does not depend on how [std::sort] orders ties *)

Lemma rank_steps_interval cmp n s t b v :
  rank_steps cmp n s t -> b < n -> (0 <= v <= t !!! (s !!! b))%Z ->
  exists c, c <= b /\ t !!! (s !!! c) = v.
Proof.
  intros [H0 Hrec]. induction b as [|b IH]; intros Hb Hv.
  - exists 0. split; [done|]. lia.
  - specialize (Hrec (S b) ltac:(lia)). replace (S b - 1) with b in Hrec by lia.
    destruct (decide (v = t !!! (s !!! S b))) as [->|Hne].
    + by exists (S b).
    + destruct IH as (c & Hc & Heq); [lia| |].
      * rewrite Hrec in Hv, Hne. destruct (cmp _ _); lia.
      * exists c. split; [lia|done].
Qed.

Section RankUnique.
Variables (key : nat -> Z * Z) (n : nat).
Let cmp := fun i j => pair_ltb (key i) (key j).
Variables (s1 s2 : list nat) (t1 t2 : list Z).
Hypothesis Hsteps1 : rank_steps cmp n s1 t1.
Hypothesis Hsteps2 : rank_steps cmp n s2 t2.
Hypothesis Hperm1 : s1 ≡ₚ seq 0 n.
Hypothesis Hperm2 : s2 ≡ₚ seq 0 n.
Hypothesis Hsorted1 : sorted_wrt cmp s1.
Hypothesis Hsorted2 : sorted_wrt cmp s2.

Lemma ranks_unique_along a : a < n -> t2 !!! (s1 !!! a) = t1 !!! (s1 !!! a).
Proof.
  pose proof (ranks_order_keys key n s2 t2 Hsteps2 Hperm2 Hsorted2) as Hord2.
  assert (forall c, c < n -> s1 !!! c < n) as Hlt1
    by (intros; by apply (perm_seq_lookup_lt s1 n)).
  induction a as [|a IH]; intros Ha.
  - destruct Hsteps1 as [-> _].
    pose proof (ranks_nonneg key n s2 t2 Hsteps2 Hperm2 (s1 !!! 0) (Hlt1 0 Ha)).
    assert (s2 !!! 0 < n) as H20 by (by apply (perm_seq_lookup_lt s2 n)).
    destruct (perm_seq_position s1 n (s2 !!! 0) Hperm1 H20) as (c & Hc & Hsc).
    pose proof (sorted_key_not_gt key n s1 Hperm1 Hsorted1 0 c ltac:(lia) Hc) as Hle.
    rewrite Hsc, <- Hord2 in Hle by auto.
    destruct Hsteps2 as [H2 _]. rewrite H2 in Hle.
    rewrite Z.compare_gt_iff in Hle. lia.
  - specialize (IH ltac:(lia)).
    pose proof Hsteps1 as [_ Hrec]. specialize (Hrec (S a) ltac:(lia)).
    replace (S a - 1) with a in Hrec by lia.
    unfold cmp in Hrec. rewrite pair_ltb_compare in Hrec.
    pose proof (sorted_key_not_gt key n s1 Hperm1 Hsorted1 a (S a)
                  ltac:(lia) Ha) as Hstep.
    pose proof (Hord2 (s1 !!! a) (s1 !!! S a) ltac:(auto with lia) ltac:(auto))
      as Hcmp2.
    destruct (pair_compare (key (s1 !!! a)) (key (s1 !!! S a))) eqn:E;
      [| |done]; simpl in Hrec.
    + apply Z.compare_eq in Hcmp2. rewrite Hrec, <- Hcmp2, IH. lia.
    + rewrite Z.compare_lt_iff in Hcmp2.
      destruct (perm_seq_position s2 n (s1 !!! S a) Hperm2 (Hlt1 _ Ha))
        as (b & Hb & Hsb).
      destruct (rank_steps_interval cmp n s2 t2 b (t2 !!! (s1 !!! a) + 1)
                  Hsteps2 Hb) as (c & Hc & Hv).
      { pose proof (ranks_nonneg key n s2 t2 Hsteps2 Hperm2 (s1 !!! a)
                      ltac:(auto with lia)).
        rewrite Hsb. lia. }
      assert (s2 !!! c < n) as Hx by (apply (perm_seq_lookup_lt s2 n); [done|lia]).
      destruct (perm_seq_position s1 n (s2 !!! c) Hperm1 Hx) as (d & Hd & Hsd).
      assert (a < d) as Had.
      { destruct (decide (a < d)) as [|Hge]; [done|]. exfalso.
        pose proof (sorted_key_not_gt key n s1 Hperm1 Hsorted1 d a
                      ltac:(lia) ltac:(lia)) as Hda.
        rewrite <- Hord2, Hsd in Hda by auto with lia.
        rewrite Z.compare_gt_iff in Hda. lia. }
      pose proof (sorted_key_not_gt key n s1 Hperm1 Hsorted1 (S a) d
                    ltac:(lia) Hd) as Hle.
      rewrite <- Hord2, Hsd in Hle by auto.
      rewrite Z.compare_gt_iff in Hle. rewrite Hrec, <- IH. lia.
Qed.

Lemma ranks_unique : length t1 = n -> length t2 = n -> t1 = t2.
Proof.
  intros Hl1 Hl2. apply (list_eq_same_length _ _ n); [done..|].
  intros i x y Hi Hx Hy.
  destruct (perm_seq_position s1 n i Hperm1 Hi) as (a & Ha & <-).
  pose proof (ranks_unique_along a Ha) as Heq.
  rewrite (list_lookup_total_correct _ _ _ Hx) in Heq.
  rewrite (list_lookup_total_correct _ _ _ Hy) in Heq. done.
Qed.

End RankUnique.

Lemma inverse_perm_unique n (s1 s2 : list nat) (r : list Z) :
  s1 ≡ₚ seq 0 n -> s2 ≡ₚ seq 0 n ->
  (forall a, a < n -> r !!! (s1 !!! a) = Z.of_nat a) ->
  (forall a, a < n -> r !!! (s2 !!! a) = Z.of_nat a) ->
  s1 = s2.
Proof.
  intros Hp1 Hp2 Hr1 Hr2.
  apply (list_eq_same_length _ _ n); [by apply perm_seq_length..|].
  intros a x y Ha Hx Hy.
  apply list_lookup_total_correct in Hx, Hy. subst x y.
  assert (s2 !!! a < n) as Hlt by (by apply (perm_seq_lookup_lt s2 n)).
  destruct (perm_seq_position s1 n (s2 !!! a) Hp1 Hlt) as (b & Hb & Hsb).
  pose proof (Hr1 b Hb) as H1. rewrite Hsb, Hr2 in H1 by done.
  assert (b = a) as -> by lia. done.
Qed.

Section Determinism.
Variables sort1 sort2 : (nat -> nat -> bool) -> list nat -> list nat.
Hypothesis Hsort1 : sort_spec sort1.
Hypothesis Hsort2 : sort_spec sort2.

Lemma pass_same_ranks n st1 st2 :
  0 < n -> state_shape n st1 -> state_shape n st2 -> same_ranks st1 st2 ->
  same_ranks (pass sort1 n st1) (pass sort2 n st2).
Proof.
  intros Hn Hsh1 Hsh2 [Hg Hr].
  destruct (pass_shape sort1 Hsort1 n st1 Hn Hsh1)
    as ((Hp1 & Hl1 & _) & Hg1 & _ & Hs1 & Hst1).
  destruct (pass_shape sort2 Hsort2 n st2 Hn Hsh2)
    as ((Hp2 & Hl2 & _) & Hg2 & _ & Hs2 & Hst2).
  split; [congruence|].
  rewrite <- Hr, <- Hg in Hs2, Hst2.
  exact (ranks_unique (sort_key (st_rank st1) n (st_gap st1)) n _ _ _ _
           Hst1 Hst2 Hp1 Hp2 Hs1 Hs2 Hl1 Hl2).
Qed.

Lemma pass_same_exit n st1 st2 :
  0 < n -> state_shape n st1 -> state_shape n st2 -> same_ranks st1 st2 ->
  all_ranked n (pass sort1 n st1) = all_ranked n (pass sort2 n st2).
Proof.
  intros Hn Hsh1 Hsh2 Hsame.
  destruct (pass_same_ranks n st1 st2 Hn Hsh1 Hsh2 Hsame) as [_ Hr].
  destruct (pass_shape sort1 Hsort1 n st1 Hn Hsh1)
    as ((Hp1 & _) & _ & _ & _ & Hst1).
  destruct (pass_shape sort2 Hsort2 n st2 Hn Hsh2)
    as ((Hp2 & _) & _ & _ & _ & Hst2).
  unfold all_ranked. rewrite <- Hr in *. f_equal.
  set (t := st_rank (pass sort1 n st1)) in *.
  set (s1 := st_sa (pass sort1 n st1)) in *.
  set (s2 := st_sa (pass sort2 n st2)) in *.
  assert (s1 !!! (n - 1) < n) as H1 by (apply (perm_seq_lookup_lt s1 n); [done|lia]).
  assert (s2 !!! (n - 1) < n) as H2 by (apply (perm_seq_lookup_lt s2 n); [done|lia]).
  destruct (perm_seq_position s1 n _ Hp1 H2) as (a & Ha & Hsa).
  destruct (perm_seq_position s2 n _ Hp2 H1) as (b & Hb & Hsb).
  pose proof (rank_steps_bounds _ _ _ _ Hst1 a (n - 1) ltac:(lia) ltac:(lia)) as B1.
  pose proof (rank_steps_bounds _ _ _ _ Hst2 b (n - 1) ltac:(lia) ltac:(lia)) as B2.
  rewrite Hsa in B1. rewrite Hsb in B2. lia.
Qed.

Lemma doubling_loop_deterministic fuel n st1 st2 :
  0 < n -> state_shape n st1 -> state_shape n st2 -> same_ranks st1 st2 ->
  match doubling_loop sort1 fuel n st1, doubling_loop sort2 fuel n st2 with
  | Some (st1', k1), Some (st2', k2) =>
      st_sa st1' = st_sa st2' /\ st_rank st1' = st_rank st2' /\ k1 = k2
  | None, None => True
  | _, _ => False
  end.
Proof.
  intros Hn. revert st1 st2.
  induction fuel as [|fuel IH]; intros st1 st2 Hsh1 Hsh2 Hsame; [done|].
  simpl.
  pose proof (pass_same_ranks n st1 st2 Hn Hsh1 Hsh2 Hsame) as Hsame'.
  rewrite <- (pass_same_exit n st1 st2 Hn Hsh1 Hsh2 Hsame).
  destruct (pass_shape sort1 Hsort1 n st1 Hn Hsh1) as (Hsh1' & _).
  destruct (pass_shape sort2 Hsort2 n st2 Hn Hsh2) as (Hsh2' & _).
  destruct (all_ranked n (pass sort1 n st1)) eqn:Hex.
  - destruct Hsame' as [_ Hr]. split; [|done].
    apply (inverse_perm_unique n _ _ (st_rank (pass sort1 n st1)));
      [apply Hsh1'|apply Hsh2'| |].
    + intros a Ha. by apply pass_all_ranked.
    + intros a Ha. rewrite Hr. apply pass_all_ranked; [done..| |done].
      by rewrite <- (pass_same_exit n st1 st2 Hn Hsh1 Hsh2 Hsame).
  - assert (same_ranks (double_gap (pass sort1 n st1))
                       (double_gap (pass sort2 n st2))) as Hsame''.
    { destruct Hsame' as [Hg Hr]. split; [simpl in *; lia|exact Hr]. }
    pose proof (IH _ _ (double_gap_shape _ _ Hsh1') (double_gap_shape _ _ Hsh2')
                  Hsame'') as Hrec.
    destruct (doubling_loop sort1 fuel n _) as [[st1' k1]|],
             (doubling_loop sort2 fuel n _) as [[st2' k2]|]; simpl; try done.
    destruct Hrec as (? & ? & ->). done.
Qed.

(** Any two conforming implementations of [std::sort] give the same
    result. *)
Lemma build_with_fuel_deterministic sgn fuel text :
  build_with_fuel sort1 sgn fuel text = build_with_fuel sort2 sgn fuel text.
Proof.
  unfold build_with_fuel.
  destruct (Nat.eqb_spec (String.length text) 0) as [|Hn]; [done|].
  set (n := String.length text) in *.
  set (codes := text_codes sgn text).
  assert (n = length codes) as Hlen.
  { unfold codes, text_codes, n. rewrite length_map.
    clear. induction text; simpl; congruence. }
  assert (state_shape n (initial_state n codes)) as Hsh
    by (rewrite Hlen; apply initial_state_shape).
  pose proof (doubling_loop_deterministic fuel n
                (initial_state n codes) (initial_state n codes)
                ltac:(lia) Hsh Hsh ltac:(done)) as Hdet.
  destruct (doubling_loop sort1 fuel n _) as [[st1' k1]|],
           (doubling_loop sort2 fuel n _) as [[st2' k2]|]; simpl; try done.
  destruct Hdet as (-> & -> & ->). done.
Qed.

End Determinism.

(** ** More fuel does not change a result *)

Lemma extend_match_mono fuel fuel' codes n i j h x :
  fuel <= fuel' ->
  extend_match fuel codes n i j h = Some x ->
  extend_match fuel' codes n i j h = Some x.
Proof.
  revert fuel' h. induction fuel as [|fuel IH]; intros fuel' h Hle; [done|].
  destruct fuel' as [|fuel']; [lia|]. simpl.
  destruct (_ && _ && _); [|done]. apply IH. lia.
Qed.

Lemma kasai_step_mono fuel fuel' codes n s r acc i x :
  fuel <= fuel' ->
  kasai_step fuel codes n s r acc i = Some x ->
  kasai_step fuel' codes n s r acc i = Some x.
Proof.
  intros Hle. unfold kasai_step. destruct acc as [[l h]|]; simpl; [|done].
  destruct (0 <? r !!! i)%Z; [|done].
  destruct (extend_match fuel codes n i _ h) as [h'|] eqn:E; simpl; [|done].
  by rewrite (extend_match_mono fuel fuel' _ _ _ _ _ _ Hle E).
Qed.

Lemma kasai_fold_none fuel codes n s r l :
  fold_left (kasai_step fuel codes n s r) l None = None.
Proof. induction l as [|i l IH]; simpl; [done|apply IH]. Qed.

Lemma kasai_fold_mono fuel fuel' codes n s r l acc x :
  fuel <= fuel' ->
  fold_left (kasai_step fuel codes n s r) l acc = Some x ->
  fold_left (kasai_step fuel' codes n s r) l acc = Some x.
Proof.
  intros Hle. revert acc. induction l as [|i l IH]; intros acc; simpl; [done|].
  destruct (kasai_step fuel codes n s r acc i) as [y|] eqn:E.
  - rewrite (kasai_step_mono fuel fuel' _ _ _ _ _ _ _ Hle E). apply IH.
  - by rewrite kasai_fold_none.
Qed.

Lemma kasai_mono fuel fuel' codes n s r x :
  fuel <= fuel' ->
  kasai fuel codes n s r = Some x -> kasai fuel' codes n s r = Some x.
Proof.
  intros Hle. unfold kasai.
  destruct (fold_left (kasai_step fuel codes n s r) _ _) as [y|] eqn:E; [|done].
  by rewrite (kasai_fold_mono fuel fuel' _ _ _ _ _ _ _ Hle E).
Qed.

Lemma doubling_loop_mono std_sort fuel fuel' n st x :
  fuel <= fuel' ->
  doubling_loop std_sort fuel n st = Some x ->
  doubling_loop std_sort fuel' n st = Some x.
Proof.
  revert fuel' st x. induction fuel as [|fuel IH]; intros fuel' st x Hle; [done|].
  destruct fuel' as [|fuel']; [lia|]. simpl.
  destruct (all_ranked n (pass std_sort n st)); [done|].
  destruct (doubling_loop std_sort fuel n _) as [y|] eqn:E; [|done].
  by rewrite (IH fuel' _ _ ltac:(lia) E).
Qed.

Lemma build_with_fuel_mono std_sort sgn fuel fuel' text x :
  fuel <= fuel' ->
  build_with_fuel std_sort sgn fuel text = Some x ->
  build_with_fuel std_sort sgn fuel' text = Some x.
Proof.
  intros Hle. unfold build_with_fuel.
  destruct (String.length text =? 0); [done|].
  destruct (doubling_loop std_sort fuel _ _) as [[st k]|] eqn:E; [|done].
  rewrite (doubling_loop_mono _ _ _ _ _ _ Hle E). simpl.
  destruct (kasai fuel _ _ _ _) as [l|] eqn:E'; [|done].
  by rewrite (kasai_mono _ _ _ _ _ _ _ Hle E').
Qed.

(** ** The fuel of [buildSuffixArrayAndLCP] is enough for every text

    Once [2 * gap] has reached [n] a further pass reproduces the rank
    table, so a loop that has not left by then never leaves; and Kasai's
    [while] loop advances [i + h] towards [n]. *)

Lemma top_rank_unique cmp1 cmp2 n (s1 s2 : list nat) (t : list Z) :
  0 < n -> s1 ≡ₚ seq 0 n -> s2 ≡ₚ seq 0 n ->
  rank_steps cmp1 n s1 t -> rank_steps cmp2 n s2 t ->
  t !!! (s1 !!! (n - 1)) = t !!! (s2 !!! (n - 1)).
Proof.
  intros Hn Hp1 Hp2 Hst1 Hst2.
  assert (s1 !!! (n - 1) < n) as H1 by (apply (perm_seq_lookup_lt s1 n); [done|lia]).
  assert (s2 !!! (n - 1) < n) as H2 by (apply (perm_seq_lookup_lt s2 n); [done|lia]).
  destruct (perm_seq_position s1 n _ Hp1 H2) as (a & Ha & Hsa).
  destruct (perm_seq_position s2 n _ Hp2 H1) as (b & Hb & Hsb).
  pose proof (rank_steps_bounds _ _ _ _ Hst1 a (n - 1) ltac:(lia) ltac:(lia)) as B1.
  pose proof (rank_steps_bounds _ _ _ _ Hst2 b (n - 1) ltac:(lia) ltac:(lia)) as B2.
  rewrite Hsa in B1. rewrite Hsb in B2. lia.
Qed.

Section Stationary.
Variable std_sort : (nat -> nat -> bool) -> list nat -> list nat.
Hypothesis Hsort : sort_spec std_sort.
Variable n : nat.
Hypothesis Hn : 0 < n.

Lemma pass_keeps_dense_ranks cmp1 st1 :
  state_shape n st1 -> n <= st_gap st1 ->
  rank_steps cmp1 n (st_sa st1) (st_rank st1) ->
  st_rank (pass std_sort n st1) = st_rank st1 /\
  all_ranked n (pass std_sort n st1) = all_ranked n st1.
Proof.
  intros Hsh1 Hbig Hst1.
  destruct (pass_shape std_sort Hsort n st1 Hn Hsh1)
    as ((Hp2 & Hl2 & _) & _ & _ & Hs2 & Hst2).
  destruct Hsh1 as (Hp1 & Hl1 & _).
  set (st2 := pass std_sort n st1) in *.
  set (g := st_gap st1) in *.
  assert (forall i j, i < n -> j < n ->
    compare_suffixes (st_rank st1) n g i j
    = (st_rank st1 !!! i <? st_rank st1 !!! j)%Z) as Hcmp.
  { intros i j Hi Hj. unfold compare_suffixes.
    destruct (Nat.ltb_spec (i + g) n); [lia|].
    destruct (Nat.ltb_spec (j + g) n); [lia|].
    destruct (Z.eqb_spec (st_rank st1 !!! i) (st_rank st1 !!! j)) as [->|];
      simpl; [|done].
    by rewrite !Z.ltb_irrefl. }
  assert (forall i, i < n -> st_sa st1 !!! i < n) as Hlt
    by (intros; by apply (perm_seq_lookup_lt _ n)).
  assert (rank_steps (compare_suffixes (st_rank st1) n g) n
            (st_sa st1) (st_rank st1)) as Hst1'.
  { destruct Hst1 as [H0 Hrec]. split; [done|]. intros i Hi.
    rewrite Hcmp by (apply Hlt; lia). rewrite (Hrec i Hi).
    destruct (cmp1 _ _).
    - rewrite (proj2 (Z.ltb_lt _ _)) by lia. done.
    - rewrite (proj2 (Z.ltb_ge _ _)) by lia. done. }
  assert (sorted_wrt (compare_suffixes (st_rank st1) n g) (st_sa st1)) as Hs1'.
  { intros i j Hij Hj. rewrite (perm_seq_length _ n Hp1) in Hj.
    rewrite Hcmp by (apply Hlt; lia). apply Z.ltb_ge.
    pose proof (rank_steps_bounds _ _ _ _ Hst1 i j ltac:(lia) Hj). lia. }
  assert (st_rank st2 = st_rank st1) as Heq.
  { symmetry.
    exact (ranks_unique (sort_key (st_rank st1) n g) n _ _ _ _
             Hst1' Hst2 Hp1 Hp2 Hs1' Hs2 Hl1 Hl2). }
  split; [done|]. unfold all_ranked. rewrite Heq. f_equal.
  rewrite Heq in Hst2. symmetry.
  by apply (top_rank_unique _ _ n _ _ _ Hn Hp1 Hp2 Hst1 Hst2).
Qed.

Lemma pass_stationary st :
  state_shape n st -> n <= st_gap st * 2 ->
  st_rank (pass std_sort n (double_gap (pass std_sort n st)))
  = st_rank (pass std_sort n st) /\
  all_ranked n (pass std_sort n (double_gap (pass std_sort n st)))
  = all_ranked n (pass std_sort n st).
Proof.
  intros Hsh Hbig.
  destruct (pass_shape std_sort Hsort n st Hn Hsh)
    as (Hsh1 & Hg1 & _ & _ & Hst1).
  apply (pass_keeps_dense_ranks (compare_suffixes (st_rank st) n (st_gap st))
           (double_gap (pass std_sort n st))).
  - by apply double_gap_shape.
  - cbn [double_gap st_gap]. rewrite Hg1. lia.
  - exact Hst1.
Qed.

Lemma stationary_diverges fuel st :
  state_shape n st -> n <= st_gap st * 2 ->
  all_ranked n (pass std_sort n st) = false ->
  doubling_loop std_sort fuel n (double_gap (pass std_sort n st)) = None.
Proof.
  revert st. induction fuel as [|fuel IH]; intros st Hsh Hbig Hex; [done|].
  destruct (pass_stationary st Hsh Hbig) as [_ Hsame].
  destruct (pass_shape std_sort Hsort n st Hn Hsh) as (Hsh1 & _).
  cbn [doubling_loop]. rewrite Hsame, Hex.
  rewrite IH; [done| |simpl; lia|by rewrite Hsame].
  by apply double_gap_shape.
Qed.

(** A loop that leaves does so before [gap] reaches [n]. *)
Lemma doubling_loop_count fuel st st' k :
  state_shape n st -> 0 < st_gap st ->
  doubling_loop std_sort fuel n st = Some (st', k) ->
  k = 1 \/ st_gap st * 2 ^ (k - 1) < n.
Proof.
  revert st st' k.
  induction fuel as [|fuel IH]; intros st st' k Hsh Hg Hrun; [done|].
  cbn [doubling_loop] in Hrun.
  destruct (all_ranked n (pass std_sort n st)) eqn:Hex.
  - injection Hrun as _ <-. by left.
  - destruct (doubling_loop std_sort fuel n _) as [[st'' k']|] eqn:E; [|done].
    simpl in Hrun. injection Hrun as _ <-. right.
    assert (st_gap st * 2 < n) as Hsmall.
    { destruct (decide (n <= st_gap st * 2)) as [Hbig|]; [|lia].
      rewrite (stationary_diverges fuel st Hsh Hbig Hex) in E. done. }
    destruct (pass_shape std_sort Hsort n st Hn Hsh) as (Hsh1 & _).
    destruct (IH _ _ _ (double_gap_shape _ _ Hsh1) ltac:(simpl; lia) E) as [->|Hlt].
    + simpl. lia.
    + simpl in Hlt. destruct k' as [|k']; [simpl in *; lia|].
      replace (S (S k') - 1) with (S k') by lia.
      replace (S k' - 1) with k' in Hlt by lia.
      rewrite Nat.pow_succ_r'. lia.
Qed.

End Stationary.

Lemma doubling_loop_fuel std_sort n fuel fuel' st st' k :
  doubling_loop std_sort fuel n st = Some (st', k) -> k <= fuel' ->
  doubling_loop std_sort fuel' n st = Some (st', k).
Proof.
  revert fuel' st st' k.
  induction fuel as [|fuel IH]; intros fuel' st st' k Hrun Hk; [done|].
  cbn [doubling_loop] in Hrun.
  destruct (all_ranked n (pass std_sort n st)) eqn:Hex.
  - injection Hrun as <- <-. destruct fuel' as [|fuel']; [lia|].
    cbn [doubling_loop]. by rewrite Hex.
  - destruct (doubling_loop std_sort fuel n _) as [[st'' k']|] eqn:E; [|done].
    simpl in Hrun. injection Hrun as <- <-.
    destruct fuel' as [|fuel']; [lia|]. cbn [doubling_loop]. rewrite Hex.
    by rewrite (IH fuel' _ _ _ E ltac:(lia)).
Qed.

Lemma extend_match_ge fuel codes n i j h x :
  extend_match fuel codes n i j h = Some x -> (h <= x)%Z.
Proof.
  revert h. induction fuel as [|fuel IH]; intros h; [done|]. simpl.
  destruct (_ && _ && _).
  - intros H. apply IH in H. lia.
  - intros [= <-]. lia.
Qed.

Lemma extend_match_total fuel codes n i j h :
  (0 <= h)%Z -> n <= fuel + i + Z.to_nat h ->
  is_Some (extend_match (S fuel) codes n i j h).
Proof.
  revert h. induction fuel as [|fuel IH]; intros h Hh Hfuel.
  - simpl. destruct (Z.ltb_spec (Z.of_nat i + h) (Z.of_nat n)); [lia|done].
  - cbn [extend_match].
    destruct (Z.ltb_spec (Z.of_nat i + h) (Z.of_nat n)); simpl; [|done].
    destruct (_ && _); [|done]. apply IH; lia.
Qed.

Lemma kasai_fold_total fuel codes n s r k l h :
  n < fuel -> (0 <= h)%Z ->
  is_Some (fold_left (kasai_step fuel codes n s r) (seq 0 k) (Some (l, h))).
Proof.
  intros Hfuel Hh.
  assert (exists l' h', fold_left (kasai_step fuel codes n s r) (seq 0 k) (Some (l, h))
                        = Some (l', h') /\ (0 <= h')%Z) as (l' & h' & -> & _); [|done].
  induction k as [|k IH]; [by exists l, h|].
  destruct IH as (l' & h' & Hrun & Hh').
  rewrite seq_S, fold_left_app, Hrun. simpl. unfold kasai_step. simpl.
  destruct (0 <? r !!! k)%Z; [|by exists l', h'].
  destruct fuel as [|fuel]; [lia|].
  destruct (extend_match_total fuel codes n k
              (s !!! Z.to_nat (r !!! k - 1)) h' Hh' ltac:(lia)) as [x Hx].
  rewrite Hx. simpl. eexists _, _. split; [done|].
  apply extend_match_ge in Hx. destruct (Z.ltb_spec 0 x); lia.
Qed.

Lemma kasai_fuel fuel fuel' codes n s r l :
  kasai fuel codes n s r = Some l -> n < fuel' ->
  kasai fuel' codes n s r = Some l.
Proof.
  intros Hrun Hfuel.
  destruct (kasai_fold_total fuel' codes n s r n (replicate n 0%Z) 0%Z Hfuel
              ltac:(lia)) as [[l' h'] Hrun'].
  assert (kasai fuel' codes n s r = Some l') as Hk
    by (unfold kasai; by rewrite Hrun').
  pose proof (kasai_mono fuel (max fuel fuel') _ _ _ _ _ ltac:(lia) Hrun) as H1.
  pose proof (kasai_mono fuel' (max fuel fuel') _ _ _ _ _ ltac:(lia) Hk) as H2.
  congruence.
Qed.

(** ** Texts *)

Lemma length_text_codes sgn text :
  length (text_codes sgn text) = String.length text.
Proof.
  unfold text_codes. rewrite length_map.
  induction text; simpl; congruence.
Qed.

Lemma char_to_int_unsigned c : (0 <= char_to_int false c)%Z.
Proof. unfold char_to_int. simpl. lia. Qed.

Lemma nonneg_codes_unsigned text : nonneg_codes (text_codes false text).
Proof.
  unfold nonneg_codes, text_codes. apply Forall_fmap, Forall_true. intros c.
  apply char_to_int_unsigned.
Qed.

(** The function returns what some amount of fuel returns: the fixed
    fuel of [buildSuffixArrayAndLCP] loses nothing, for any text. *)
Lemma build_fuel_enough std_sort sgn fuel text x :
  sort_spec std_sort ->
  build_with_fuel std_sort sgn fuel text = Some x ->
  build_with_fuel std_sort sgn (S (String.length text)) text = Some x.
Proof.
  intros Hsort. unfold build_with_fuel.
  destruct (Nat.eqb_spec (String.length text) 0) as [|Hn]; [done|].
  set (n := String.length text) in *.
  set (codes := text_codes sgn text).
  assert (state_shape n (initial_state n codes)) as Hsh.
  { unfold n, codes. rewrite <- (length_text_codes sgn text).
    apply initial_state_shape. }
  assert (exists f', f' = S n) as (f' & Hf') by (by eexists).
  rewrite <- Hf'.
  destruct (doubling_loop std_sort fuel n _) as [[st k]|] eqn:E; [|done].
  simpl. destruct (kasai fuel codes n (st_sa st) (st_rank st)) as [l|] eqn:E';
    [|done].
  simpl. intros [= <-].
  assert (k <= f') as Hk.
  { destruct (doubling_loop_count std_sort Hsort n ltac:(lia) fuel _ _ _ Hsh
                ltac:(unfold initial_state; destruct (init_arrays n codes); simpl; lia)
                E) as [->|Hlt]; [lia|].
    pose proof (Nat.pow_gt_lin_r 2 (k - 1) ltac:(lia)).
    assert (st_gap (initial_state n codes) = 1) as Hg
      by (unfold initial_state; by destruct (init_arrays n codes)).
    rewrite Hg in Hlt. lia. }
  rewrite (doubling_loop_fuel std_sort n fuel f' _ _ _ E Hk). simpl.
  rewrite (kasai_fuel fuel f' _ _ _ _ _ E' ltac:(lia)). done.
Qed.

Lemma build_returns_iff std_sort sgn text res :
  sort_spec std_sort ->
  buildSuffixArrayAndLCP std_sort sgn text = Some res <->
  exists fuel k, build_with_fuel std_sort sgn fuel text = Some (res, k).
Proof.
  intros Hsort. unfold buildSuffixArrayAndLCP. split.
  - destruct (build_with_fuel std_sort sgn _ text) as [[res' k]|] eqn:E; [|done].
    simpl. intros [= <-]. by exists (S (String.length text)), k.
  - intros (fuel & k & Hrun).
    by rewrite (build_fuel_enough _ _ _ _ _ Hsort Hrun).
Qed.

(** ** The whole construction on a text of non-negative symbols *)

Section Correctness.
Variable std_sort : (nat -> nat -> bool) -> list nat -> list nat.
Hypothesis Hsort : sort_spec std_sort.
Variable sgn : bool.

Lemma build_empty fuel text :
  String.length text = 0 ->
  build_with_fuel std_sort sgn fuel text = Some (mkResult [] [], 0).
Proof. intros H. unfold build_with_fuel. by rewrite H. Qed.

Lemma build_nonempty text :
  let codes := text_codes sgn text in
  let n := String.length text in
  0 < n -> nonneg_codes codes ->
  exists SA LCP k,
    build_with_fuel std_sort sgn (S n) text = Some (mkResult SA LCP, k) /\
    1 <= k /\
    SA ≡ₚ seq 0 n /\
    (forall a b, a < b -> b < n ->
       lex_compare (suffix_at codes (SA !!! a)) (suffix_at codes (SA !!! b)) = Lt) /\
    length LCP = n /\
    LCP !!! 0 = 0%Z /\
    (forall a, 1 <= a -> a < n ->
       LCP !!! a = Z.of_nat (lcp_at codes (SA !!! (a - 1)) (SA !!! a))).
Proof.
  intros codes n Hn Hnn.
  assert (n = length codes) as Hlen by (symmetry; apply length_text_codes).
  unfold build_with_fuel. fold codes. fold n.
  destruct (Nat.eqb_spec n 0) as [|_]; [lia|].
  destruct (doubling_loop_terminates std_sort Hsort codes ltac:(lia) (S n)
              (initial_state (length codes) codes))
    as (st & k & Hrun & ((Hperm & Hlr & Hlt) & Hrank & Hsorted) & Hk).
  { by apply initial_state_inv. }
  { lia. }
  { rewrite initial_state_eq. simpl. rewrite <- Hlen.
    pose proof (Nat.pow_gt_lin_r 2 n ltac:(lia)). lia. }
  rewrite <- Hlen in *. rewrite Hrun. simpl.
  destruct (kasai_correct codes (st_sa st) (st_rank st)) with (fuel := S n)
    as (l & Hk1 & Hk2 & Hk3 & Hk4); try (rewrite <- Hlen); try done; try lia.
  rewrite <- Hlen in *. rewrite Hk1. simpl.
  exists (st_sa st), l, k. repeat split; try done; lia.
Qed.

End Correctness.

(** ** Running the model *)

(** With any conforming [std::sort] the function computes what it computes
    with insertion sort. *)
Lemma build_with_fuel_insertion std_sort sgn fuel text :
  sort_spec std_sort ->
  build_with_fuel std_sort sgn fuel text
  = build_with_fuel insertion_sort sgn fuel text.
Proof.
  intros Hsort.
  apply build_with_fuel_deterministic; [done|apply insertion_sort_spec].
Qed.

Lemma build_insertion std_sort sgn text :
  sort_spec std_sort ->
  buildSuffixArrayAndLCP std_sort sgn text
  = buildSuffixArrayAndLCP insertion_sort sgn text.
Proof.
  intros Hsort. unfold buildSuffixArrayAndLCP.
  by rewrite (build_with_fuel_insertion std_sort).
Qed.

Lemma doubling_iterations_insertion std_sort sgn text :
  sort_spec std_sort ->
  doubling_iterations std_sort sgn text
  = doubling_iterations insertion_sort sgn text.
Proof.
  intros Hsort. unfold doubling_iterations.
  by rewrite (build_with_fuel_insertion std_sort).
Qed.

(** The loop of the function is the loop that [loop_enters] describes. *)
Lemma doubling_loop_enters std_sort fuel n st0 st' k :
  doubling_loop std_sort fuel n st0 = Some (st', k) ->
  exists j st,
    k = S j /\ loop_enters std_sort n st0 j st /\
    st' = pass std_sort n st /\ all_ranked n st' = true.
Proof.
  assert (forall fuel j0 st1 st' k,
    loop_enters std_sort n st0 j0 st1 ->
    doubling_loop std_sort fuel n st1 = Some (st', k) ->
    exists j st,
      j0 + k = S j /\ loop_enters std_sort n st0 j st /\
      st' = pass std_sort n st /\ all_ranked n st' = true) as Hgen.
  { clear. intros fuel.
    induction fuel as [|fuel IH]; intros j0 st1 st' k Hent Hrun; [done|].
    simpl in Hrun. destruct (all_ranked n (pass std_sort n st1)) eqn:Hex.
    - injection Hrun as <- <-. exists j0, st1. split; [lia|done].
    - destruct (doubling_loop std_sort fuel n _) as [[st'' k']|] eqn:E; [|done].
      simpl in Hrun. injection Hrun as <- <-.
      destruct (IH (S j0) _ _ _ (enters_next _ _ _ _ _ Hent Hex) E)
        as (j & st & Hj & Hloop & Hst & Hfin).
      exists j, st. split; [lia|done]. }
  intros Hrun.
  destruct (Hgen fuel 0 st0 st' k (enters_first _ _ _) Hrun) as (j & st & ? & ?).
  exists j, st. split; [lia|done].
Qed.

(** Every state in which the body is entered has the right shape. *)
Lemma loop_enters_shape std_sort n st0 k st :
  sort_spec std_sort -> 0 < n -> state_shape n st0 ->
  loop_enters std_sort n st0 k st -> state_shape n st.
Proof.
  intros Hsort Hn Hsh0. induction 1 as [|k st Hent IH Hex]; [done|].
  apply double_gap_shape. by apply pass_shape.
Qed.

(** On a text of non-negative symbols it also satisfies the loop
    invariant; in particular every rank is above the sentinel [-1]. *)
Lemma loop_enters_inv std_sort codes k st :
  sort_spec std_sort -> 0 < length codes -> nonneg_codes codes ->
  loop_enters std_sort (length codes) (initial_state (length codes) codes) k st ->
  loop_inv codes st.
Proof.
  intros Hsort Hn Hnn. induction 1 as [|k st Hent IH Hex].
  - by apply initial_state_inv.
  - by apply pass_inv.
Qed.

Lemma sentinel_below_ranks_of_nonneg n st :
  (forall j, j < n -> (0 <= st_rank st !!! j)%Z) -> sentinel_below_ranks n st.
Proof.
  intros Hpos i j Hi Hend Hj. unfold next_rank.
  destruct (Nat.ltb_spec (i + st_gap st) n); [lia|].
  specialize (Hpos j Hj). lia.
Qed.

Lemma ending_suffix_first_of_sentinel n st :
  sentinel_below_ranks n st -> ending_suffix_first n st.
Proof.
  intros Hs i j Hi Hj Hend Hin Heq.
  specialize (Hs i (j + st_gap st) Hi Hend Hin).
  rewrite !compare_suffixes_key. split.
  - apply pair_ltb_true. unfold sort_key, next_rank in *. simpl.
    destruct (Nat.ltb_spec (i + st_gap st) n), (Nat.ltb_spec (j + st_gap st) n); lia.
  - apply pair_ltb_false. unfold sort_key, next_rank in *. simpl.
    destruct (Nat.ltb_spec (i + st_gap st) n), (Nat.ltb_spec (j + st_gap st) n); lia.
Qed.

(** ** The properties of the result, for a text of non-negative symbols

    These hold for every text where [char] is unsigned and for every 7-bit
    text where it is signed. *)

Section NonNegativeText.
Variable std_sort : (nat -> nat -> bool) -> list nat -> list nat.
Hypothesis Hsort : sort_spec std_sort.
Variables (sgn : bool) (text : string).
Let codes := text_codes sgn text.
Let n := String.length text.
Hypothesis Hnn : nonneg_codes codes.

Lemma build_result_nonneg :
  exists res,
    buildSuffixArrayAndLCP std_sort sgn text = Some res /\
    sa res ≡ₚ seq 0 n /\
    (forall a b, a < b -> b < n ->
       lex_compare (suffix_at codes (sa res !!! a))
                   (suffix_at codes (sa res !!! b)) = Lt) /\
    length (lcp res) = n /\
    (0 < n -> lcp res !!! 0 = 0%Z) /\
    (forall a, 1 <= a -> a < n ->
       lcp res !!! a
       = Z.of_nat (lcp_at codes (sa res !!! (a - 1)) (sa res !!! a))).
Proof.
  unfold buildSuffixArrayAndLCP.
  destruct (decide (n = 0)) as [Hz|Hz].
  - rewrite build_empty by done. simpl. eexists. split; [done|]. simpl.
    fold n. rewrite Hz. repeat split; try done; intros; lia.
  - destruct (build_nonempty std_sort Hsort sgn text ltac:(fold n; lia) Hnn)
      as (SA & LCP & k & -> & _ & H1 & H2 & H3 & H4 & H5).
    simpl. eexists. split; [done|]. simpl. repeat split; done.
Qed.

(** The same, in the words of the claims. *)
Lemma build_props_nonneg :
  exists res,
    buildSuffixArrayAndLCP std_sort sgn text = Some res /\
    permutation_of_positions n (sa res) /\
    suffixes_sorted codes (sa res) /\
    (0 < n ->
     lcp_exact codes (sa res) (lcp res) /\ lcp_bounded codes (sa res) (lcp res)).
Proof.
  destruct build_result_nonneg as (res & H & Hp & Hs & Hl & H0 & Hx).
  assert (length codes = n) as Hlen by apply length_text_codes.
  exists res. split; [done|]. split; [|split].
  - split; [by apply perm_seq_length|done].
  - intros i Hi1 Hi. apply lex_le_compare. rewrite Hlen in Hi.
    rewrite Hs by (done || lia). done.
  - intros Hn. split.
    + split; [by rewrite Hlen|]. split; [by apply H0|].
      intros i Hi1 Hi. rewrite Hlen in Hi. by apply Hx.
    + split.
      * intros i Hi. rewrite Hlen in Hi. destruct i as [|i]; [rewrite H0; lia|].
        rewrite Hx by lia. lia.
      * intros i Hi1 Hi. rewrite Hlen in *. rewrite Hx by lia.
        pose proof (lcp_at_le codes (sa res !!! (i - 1)) (sa res !!! i)) as [B1 B2].
        pose proof (perm_seq_lookup_lt (sa res) n (i - 1) Hp ltac:(lia)).
        pose proof (perm_seq_lookup_lt (sa res) n i Hp Hi).
        lia.
Qed.

(** The suffix array is a permutation of the positions. *)
Lemma sa_permutation_nonneg :
  exists res,
    buildSuffixArrayAndLCP std_sort sgn text = Some res /\
    permutation_of_positions n (sa res).
Proof. destruct build_props_nonneg as (res & H & Hp & _). by exists res. Qed.

(** Totality. *)
Theorem build_total_nonneg :
  exists res, buildSuffixArrayAndLCP std_sort sgn text = Some res.
Proof. destruct build_result_nonneg as (res & H & _). by exists res. Qed.

(** The suffix array lists the suffixes in lexicographic order. *)
Theorem sa_sorted_nonneg :
  exists res,
    buildSuffixArrayAndLCP std_sort sgn text = Some res /\
    suffixes_sorted codes (sa res).
Proof. destruct build_props_nonneg as (res & H & _ & Hs & _). by exists res. Qed.

(** The order is strict: no two suffixes are equal. *)
Theorem sa_strictly_sorted_nonneg :
  exists res,
    buildSuffixArrayAndLCP std_sort sgn text = Some res /\
    forall i j, i < j -> j < n ->
      lex_lt (suffix_at codes (sa res !!! i)) (suffix_at codes (sa res !!! j)) = true.
Proof.
  destruct build_result_nonneg as (res & H & _ & Hs & _). exists res.
  split; [done|]. intros i j Hij Hj. apply lex_lt_compare. by apply Hs.
Qed.

(** The LCP array is exact. *)
Theorem lcp_exact_nonneg :
  0 < n ->
  exists res,
    buildSuffixArrayAndLCP std_sort sgn text = Some res /\
    lcp_exact codes (sa res) (lcp res).
Proof.
  intros Hn. destruct build_props_nonneg as (res & H & _ & _ & Hx).
  exists res. split; [done|]. by apply Hx.
Qed.

(** The LCP values are within the length of the shorter suffix. *)
Theorem lcp_bounds_nonneg :
  0 < n ->
  exists res,
    buildSuffixArrayAndLCP std_sort sgn text = Some res /\
    lcp_bounded codes (sa res) (lcp res).
Proof.
  intros Hn. destruct build_props_nonneg as (res & H & _ & _ & Hx).
  exists res. split; [done|]. by apply Hx.
Qed.

(** In every iteration the sentinel is below every rank of the table, and
    a suffix that ends within the next [gap] symbols is put first. *)
Theorem sentinel_below_ranks_nonneg k st :
  loop_enters std_sort n (initial_state n codes) k st ->
  sentinel_below_ranks n st /\ ending_suffix_first n st.
Proof.
  intros Hent.
  assert (n = length codes) as Hlen by (symmetry; apply length_text_codes).
  assert (sentinel_below_ranks n st) as Hs.
  { apply sentinel_below_ranks_of_nonneg. intros j Hj.
    destruct (decide (0 < length codes)) as [Hpos|]; [|lia].
    rewrite Hlen in Hent.
    destruct (loop_enters_inv std_sort codes k st Hsort Hpos Hnn Hent)
      as (_ & _ & _ & Hr & _).
    apply Hr. lia. }
  split; [done|]. by apply ending_suffix_first_of_sentinel.
Qed.

End NonNegativeText.

(** ** What holds for every text, whatever the sign of [char] *)

Lemma doubling_loop_shape std_sort fuel n st0 st' k :
  sort_spec std_sort -> 0 < n -> state_shape n st0 ->
  doubling_loop std_sort fuel n st0 = Some (st', k) ->
  state_shape n st'.
Proof.
  intros Hsort Hn Hsh0 Hrun.
  destruct (doubling_loop_enters _ _ _ _ _ _ Hrun) as (j & st & _ & Hent & -> & _).
  apply pass_shape; [done..|]. by apply (loop_enters_shape std_sort n st0 j).
Qed.

Lemma build_returns_permutation std_sort sgn fuel text res k :
  sort_spec std_sort ->
  build_with_fuel std_sort sgn fuel text = Some (res, k) ->
  sa res ≡ₚ seq 0 (String.length text).
Proof.
  intros Hsort. unfold build_with_fuel.
  destruct (Nat.eqb_spec (String.length text) 0) as [Hz|Hz].
  - intros [= <- _]. by rewrite Hz.
  - destruct (doubling_loop std_sort fuel _ _) as [[st j]|] eqn:E; [|done]. simpl.
    destruct (kasai fuel _ _ _ _) as [l|]; [|done]. simpl. intros [= <- _]. simpl.
    eapply doubling_loop_shape in E as (Hp & _); [done|done|lia|].
    rewrite <- (length_text_codes sgn text). apply initial_state_shape.
Qed.

(** The shape of the LCP array does not rest on [SA] being sorted. *)
Lemma kasai_step_shape fuel codes n s r l h l' h' i :
  kasai_step fuel codes n s r (Some (l, h)) i = Some (l', h') ->
  (0 <= h)%Z -> Forall (fun x => (0 <= x)%Z) l ->
  length l' = length l /\ (0 <= h')%Z /\ Forall (fun x => (0 <= x)%Z) l' /\
  l' !!! 0 = l !!! 0.
Proof.
  unfold kasai_step. simpl. intros Hrun Hh Hl.
  destruct (Z.ltb_spec 0 (r !!! i)) as [Hpos|_].
  - destruct (extend_match fuel codes n i _ h) as [x|] eqn:E; [|done].
    simpl in Hrun. injection Hrun as <- <-.
    apply extend_match_ge in E.
    split; [by rewrite length_insert|]. split.
    { destruct (Z.ltb_spec 0 x); lia. }
    split.
    + apply Forall_insert; [done|lia].
    + apply list_lookup_total_insert_ne. lia.
  - injection Hrun as <- <-. done.
Qed.

Lemma kasai_shape fuel codes n s r l :
  kasai fuel codes n s r = Some l ->
  length l = n /\ Forall (fun x => (0 <= x)%Z) l /\ (0 < n -> l !!! 0 = 0%Z).
Proof.
  unfold kasai.
  assert (forall k l' h',
    fold_left (kasai_step fuel codes n s r) (seq 0 k) (Some (replicate n 0%Z, 0%Z))
    = Some (l', h') ->
    length l' = n /\ (0 <= h')%Z /\ Forall (fun x => (0 <= x)%Z) l' /\
    (0 < n -> l' !!! 0 = 0%Z)) as Hinv.
  { induction k as [|k IH]; intros l' h'.
    - simpl. intros [= <- <-]. split; [apply length_replicate|].
      split; [done|]. split.
      + apply Forall_replicate. lia.
      + intros Hn. by apply lookup_total_replicate_2.
    - rewrite seq_S, fold_left_app. simpl.
      destruct (fold_left _ (seq 0 k) _) as [[l1 h1]|] eqn:E; [|done].
      destruct (IH l1 h1 eq_refl) as (H1 & H2 & H3 & H4).
      intros Hstep.
      destruct (kasai_step_shape _ _ _ _ _ _ _ _ _ _ Hstep H2 H3)
        as (G1 & G2 & G3 & G4).
      split; [congruence|]. split; [done|]. split; [done|].
      intros Hn. rewrite G4. by apply H4. }
  destruct (fold_left _ (seq 0 n) _) as [[l' h']|] eqn:E; [|done].
  simpl. intros [= <-].
  destruct (Hinv n l' h' E) as (H1 & _ & H3 & H4). done.
Qed.

(** When [char] is signed the loop can spin for ever: on the text of the
    two bytes 0xFF both suffixes keep the key [(0, -1)]. *)
Lemma stuck_state_pass g :
  pass insertion_sort 2 (mkState (S (S g)) [0; 1] [0%Z; 0%Z] [0%Z; 0%Z])
  = mkState (S (S g)) [0; 1] [0%Z; 0%Z] [0%Z; 0%Z].
Proof. reflexivity. Qed.

Lemma stuck_state_loops fuel g :
  2 <= g ->
  doubling_loop insertion_sort fuel 2 (mkState g [0; 1] [0%Z; 0%Z] [0%Z; 0%Z]) = None.
Proof.
  revert g. induction fuel as [|fuel IH]; intros g Hg; [done|].
  destruct g as [|[|g]]; [lia|lia|].
  cbn [doubling_loop]. rewrite stuck_state_pass.
  change (all_ranked 2 _) with false. cbv iota.
  change (double_gap _) with (mkState (S (S g) * 2) [0; 1] [0%Z; 0%Z] [0%Z; 0%Z]).
  rewrite IH by lia. done.
Qed.

Lemma build_stuck_signed_char fuel :
  build_with_fuel insertion_sort true fuel (string_of_bytes [255; 255]) = None.
Proof.
  destruct fuel as [|fuel]; [done|].
  unfold build_with_fuel.
  change (String.length (string_of_bytes [255; 255])) with 2.
  change (initial_state 2 (text_codes true (string_of_bytes [255; 255])))
    with (mkState 1 [0; 1] [(-1)%Z; (-1)%Z] [0%Z; 0%Z]).
  cbn [Nat.eqb doubling_loop].
  change (pass insertion_sort 2 (mkState 1 [0; 1] [(-1)%Z; (-1)%Z] [0%Z; 0%Z]))
    with (mkState 1 [0; 1] [0%Z; 0%Z] [0%Z; 0%Z]).
  change (all_ranked 2 _) with false. cbv iota.
  change (double_gap _) with (mkState 2 [0; 1] [0%Z; 0%Z] [0%Z; 0%Z]).
  rewrite stuck_state_loops by lia. done.
Qed.

(** * The construction on an arbitrary text *)

(** ** Padded suffixes *)

Section Padded.
Variable codes : list Z.
Local Abbreviation n := (length codes).

Lemma length_padded_suffix i :
  length (padded_suffix codes i) = n - i + (if Nat.odd (n - i) then 1 else 0).
Proof.
  unfold padded_suffix. rewrite length_app, length_suffix_at.
  by destruct (Nat.odd (n - i)).
Qed.

Lemma padded_suffix_cons i :
  i < n ->
  padded_suffix codes i
  = codes !!! i :: suffix_at codes (S i)
      ++ (if Nat.odd (n - i) then [(-1)%Z] else []).
Proof. intros Hi. unfold padded_suffix. by rewrite suffix_at_cons. Qed.

(** The first pass compares the first two symbols of the padded
    suffixes. *)
Lemma padded_take_two i :
  i < n -> take 2 (padded_suffix codes i) = [codes !!! i; next_rank codes n 1 i].
Proof.
  intros Hi. rewrite padded_suffix_cons by done. unfold next_rank.
  destruct (Nat.ltb_spec (i + 1) n) as [Hlt|Hge].
  - rewrite (suffix_at_cons codes (S i)) by lia. simpl.
    by replace (i + 1) with (S i) by lia.
  - rewrite suffix_at_nil by lia.
    replace (n - i) with 1 by lia. done.
Qed.

(** Dropping an even number of symbols from a padded suffix gives the
    padded suffix that many positions further on. *)
Lemma padded_drop g i :
  Nat.even g = true -> i + g < n ->
  drop g (padded_suffix codes i) = padded_suffix codes (i + g).
Proof.
  intros Hg Hi. unfold padded_suffix, suffix_at.
  rewrite drop_app_le by (rewrite length_drop; lia).
  rewrite drop_drop. f_equal.
  replace (n - i) with (n - (i + g) + g) by lia.
  rewrite Nat.odd_add, <- (Nat.negb_even g), Hg. simpl.
  by rewrite xorb_false_r.
Qed.

Lemma padded_short g i :
  Nat.even g = true -> n <= i + g -> length (padded_suffix codes i) <= g.
Proof.
  intros Hg Hi. rewrite length_padded_suffix.
  destruct (Nat.odd (n - i)) eqn:Hodd; [|lia].
  destruct (decide (n - i = g)) as [Heq|]; [|lia].
  rewrite Heq, <- Nat.negb_even, Hg in Hodd. done.
Qed.

Lemma padded_nonempty i : i < n -> 0 < length (padded_suffix codes i).
Proof. intros Hi. rewrite length_padded_suffix. lia. Qed.

Lemma first_pass_key_compare i j :
  i < n -> j < n ->
  pair_compare (sort_key codes n 1 i) (sort_key codes n 1 j)
  = lex_compare (take 2 (padded_suffix codes i)) (take 2 (padded_suffix codes j)).
Proof.
  intros Hi Hj. rewrite !padded_take_two by done.
  unfold pair_compare, sort_key. simpl.
  destruct (codes !!! i ?= codes !!! j)%Z; try done.
  by destruct (_ ?= _)%Z.
Qed.

(** The doubling step on padded suffixes. *)
Lemma padded_compare_double g i j :
  Nat.even g = true ->
  lex_compare (take (g + g) (padded_suffix codes i))
              (take (g + g) (padded_suffix codes j))
  = match lex_compare (take g (padded_suffix codes i))
                      (take g (padded_suffix codes j)) with
    | Eq => lex_compare (take g (drop g (padded_suffix codes i)))
                        (take g (drop g (padded_suffix codes j)))
    | c => c
    end.
Proof.
  intros Hg. rewrite <- !(take_take_drop _ g g).
  apply lex_compare_app; rewrite !length_take; intros Hlen.
  - rewrite drop_ge by lia. by rewrite take_nil.
  - rewrite drop_ge by lia. by rewrite take_nil.
Qed.

Lemma padded_key_compare g r i j :
  0 < g -> Nat.even g = true -> ranks_order_padded codes g r ->
  i < n -> j < n ->
  pair_compare (sort_key r n g i) (sort_key r n g j)
  = lex_compare (take (g + g) (padded_suffix codes i))
                (take (g + g) (padded_suffix codes j)).
Proof.
  intros Hg Heven (Hlen & Hpos & Hord) Hi Hj.
  unfold pair_compare, sort_key. simpl.
  rewrite padded_compare_double by done. rewrite (Hord i j Hi Hj).
  destruct (lex_compare (take g (padded_suffix codes i)) _); try done.
  unfold next_rank.
  destruct (Nat.ltb_spec (i + g) n) as [Hi'|Hi'],
           (Nat.ltb_spec (j + g) n) as [Hj'|Hj'].
  - rewrite !padded_drop by done. by apply Hord.
  - rewrite (padded_drop g i) by done.
    rewrite (drop_ge (padded_suffix codes j)) by (by apply padded_short).
    pose proof (padded_nonempty (i + g) Hi') as Hne.
    destruct (padded_suffix codes (i + g)) as [|x l]; [simpl in Hne; lia|].
    destruct g; [lia|]. cbn [take lex_compare].
    specialize (Hpos (i + S g) Hi'). apply Z.compare_gt_iff. lia.
  - rewrite (padded_drop g j) by done.
    rewrite (drop_ge (padded_suffix codes i)) by (by apply padded_short).
    pose proof (padded_nonempty (j + g) Hj') as Hne.
    destruct (padded_suffix codes (j + g)) as [|x l]; [simpl in Hne; lia|].
    destruct g; [lia|]. cbn [take lex_compare].
    specialize (Hpos (j + S g) Hj'). apply Z.compare_lt_iff. lia.
  - rewrite (drop_ge (padded_suffix codes i)), (drop_ge (padded_suffix codes j))
      by (by apply padded_short).
    by rewrite take_nil.
Qed.

(** Two padded suffixes are equal only for the last two positions of a text
    that ends with two symbols [-1]. *)
Lemma padded_suffix_inj i j :
  ends_with_sentinel_pair codes = false ->
  i < n -> j < n -> padded_suffix codes i = padded_suffix codes j -> i = j.
Proof.
  assert (forall i j, i < j -> j < n ->
            padded_suffix codes i = padded_suffix codes j ->
            ends_with_sentinel_pair codes = true) as Hlt.
  { clear. intros i j Hij Hj Heq.
    pose proof (f_equal length Heq) as Hlen.
    rewrite !length_padded_suffix in Hlen.
    destruct (Nat.odd (n - i)) eqn:Hoi, (Nat.odd (n - j)) eqn:Hoj; try lia.
    assert (j = S i) as -> by lia.
    unfold padded_suffix in Heq. rewrite Hoi, Hoj, app_nil_r in Heq.
    assert (2 <= n - i) as Hge.
    { destruct (n - i) as [|[|m]] eqn:E; [lia| |lia]. done. }
    unfold suffix_at in Heq.
    assert (forall d, d < n - i ->
              codes !!! (i + d) = (drop (S i) codes ++ [(-1)%Z]) !!! d) as Hd.
    { intros d Hd. rewrite <- Heq. rewrite lookup_total_drop. done. }
    pose proof (Hd (n - i - 1) ltac:(lia)) as Hlast.
    pose proof (Hd (n - i - 2) ltac:(lia)) as Hprev.
    rewrite lookup_total_app_r in Hlast by (rewrite length_drop; lia).
    rewrite length_drop in Hlast.
    replace (n - i - 1 - (n - S i)) with 0 in Hlast by lia. simpl in Hlast.
    rewrite lookup_total_app_l in Hprev by (rewrite length_drop; lia).
    rewrite lookup_total_drop in Hprev.
    replace (i + (n - i - 1)) with (n - 1) in Hlast by lia.
    replace (i + (n - i - 2)) with (n - 2) in Hprev by lia.
    replace (S i + (n - i - 2)) with (n - 1) in Hprev by lia.
    unfold ends_with_sentinel_pair.
    cbv zeta. rewrite Hprev, Hlast.
    destruct (Nat.leb_spec 2 n); [done|lia]. }
  intros Hends Hi Hj Heq.
  destruct (Nat.lt_trichotomy i j) as [H|[H|H]]; [|done|].
  - rewrite (Hlt i j H Hj Heq) in Hends. done.
  - rewrite (Hlt j i H Hi (eq_sym Heq)) in Hends. done.
Qed.

(** The state the loop starts from on a text that ends with two symbols
    [-1]. *)
Lemma initial_last_pair_tied :
  ends_with_sentinel_pair codes = true ->
  2 <= n /\ last_pair_tied n (initial_state n codes).
Proof.
  unfold ends_with_sentinel_pair. cbv zeta. intros H.
  apply andb_prop in H as [H H2]. apply andb_prop in H as [H0 H1].
  apply Nat.leb_le in H0. apply Z.eqb_eq in H1, H2.
  split; [done|]. rewrite initial_state_eq.
  unfold last_pair_tied, sort_key, next_rank. simpl.
  destruct (Nat.ltb_spec (n - 2 + 1) n); [|lia].
  destruct (Nat.ltb_spec (n - 1 + 1) n); [lia|].
  replace (n - 2 + 1) with (n - 1) by lia. by rewrite H1, H2.
Qed.

End Padded.

(** ** The doubling loop on any text *)

Section PaddedDoubling.
Variable std_sort : (nat -> nat -> bool) -> list nat -> list nat.
Hypothesis Hsort : sort_spec std_sort.
Variable codes : list Z.
Local Abbreviation n := (length codes).
Hypothesis Hn : 0 < n.

Lemma initial_state_padded_inv : padded_inv codes (initial_state n codes).
Proof.
  split; [apply initial_state_shape|]. left. by rewrite initial_state_eq.
Qed.

Lemma padded_inv_gap st : padded_inv codes st -> 0 < st_gap st.
Proof. intros (_ & [[-> _]|(Hg & _)]); lia. Qed.

(** The keys of a pass compare as the first [2 * gap] symbols of the
    padded suffixes. *)
Lemma pass_key_padded st i j :
  padded_inv codes st -> i < n -> j < n ->
  pair_compare (sort_key (st_rank st) n (st_gap st) i)
               (sort_key (st_rank st) n (st_gap st) j)
  = lex_compare (take (st_gap st + st_gap st) (padded_suffix codes i))
                (take (st_gap st + st_gap st) (padded_suffix codes j)).
Proof.
  intros (Hshape & [[Hg Hr]|(Hg & Hev & Hord)]) Hi Hj.
  - rewrite Hg, Hr. by apply first_pass_key_compare.
  - by apply padded_key_compare.
Qed.

Lemma pass_ranks_padded st :
  padded_inv codes st ->
  ranks_order_padded codes (st_gap st + st_gap st)
    (st_rank (pass std_sort n st)).
Proof.
  intros Hinv. pose proof Hinv as (Hshape & _).
  destruct (pass_shape std_sort Hsort n st Hn Hshape)
    as ((Hperm & Hlr & Hlt) & Hgap & Htemp & Hsorted & Hsteps).
  split; [done|]. split.
  - intros i Hi.
    by apply (ranks_nonneg (sort_key (st_rank st) n (st_gap st)) n _ _
                Hsteps Hperm).
  - intros i j Hi Hj.
    rewrite (ranks_order_keys (sort_key (st_rank st) n (st_gap st)) n _ _
               Hsteps Hperm Hsorted) by done.
    by apply pass_key_padded.
Qed.

Lemma pass_padded_inv st :
  padded_inv codes st -> padded_inv codes (double_gap (pass std_sort n st)).
Proof.
  intros Hinv. pose proof Hinv as (Hshape & _).
  pose proof (padded_inv_gap st Hinv) as Hg.
  destruct (pass_shape std_sort Hsort n st Hn Hshape) as (Hshape' & Hgap & _).
  split; [by apply double_gap_shape|]. right. simpl.
  split; [lia|]. split.
  - rewrite Nat.even_mul. simpl. apply orb_true_r.
  - replace (st_gap st * 2) with (st_gap st + st_gap st) by lia.
    by apply pass_ranks_padded.
Qed.

Lemma loop_enters_padded_inv k st :
  loop_enters std_sort n (initial_state n codes) k st -> padded_inv codes st.
Proof.
  induction 1 as [|k st Hent IH Hex].
  - apply initial_state_padded_inv.
  - by apply pass_padded_inv.
Qed.

(** Unless the text ends with two symbols [-1], the exit test holds once
    [2 * gap] exceeds [n]. *)
Lemma pass_exits_padded st :
  padded_inv codes st -> ends_with_sentinel_pair codes = false ->
  n + 1 <= st_gap st * 2 ->
  all_ranked n (pass std_sort n st) = true.
Proof.
  intros Hinv Hends Hbig. pose proof Hinv as (Hshape & _).
  destruct (pass_shape std_sort Hsort n st Hn Hshape)
    as ((Hperm & Hlr & Hlt) & Hgap & Htemp & Hsorted & Hsteps).
  unfold all_ranked. apply Z.eqb_eq.
  rewrite (rank_steps_strict _ _ _ _ Hsteps); [lia| |lia].
  intros i Hi.
  assert (st_sa (pass std_sort n st) !!! (i - 1) < n) as H1
    by (apply (perm_seq_lookup_lt _ n); [done|lia]).
  assert (st_sa (pass std_sort n st) !!! i < n) as H2
    by (apply (perm_seq_lookup_lt _ n); [done|lia]).
  rewrite compare_suffixes_key, pair_ltb_compare.
  pose proof (sorted_key_not_gt (sort_key (st_rank st) n (st_gap st)) n _
                Hperm Hsorted (i - 1) i ltac:(lia) ltac:(lia)) as Hle.
  rewrite pass_key_padded in * by done.
  destruct (lex_compare _ _) eqn:E; [|done|done].
  rewrite !take_ge in E by (rewrite length_padded_suffix;
                            destruct (Nat.odd _); lia).
  apply lex_compare_eq, padded_suffix_inj in E; [|done..].
  apply NoDup_lookup_total_inj in E;
    [lia|by apply (perm_seq_NoDup _ n)
        |rewrite (perm_seq_length _ n); [lia|done]
        |rewrite (perm_seq_length _ n); [lia|done]].
Qed.

(** At the [break] the suffix array is sorted by padded suffixes. *)
Lemma pass_final_padded st a b :
  padded_inv codes st -> all_ranked n (pass std_sort n st) = true ->
  a < b -> b < n ->
  lex_compare (padded_suffix codes (st_sa (pass std_sort n st) !!! a))
              (padded_suffix codes (st_sa (pass std_sort n st) !!! b)) = Lt.
Proof.
  intros Hinv Hex Hab Hb. pose proof Hinv as (Hshape & _).
  pose proof (pass_ranks_padded st Hinv) as (_ & _ & Hord').
  destruct (pass_shape std_sort Hsort n st Hn Hshape) as (Hshape' & _).
  pose proof Hshape' as (Hperm & _).
  apply (lex_compare_take_lt (st_gap st + st_gap st)).
  rewrite <- Hord' by (apply (perm_seq_lookup_lt _ n); [done|lia]).
  rewrite !(pass_all_ranked std_sort Hsort) by (done || lia).
  apply Z.compare_lt_iff. lia.
Qed.

Lemma doubling_loop_terminates_padded fuel st :
  padded_inv codes st -> ends_with_sentinel_pair codes = false ->
  0 < fuel -> n + 1 <= st_gap st * 2 ^ fuel ->
  exists st' k, doubling_loop std_sort fuel n st = Some (st', k).
Proof.
  intros Hinv Hends. revert st Hinv.
  induction fuel as [|fuel IH]; intros st Hinv Hf Hbig; [lia|].
  simpl. destruct (all_ranked n (pass std_sort n st)) eqn:Hex.
  - by eexists _, _.
  - assert (st_gap st * 2 < n + 1) as Hsmall.
    { destruct (decide (n + 1 <= st_gap st * 2)) as [Hle|]; [|lia].
      rewrite pass_exits_padded in Hex; done. }
    assert (0 < fuel) as Hf'.
    { destruct fuel; [simpl in Hbig; lia|lia]. }
    destruct (IH (double_gap (pass std_sort n st))) as (st' & k & Hrun).
    + by apply pass_padded_inv.
    + done.
    + simpl. rewrite Nat.pow_succ_r' in Hbig. lia.
    + rewrite Hrun. simpl. by eexists _, _.
Qed.

(** *** A text that ends with two symbols [-1] *)

Lemma pass_keeps_tie st :
  state_shape n st -> 2 <= n -> last_pair_tied n st ->
  st_rank (pass std_sort n st) !!! (n - 2)
  = st_rank (pass std_sort n st) !!! (n - 1).
Proof.
  intros Hshape H2 Htie.
  destruct (pass_shape std_sort Hsort n st Hn Hshape)
    as ((Hperm & Hlr & Hlt) & Hgap & Htemp & Hsorted & Hsteps).
  apply Z.compare_eq.
  rewrite (ranks_order_keys (sort_key (st_rank st) n (st_gap st)) n _ _
             Hsteps Hperm Hsorted) by lia.
  unfold last_pair_tied in Htie. rewrite Htie. apply pair_compare_refl.
Qed.

Lemma pass_tied_no_exit st :
  state_shape n st -> 2 <= n -> last_pair_tied n st ->
  all_ranked n (pass std_sort n st) = false.
Proof.
  intros Hshape H2 Htie.
  destruct (all_ranked n (pass std_sort n st)) eqn:Hex; [|done].
  pose proof (pass_keeps_tie st Hshape H2 Htie) as Heq.
  destruct (pass_shape std_sort Hsort n st Hn Hshape) as ((Hperm & _) & _).
  destruct (perm_seq_position _ n (n - 2) Hperm ltac:(lia)) as (a & Ha & Hsa).
  destruct (perm_seq_position _ n (n - 1) Hperm ltac:(lia)) as (b & Hb & Hsb).
  rewrite <- Hsa, <- Hsb in Heq.
  rewrite !(pass_all_ranked std_sort Hsort) in Heq by done.
  assert (a = b) as -> by lia. lia.
Qed.

Lemma pass_tied_again st :
  state_shape n st -> 2 <= n -> 0 < st_gap st -> last_pair_tied n st ->
  last_pair_tied n (double_gap (pass std_sort n st)).
Proof.
  intros Hshape H2 Hg Htie.
  pose proof (pass_keeps_tie st Hshape H2 Htie) as Heq.
  destruct (pass_shape std_sort Hsort n st Hn Hshape) as (_ & Hgap & _).
  unfold last_pair_tied, sort_key, next_rank.
  cbn [st_gap st_rank double_gap]. rewrite Hgap, Heq.
  destruct (Nat.ltb_spec (n - 2 + st_gap st * 2) n); [lia|].
  destruct (Nat.ltb_spec (n - 1 + st_gap st * 2) n); [lia|]. done.
Qed.

Lemma tied_diverges fuel st :
  state_shape n st -> 2 <= n -> 0 < st_gap st -> last_pair_tied n st ->
  doubling_loop std_sort fuel n st = None.
Proof.
  revert st. induction fuel as [|fuel IH]; intros st Hshape H2 Hg Htie; [done|].
  cbn [doubling_loop]. rewrite pass_tied_no_exit by done.
  rewrite IH; [done| | | |].
  - apply double_gap_shape. by apply pass_shape.
  - done.
  - cbn [st_gap double_gap].
    destruct (pass_shape std_sort Hsort n st Hn Hshape) as (_ & -> & _). lia.
  - by apply pass_tied_again.
Qed.

End PaddedDoubling.

(** ** The whole function on any text *)

Lemma char_to_int_sentinel sgn c :
  char_to_int sgn c = (-1)%Z <-> sgn = true /\ c = ascii_of_nat 255.
Proof.
  unfold char_to_int. pose proof (nat_ascii_bounded c) as Hb. split.
  - intros H. destruct sgn; simpl in H; [|lia].
    destruct (Z.leb_spec 128 (Z.of_nat (nat_of_ascii c))); [|lia].
    split; [done|]. rewrite <- (ascii_nat_embedding c). f_equal. lia.
  - intros [-> ->]. done.
Qed.

Lemma build_returns_padded std_sort sgn text :
  sort_spec std_sort ->
  ends_with_sentinel_pair (text_codes sgn text) = false ->
  exists res, buildSuffixArrayAndLCP std_sort sgn text = Some res.
Proof.
  intros Hsort Hends. unfold buildSuffixArrayAndLCP, build_with_fuel.
  destruct (Nat.eqb_spec (String.length text) 0) as [|Hn]; [by eexists|].
  set (codes := text_codes sgn text) in *.
  assert (String.length text = length codes) as Hlen
    by (symmetry; apply length_text_codes).
  rewrite Hlen in *.
  destruct (doubling_loop_terminates_padded std_sort Hsort codes ltac:(lia)
              (S (length codes)) (initial_state (length codes) codes))
    as (st & k & Hrun).
  { by apply initial_state_padded_inv. }
  { done. }
  { lia. }
  { rewrite initial_state_eq. cbn [st_gap].
    pose proof (Nat.pow_gt_lin_r 2 (S (length codes)) ltac:(lia)). lia. }
  rewrite Hrun. simpl.
  destruct (kasai_fold_total (S (length codes)) codes (length codes) (st_sa st)
              (st_rank st) (length codes) (replicate (length codes) 0%Z) 0%Z
              ltac:(lia) ltac:(lia)) as [[l h] Hk].
  unfold kasai. rewrite Hk. simpl. by eexists.
Qed.

Lemma build_diverges_sentinel_pair std_sort sgn text fuel :
  sort_spec std_sort ->
  ends_with_sentinel_pair (text_codes sgn text) = true ->
  build_with_fuel std_sort sgn fuel text = None.
Proof.
  intros Hsort Hends. unfold build_with_fuel.
  set (codes := text_codes sgn text) in *.
  assert (String.length text = length codes) as Hlen
    by (symmetry; apply length_text_codes).
  rewrite Hlen.
  destruct (initial_last_pair_tied codes Hends) as [H2 Htie].
  destruct (Nat.eqb_spec (length codes) 0) as [|Hn]; [lia|].
  rewrite (tied_diverges std_sort Hsort codes ltac:(lia)); [done| |done| |done].
  - apply initial_state_shape.
  - rewrite initial_state_eq. simpl. lia.
Qed.

Lemma build_sorted_padded std_sort sgn text res a b :
  sort_spec std_sort ->
  buildSuffixArrayAndLCP std_sort sgn text = Some res ->
  a < b -> b < String.length text ->
  lex_compare (padded_suffix (text_codes sgn text) (sa res !!! a))
              (padded_suffix (text_codes sgn text) (sa res !!! b)) = Lt.
Proof.
  intros Hsort Hrun Hab Hb.
  unfold buildSuffixArrayAndLCP, build_with_fuel in Hrun.
  set (codes := text_codes sgn text) in *.
  assert (String.length text = length codes) as Hlen
    by (symmetry; apply length_text_codes).
  rewrite Hlen in *.
  destruct (Nat.eqb_spec (length codes) 0) as [|Hn]; [lia|].
  destruct (doubling_loop _ _ _ _) as [[st k]|] eqn:E; [|done].
  simpl in Hrun. destruct (kasai _ _ _ _ _) as [l|]; [|done].
  simpl in Hrun. injection Hrun as <-. simpl.
  destruct (doubling_loop_enters _ _ _ _ _ _ E) as (j & st1 & _ & Hent & -> & Hex).
  apply (pass_final_padded std_sort Hsort codes ltac:(lia)); try done.
  by apply (loop_enters_padded_inv std_sort Hsort codes ltac:(lia) j).
Qed.

(** ** The exit test and the rank table of a pass *)

Section PassRanks.
Variable std_sort : (nat -> nat -> bool) -> list nat -> list nat.
Hypothesis Hsort : sort_spec std_sort.
Variables (n : nat) (st : loop_state).
Hypothesis Hn : 0 < n.
Hypothesis Hshape : state_shape n st.

Lemma pass_rank_compare i j :
  i < n -> j < n ->
  (st_rank (pass std_sort n st) !!! i ?= st_rank (pass std_sort n st) !!! j)%Z
  = pair_compare (sort_key (st_rank st) n (st_gap st) i)
                 (sort_key (st_rank st) n (st_gap st) j).
Proof.
  intros Hi Hj.
  destruct (pass_shape std_sort Hsort n st Hn Hshape)
    as ((Hperm & Hlr & Hlt) & Hgap & Htemp & Hsorted & Hsteps).
  by apply (ranks_order_keys (sort_key (st_rank st) n (st_gap st)) n _ _
              Hsteps Hperm Hsorted).
Qed.

Lemma pass_rank_dense i (v : Z) :
  i < n -> (0 <= v <= st_rank (pass std_sort n st) !!! i)%Z ->
  exists p, p < n /\ st_rank (pass std_sort n st) !!! p = v.
Proof.
  intros Hi Hv.
  destruct (pass_shape std_sort Hsort n st Hn Hshape)
    as ((Hperm & Hlr & Hlt) & Hgap & Htemp & Hsorted & Hsteps).
  destruct (perm_seq_position _ n i Hperm Hi) as (a & Ha & Hsa).
  rewrite <- Hsa in Hv.
  destruct (rank_steps_interval _ _ _ _ a v Hsteps Ha Hv) as (c & Hc & Hcv).
  exists (st_sa (pass std_sort n st) !!! c). split; [|done].
  apply (perm_seq_lookup_lt _ n); [done|lia].
Qed.

Lemma pass_rank_bounds i :
  i < n -> (0 <= st_rank (pass std_sort n st) !!! i <= Z.of_nat n - 1)%Z.
Proof.
  intros Hi.
  destruct (pass_shape std_sort Hsort n st Hn Hshape)
    as ((Hperm & Hlr & Hlt) & Hgap & Htemp & Hsorted & Hsteps).
  destruct (perm_seq_position _ n i Hperm Hi) as (a & Ha & <-).
  pose proof (rank_steps_nonneg _ _ _ _ Hsteps a Ha).
  pose proof (rank_steps_le _ _ _ _ Hsteps a Ha). lia.
Qed.

Lemma exit_ranks_distinct i j :
  all_ranked n (pass std_sort n st) = true -> i < n -> j < n ->
  st_rank (pass std_sort n st) !!! i = st_rank (pass std_sort n st) !!! j ->
  i = j.
Proof.
  intros Hex Hi Hj Heq.
  destruct (pass_shape std_sort Hsort n st Hn Hshape) as ((Hperm & _) & _).
  destruct (perm_seq_position _ n i Hperm Hi) as (a & Ha & Hsa).
  destruct (perm_seq_position _ n j Hperm Hj) as (b & Hb & Hsb).
  rewrite <- Hsa, <- Hsb in Heq.
  rewrite !(pass_all_ranked std_sort Hsort) in Heq by done.
  assert (a = b) as -> by lia. by rewrite <- Hsa, <- Hsb.
Qed.

Lemma distinct_ranks_exit :
  (forall i j, i < n -> j < n ->
     st_rank (pass std_sort n st) !!! i = st_rank (pass std_sort n st) !!! j ->
     i = j) ->
  all_ranked n (pass std_sort n st) = true.
Proof.
  intros Hinj.
  destruct (pass_shape std_sort Hsort n st Hn Hshape)
    as ((Hperm & Hlr & Hlt) & Hgap & Htemp & Hsorted & Hsteps).
  unfold all_ranked. apply Z.eqb_eq.
  rewrite (rank_steps_strict _ _ _ _ Hsteps); [lia| |lia].
  intros i Hi.
  destruct (compare_suffixes _ _ _ _ _) eqn:E; [done|].
  destruct Hsteps as [_ Hrec]. specialize (Hrec i Hi). rewrite E, Z.add_0_r in Hrec.
  apply Hinj in Hrec;
    [|apply (perm_seq_lookup_lt _ n); [done|lia]..].
  apply NoDup_lookup_total_inj in Hrec;
    [lia|by apply (perm_seq_NoDup _ n)
        |rewrite (perm_seq_length _ n); [lia|done]
        |rewrite (perm_seq_length _ n); [lia|done]].
Qed.

End PassRanks.

(** ** Uniqueness of the sorted order *)

Lemma index_sorted_StronglySorted (R : nat -> nat -> Prop) (l : list nat) :
  (forall a b, a < b -> b < length l -> R (l !!! a) (l !!! b)) ->
  StronglySorted R l.
Proof.
  induction l as [|x l IH]; intros H; constructor.
  - apply IH. intros a b Hab Hb. apply (H (S a) (S b)); simpl; lia.
  - apply Forall_forall. intros y Hy.
    apply list_elem_of_lookup_total in Hy as (i & Hi & <-).
    apply (H 0 (S i)); simpl; lia.
Qed.

Section SortedUnique.
Variable codes : list Z.
Local Abbreviation n := (length codes).

Lemma suffix_at_inj i j :
  i < n -> j < n -> suffix_at codes i = suffix_at codes j -> i = j.
Proof.
  intros Hi Hj Heq. apply (f_equal length) in Heq.
  rewrite !length_suffix_at in Heq. lia.
Qed.

(** Neighbours in order and no position twice: strictly increasing. *)
Lemma sorted_strict (p : list nat) a b :
  p ≡ₚ seq 0 n -> suffixes_sorted codes p -> a < b -> b < n ->
  lex_compare (suffix_at codes (p !!! a)) (suffix_at codes (p !!! b)) = Lt.
Proof.
  intros Hperm Hs Hab Hb.
  assert (forall b, a <= b -> b < n ->
            lex_compare (suffix_at codes (p !!! a)) (suffix_at codes (p !!! b)) <> Gt)
    as Hle.
  { clear b Hab Hb. intros b. induction b as [|b IH]; intros Hab Hb.
    - replace a with 0 by lia. by rewrite lex_compare_refl.
    - destruct (decide (a = S b)) as [->|Hne]; [by rewrite lex_compare_refl|].
      apply (lex_compare_not_gt_trans _ (suffix_at codes (p !!! b))).
      + apply IH; lia.
      + apply lex_le_compare. specialize (Hs (S b) ltac:(lia) Hb).
        by replace (S b - 1) with b in Hs by lia. }
  specialize (Hle b ltac:(lia) Hb).
  destruct (lex_compare _ _) eqn:E; [|done|done].
  apply lex_compare_eq, suffix_at_inj in E;
    [|apply (perm_seq_lookup_lt _ n); [done|lia]..].
  apply NoDup_lookup_total_inj in E;
    [lia|by apply (perm_seq_NoDup _ n)
        |rewrite (perm_seq_length _ n); [lia|done]
        |rewrite (perm_seq_length _ n); [lia|done]].
Qed.

Lemma strictly_sorted_unique (s1 s2 : list nat) :
  s1 ≡ₚ seq 0 n -> s2 ≡ₚ seq 0 n ->
  (forall a b, a < b -> b < n ->
     lex_compare (suffix_at codes (s1 !!! a)) (suffix_at codes (s1 !!! b)) = Lt) ->
  (forall a b, a < b -> b < n ->
     lex_compare (suffix_at codes (s2 !!! a)) (suffix_at codes (s2 !!! b)) = Lt) ->
  s1 = s2.
Proof.
  intros Hp1 Hp2 H1 H2.
  apply (StronglySorted_unique_strong
           (fun x y => lex_compare (suffix_at codes x) (suffix_at codes y) = Lt)).
  - intros x y _ _ Hxy Hyx. rewrite lex_compare_antisym, Hxy in Hyx. done.
  - apply index_sorted_StronglySorted. intros a b Hab Hb.
    apply H1; [done|]. by rewrite <- (perm_seq_length s1 n).
  - apply index_sorted_StronglySorted. intros a b Hab Hb.
    apply H2; [done|]. by rewrite <- (perm_seq_length s2 n).
  - by rewrite Hp1, Hp2.
Qed.

End SortedUnique.

(** ** The reference construction *)

Lemma lex_lt_match a b :
  lex_lt a b = match lex_compare a b with Lt => true | _ => false end.
Proof.
  pose proof (lex_lt_compare a b) as H.
  destruct (lex_lt a b), (lex_compare a b); try done.
  - by destruct H as [H _]; specialize (H eq_refl).
  - by destruct H as [H _]; specialize (H eq_refl).
  - by destruct H as [_ H]; specialize (H eq_refl).
Qed.

Lemma suffix_ltb_swo codes : strict_weak_order (suffix_ltb codes).
Proof.
  unfold suffix_ltb. split.
  - intros x. by rewrite lex_lt_match, lex_compare_refl.
  - intros x y z. rewrite !lex_lt_match.
    destruct (lex_compare (suffix_at codes x) (suffix_at codes y)) eqn:E1; try done.
    destruct (lex_compare (suffix_at codes y) (suffix_at codes z)) eqn:E2; try done.
    by rewrite (lex_compare_lt_trans _ _ _ E1 E2).
  - intros x y z. rewrite !lex_lt_match.
    rewrite (lex_compare_antisym (suffix_at codes x) (suffix_at codes y)).
    rewrite (lex_compare_antisym (suffix_at codes y) (suffix_at codes z)).
    rewrite (lex_compare_antisym (suffix_at codes x) (suffix_at codes z)).
    destruct (lex_compare (suffix_at codes x) (suffix_at codes y)) eqn:E1; try done.
    destruct (lex_compare (suffix_at codes y) (suffix_at codes z)) eqn:E2; try done.
    apply lex_compare_eq in E1, E2. rewrite E1, E2, lex_compare_refl. done.
Qed.

Lemma naive_suffix_array_perm codes :
  naive_suffix_array codes ≡ₚ seq 0 (length codes).
Proof. apply insertion_sort_perm. Qed.

Lemma naive_suffix_array_sorted codes a b :
  a < b -> b < length codes ->
  lex_compare (suffix_at codes (naive_suffix_array codes !!! a))
              (suffix_at codes (naive_suffix_array codes !!! b)) = Lt.
Proof.
  intros Hab Hb.
  pose proof (naive_suffix_array_perm codes) as Hperm.
  destruct (insertion_sort_spec (suffix_ltb codes) (seq 0 (length codes))
              (suffix_ltb_swo codes)) as [_ Hs].
  fold (naive_suffix_array codes) in Hs.
  specialize (Hs a b Hab). rewrite (perm_seq_length _ _ Hperm) in Hs.
  specialize (Hs Hb). unfold suffix_ltb in Hs.
  rewrite lex_lt_match, lex_compare_antisym in Hs.
  destruct (lex_compare _ _) eqn:E; [|done|done].
  apply lex_compare_eq, suffix_at_inj in E;
    [|apply (perm_seq_lookup_lt _ (length codes)); [done|lia]..].
  apply NoDup_lookup_total_inj in E;
    [lia|by apply (perm_seq_NoDup _ (length codes))
        |rewrite (perm_seq_length _ (length codes)); [lia|done]
        |rewrite (perm_seq_length _ (length codes)); [lia|done]].
Qed.

Lemma lookup_total_fmap_seq (f : nat -> Z) n i :
  i < n -> (f <$> seq 0 n) !!! i = f i.
Proof.
  intros Hi. apply list_lookup_total_correct.
  rewrite list_lookup_fmap, lookup_seq_lt by done. done.
Qed.

Lemma lookup_total_naive_lcp codes SA i :
  0 < i -> i < length SA ->
  naive_lcp_array codes SA !!! i
  = Z.of_nat (lcp_at codes (SA !!! (i - 1)) (SA !!! i)).
Proof.
  intros H0 Hi. unfold naive_lcp_array.
  rewrite lookup_total_fmap_seq by done.
  destruct i; [lia|]. by replace (S i - 1) with i by lia.
Qed.

Lemma total_lookup_ext (l1 l2 : list Z) :
  length l1 = length l2 ->
  (forall i, i < length l1 -> l1 !!! i = l2 !!! i) -> l1 = l2.
Proof.
  intros Hlen H. apply (list_eq_same_length _ _ (length l1)); [done..|].
  intros i x y Hi H1 H2. specialize (H i Hi).
  rewrite (list_lookup_total_correct _ _ _ H1) in H.
  rewrite (list_lookup_total_correct _ _ _ H2) in H. done.
Qed.

Lemma build_naive_nonneg std_sort sgn text :
  sort_spec std_sort -> nonneg_codes (text_codes sgn text) ->
  buildSuffixArrayAndLCP std_sort sgn text
  = Some (naive_build (text_codes sgn text)).
Proof.
  intros Hsort Hnn.
  destruct (build_result_nonneg std_sort Hsort sgn text Hnn)
    as (res & Hrun & Hperm & Hsorted & Hlen & H0 & Hlcp).
  rewrite Hrun. f_equal. destruct res as [SA LCP]. simpl in *.
  pose proof (length_text_codes sgn text) as Hn. rewrite <- Hn in *.
  set (codes := text_codes sgn text) in *.
  assert (SA = naive_suffix_array codes) as ->.
  { apply (strictly_sorted_unique codes); try done.
    - apply naive_suffix_array_perm.
    - apply naive_suffix_array_sorted. }
  unfold naive_build. f_equal.
  pose proof (perm_seq_length _ _ (naive_suffix_array_perm codes)) as Hl.
  apply total_lookup_ext.
  - unfold naive_lcp_array. by rewrite length_fmap, length_seq, Hl.
  - intros i Hi. rewrite Hlen in Hi. destruct (decide (i = 0)) as [->|Hne].
    + rewrite H0 by lia. unfold naive_lcp_array.
      by rewrite lookup_total_fmap_seq by lia.
    + rewrite Hlcp by lia. by rewrite lookup_total_naive_lcp by lia.
Qed.

(** ** The work of Kasai's pass *)

Lemma extend_match_count_spec fuel codes n i j h c :
  extend_match_count fuel codes n i j h c
  = (fun h' => (h', c + Z.to_nat (h' - h))) <$> extend_match fuel codes n i j h.
Proof.
  revert h c. induction fuel as [|fuel IH]; intros h c; [done|].
  cbn [extend_match extend_match_count].
  destruct (_ && _ && _).
  - rewrite IH.
    destruct (extend_match fuel codes n i j (h + 1)) as [x|] eqn:E; [|done].
    simpl. apply extend_match_ge in E. do 2 f_equal. lia.
  - simpl. do 2 f_equal. lia.
Qed.

(** The loop stops at the end of the text at the latest. *)
Lemma extend_match_le fuel codes n i j h x :
  extend_match fuel codes n i j h = Some x ->
  (x <= Z.max h (Z.of_nat n - Z.of_nat i))%Z.
Proof.
  revert h. induction fuel as [|fuel IH]; intros h; [done|]. simpl.
  destruct (Z.ltb_spec (Z.of_nat i + h) (Z.of_nat n)) as [Hlt|Hge]; simpl.
  - destruct (_ && _).
    + intros Hrun. apply IH in Hrun. lia.
    + intros [= <-]. lia.
  - intros [= <-]. lia.
Qed.

Lemma kasai_count_fold fuel codes n s r k l h :
  fold_left (kasai_step fuel codes n s r) (seq 0 k) (Some (replicate n 0%Z, 0%Z))
  = Some (l, h) ->
  exists c,
    fold_left (kasai_step_count fuel codes n s r) (seq 0 k)
      (Some (replicate n 0%Z, 0%Z, 0)) = Some (l, h, c) /\
    (0 <= h <= Z.of_nat n)%Z /\ (Z.of_nat c <= Z.of_nat k + h)%Z.
Proof.
  revert l h. induction k as [|k IH]; intros l h.
  - simpl. intros [= <- <-]. exists 0. split; [done|lia].
  - rewrite !seq_S, !fold_left_app. simpl.
    destruct (fold_left (kasai_step fuel codes n s r) (seq 0 k) _)
      as [[l0 h0]|] eqn:E; [|done].
    destruct (IH l0 h0 eq_refl) as (c0 & Hc & Hh & Hsum).
    rewrite Hc. unfold kasai_step, kasai_step_count. simpl.
    destruct (0 <? r !!! k)%Z.
    + rewrite extend_match_count_spec.
      destruct (extend_match fuel codes n k _ h0) as [x|] eqn:Ex; [|done].
      simpl. intros [= <- <-]. eexists. split; [done|].
      pose proof (extend_match_ge _ _ _ _ _ _ _ Ex).
      pose proof (extend_match_le _ _ _ _ _ _ _ Ex).
      destruct (Z.ltb_spec 0 x); lia.
    + intros [= <- <-]. exists c0. split; [done|lia].
Qed.

Lemma kasai_count_linear fuel codes n s r l :
  kasai fuel codes n s r = Some l ->
  exists c, kasai_count fuel codes n s r = Some (l, c) /\ c <= 2 * n.
Proof.
  unfold kasai, kasai_count. intros H.
  destruct (fold_left (kasai_step fuel codes n s r) (seq 0 n) _)
    as [[l0 h0]|] eqn:E; [|done].
  simpl in H. injection H as ->.
  destruct (kasai_count_fold _ _ _ _ _ _ _ _ E) as (c & -> & Hh & Hc).
  exists c. split; [done|lia].
Qed.

(** ** The programs around the function *)

Lemma build_lengths std_sort sgn text res :
  sort_spec std_sort ->
  buildSuffixArrayAndLCP std_sort sgn text = Some res ->
  length (sa res) = String.length text /\
  length (lcp res) = String.length text /\
  forall i, i < String.length text -> sa res !!! i < String.length text.
Proof.
  intros Hsort Hrun.
  assert (sa res ≡ₚ seq 0 (String.length text)) as Hperm.
  { unfold buildSuffixArrayAndLCP in Hrun.
    destruct (build_with_fuel _ _ _ _) as [[res' k]|] eqn:E; [|done].
    injection Hrun as <-. by apply (build_returns_permutation _ _ _ _ _ _ Hsort E). }
  split; [by apply perm_seq_length|]. split.
  - revert Hrun. unfold buildSuffixArrayAndLCP, build_with_fuel.
    destruct (Nat.eqb_spec (String.length text) 0) as [Hz|Hz].
    + simpl. intros [= <-]. by rewrite Hz.
    + set (n := String.length text) in *.
      assert (exists f, f = S n) as (f & Hf) by (by eexists). rewrite <- Hf.
      destruct (doubling_loop std_sort f n _) as [[st k]|]; [|done]. simpl.
      destruct (kasai f _ n (st_sa st) (st_rank st)) as [l|] eqn:E; [|done].
      simpl. intros [= <-]. simpl.
      by destruct (kasai_shape _ _ _ _ _ _ E) as (H1 & _).
  - intros i Hi. by apply (perm_seq_lookup_lt _ (String.length text)).
Qed.

Lemma for_each_returns {A} (l : list A) (body : A -> outcome unit) :
  (forall x, x ∈ l -> exists out, body x = Returns tt out) ->
  exists out, for_each l body = Returns tt out.
Proof.
  unfold for_each. induction l as [|x l IH] using rev_ind; intros H.
  - by eexists.
  - rewrite fold_left_app. simpl.
    destruct IH as [out1 ->].
    { intros y Hy. apply H, elem_of_app. by left. }
    destruct (H x) as [out2 Hx].
    { apply elem_of_app. right. by apply list_elem_of_singleton. }
    unfold mbind, outcome_mbind, outcome_bind. rewrite Hx. by eexists.
Qed.

Lemma cout_int_returns k : exists out, cout_int k = Returns tt out.
Proof. by eexists. Qed.

Lemma test_driver_insertion std_sort sgn :
  sort_spec std_sort ->
  testBuildSuffixArrayAndLCP std_sort sgn
  = testBuildSuffixArrayAndLCP insertion_sort sgn.
Proof.
  intros Hsort. unfold testBuildSuffixArrayAndLCP.
  by rewrite !(build_insertion std_sort sgn _ Hsort).
Qed.

Lemma sample_report_insertion std_sort sgn text :
  sort_spec std_sort ->
  sample_report std_sort sgn text = sample_report insertion_sort sgn text.
Proof.
  intros Hsort. unfold sample_report.
  by rewrite !(build_insertion std_sort sgn _ Hsort).
Qed.

(** ** The passes of a run *)

Lemma loop_enters_gap std_sort n st0 k st :
  loop_enters std_sort n st0 k st -> st_gap st = st_gap st0 * 2 ^ k.
Proof.
  induction 1 as [|k st Hent IH Hex].
  - simpl. lia.
  - cbn [double_gap st_gap]. unfold pass. cbn [st_gap].
    rewrite IH, Nat.pow_succ_r'. lia.
Qed.

Lemma loop_enters_functional std_sort n st0 k st1 st2 :
  loop_enters std_sort n st0 k st1 -> loop_enters std_sort n st0 k st2 ->
  st1 = st2.
Proof.
  intros H1. revert st2. induction H1 as [|k st Hent IH Hex]; intros st2 H2.
  - by inversion H2.
  - inversion H2 as [|k' st' Hent' Hex']; subst.
    by rewrite (IH st' Hent').
Qed.

Lemma loop_enters_earlier std_sort n st0 k st i :
  loop_enters std_sort n st0 k st -> i < k ->
  exists sti,
    loop_enters std_sort n st0 i sti /\ all_ranked n (pass std_sort n sti) = false.
Proof.
  induction 1 as [|k st Hent IH Hex]; intros Hi; [lia|].
  destruct (decide (i = k)) as [->|Hne].
  - by exists st.
  - apply IH. lia.
Qed.

(** A pass is entered only before the one that reaches the [break]. *)
Lemma loop_enters_before_exit std_sort fuel n st0 st' k j st :
  doubling_loop std_sort fuel n st0 = Some (st', k) ->
  loop_enters std_sort n st0 j st -> j < k.
Proof.
  intros Hrun Hent.
  destruct (doubling_loop_enters _ _ _ _ _ _ Hrun) as (j0 & st1 & -> & Hent1 & -> & Hex).
  destruct (decide (j < S j0)) as [|Hge]; [done|].
  destruct (loop_enters_earlier _ _ _ _ _ j0 Hent ltac:(lia)) as (sti & Hi & Hno).
  rewrite (loop_enters_functional _ _ _ _ _ _ Hi Hent1) in Hno. congruence.
Qed.

(** A loop that cannot leave a state it enters never reaches its
    [break]. *)
Lemma loop_enters_diverges std_sort n st0 j st :
  loop_enters std_sort n st0 j st ->
  (forall fuel, doubling_loop std_sort fuel n st = None) ->
  forall fuel, doubling_loop std_sort fuel n st0 = None.
Proof.
  induction 1 as [|j st Hent IH Hex]; intros Hnone; [done|].
  apply IH. intros [|fuel]; [done|].
  cbn [doubling_loop]. rewrite Hex. by rewrite Hnone.
Qed.

Lemma initial_state_gap n codes : st_gap (initial_state n codes) = 1.
Proof. unfold initial_state. by destruct (init_arrays n codes). Qed.

(** The exit test in terms of the text. *)
Lemma exit_iff_padded_distinct std_sort codes st :
  sort_spec std_sort -> 0 < length codes -> padded_inv codes st ->
  all_ranked (length codes) (pass std_sort (length codes) st) = true
  <-> forall i j, i < length codes -> j < length codes ->
        take (st_gap st * 2) (padded_suffix codes i)
        = take (st_gap st * 2) (padded_suffix codes j) -> i = j.
Proof.
  intros Hsort Hn Hinv. pose proof Hinv as (Hshape & _).
  replace (st_gap st * 2) with (st_gap st + st_gap st) by lia.
  split.
  - intros Hex i j Hi Hj Heq.
    apply (exit_ranks_distinct std_sort Hsort (length codes) st Hn Hshape);
      try done.
    apply Z.compare_eq.
    rewrite (pass_rank_compare std_sort Hsort _ st Hn Hshape) by done.
    rewrite (pass_key_padded codes st i j) by done.
    rewrite Heq. apply lex_compare_refl.
  - intros Hinj. apply (distinct_ranks_exit std_sort Hsort); try done.
    intros i j Hi Hj Hr. apply Hinj; try done. apply lex_compare_eq.
    rewrite <- (pass_key_padded codes st i j) by done.
    rewrite <- (pass_rank_compare std_sort Hsort _ st Hn Hshape) by done.
    rewrite Hr. apply Z.compare_refl.
Qed.

Lemma exit_iff_prefixes_distinct_nonneg std_sort codes st :
  sort_spec std_sort -> 0 < length codes -> loop_inv codes st ->
  all_ranked (length codes) (pass std_sort (length codes) st) = true
  <-> forall i j, i < length codes -> j < length codes ->
        take (st_gap st * 2) (suffix_at codes i)
        = take (st_gap st * 2) (suffix_at codes j) -> i = j.
Proof.
  intros Hsort Hn Hinv. pose proof Hinv as (Hg & Hshape & Hord).
  replace (st_gap st * 2) with (st_gap st + st_gap st) by lia.
  split.
  - intros Hex i j Hi Hj Heq.
    apply (exit_ranks_distinct std_sort Hsort (length codes) st Hn Hshape);
      try done.
    apply Z.compare_eq.
    rewrite (pass_rank_compare std_sort Hsort _ st Hn Hshape) by done.
    rewrite sort_key_compare_prefix by done.
    unfold prefix_compare. rewrite Heq. apply lex_compare_refl.
  - intros Hinj. apply (distinct_ranks_exit std_sort Hsort); try done.
    intros i j Hi Hj Hr. apply Hinj; try done. apply lex_compare_eq.
    fold (prefix_compare codes (st_gap st + st_gap st) i j).
    rewrite <- (sort_key_compare_prefix codes (st_gap st) (st_rank st)) by done.
    rewrite <- (pass_rank_compare std_sort Hsort _ st Hn Hshape) by done.
    rewrite Hr. apply Z.compare_refl.
Qed.

(** ** Two families of texts *)

Lemma length_repeat_char c n : String.length (repeat_char c n) = n.
Proof. induction n as [|n IH]; simpl; congruence. Qed.

Lemma text_codes_repeat_char sgn c n :
  text_codes sgn (repeat_char c n) = replicate n (char_to_int sgn c).
Proof.
  unfold text_codes. induction n as [|n IH]; [done|].
  simpl. f_equal. apply IH.
Qed.

Lemma suffix_at_replicate n (c : Z) p :
  suffix_at (replicate n c) p = replicate (n - p) c.
Proof. apply drop_replicate. Qed.

Lemma lex_compare_replicate (c : Z) a b :
  a < b -> lex_compare (replicate a c) (replicate b c) = Lt.
Proof.
  revert b. induction a as [|a IH]; intros b Hab.
  - destruct b; [lia|done].
  - destruct b; [lia|]. simpl. rewrite Z.compare_refl. apply IH. lia.
Qed.

Lemma common_prefix_length_replicate (c : Z) a b :
  common_prefix_length (replicate a c) (replicate b c) = min a b.
Proof.
  revert b. induction a as [|a IH]; intros b; [done|].
  destruct b; [done|]. simpl. rewrite Z.eqb_refl. by rewrite IH.
Qed.

Lemma lookup_total_reverse_seq n a :
  a < n -> reverse (seq 0 n) !!! a = n - 1 - a.
Proof.
  intros Ha. apply list_lookup_total_correct.
  rewrite reverse_lookup by (rewrite length_seq; lia).
  rewrite length_seq, lookup_seq_lt by lia. f_equal. lia.
Qed.

Lemma build_all_equal_nonneg std_sort sgn c n :
  sort_spec std_sort -> (0 <= char_to_int sgn c)%Z ->
  buildSuffixArrayAndLCP std_sort sgn (repeat_char c n)
  = Some (mkResult (reverse (seq 0 n)) (Z.of_nat <$> seq 0 n)).
Proof.
  intros Hsort Hc.
  assert (nonneg_codes (text_codes sgn (repeat_char c n))) as Hnn.
  { rewrite text_codes_repeat_char. unfold nonneg_codes.
    by apply Forall_replicate. }
  destruct (build_result_nonneg std_sort Hsort sgn _ Hnn)
    as ([SA LCP] & Hrun & Hperm & Hsorted & Hlen & H0 & Hlcp).
  rewrite Hrun. do 2 f_equal; simpl in *;
    rewrite length_repeat_char, text_codes_repeat_char in *.
  - apply (strictly_sorted_unique (replicate n (char_to_int sgn c)));
      rewrite ?length_replicate; try done.
    + apply reverse_Permutation.
    + intros a b Hab Hb. rewrite !suffix_at_replicate.
      rewrite !lookup_total_reverse_seq by lia.
      apply lex_compare_replicate. lia.
  - assert (forall a, a < n -> SA !!! a = n - 1 - a) as Hsa.
    { assert (SA = reverse (seq 0 n)) as ->; [|by apply lookup_total_reverse_seq].
      apply (strictly_sorted_unique (replicate n (char_to_int sgn c)));
        rewrite ?length_replicate; try done.
      + apply reverse_Permutation.
      + intros a b Hab Hb. rewrite !suffix_at_replicate.
        rewrite !lookup_total_reverse_seq by lia.
        apply lex_compare_replicate. lia. }
    apply total_lookup_ext.
    + by rewrite length_fmap, length_seq.
    + intros i Hi. rewrite Hlen in Hi.
      rewrite lookup_total_fmap_seq by done.
      destruct (decide (i = 0)) as [->|Hne]; [apply H0; lia|].
      rewrite Hlcp by lia. unfold lcp_at.
      rewrite !suffix_at_replicate, !Hsa by lia.
      rewrite common_prefix_length_replicate. f_equal. lia.
Qed.

Section Increasing.
Variable std_sort : (nat -> nat -> bool) -> list nat -> list nat.
Hypothesis Hsort : sort_spec std_sort.
Variable codes : list Z.
Local Abbreviation n := (length codes).
Hypothesis Hn : 0 < n.
Hypothesis Hinc : forall i j, i < j -> j < n -> (codes !!! i < codes !!! j)%Z.

Lemma increasing_inj i j : i < n -> j < n -> codes !!! i = codes !!! j -> i = j.
Proof.
  intros Hi Hj Heq. destruct (Nat.lt_trichotomy i j) as [H|[H|H]]; [|done|].
  - pose proof (Hinc i j H Hj). lia.
  - pose proof (Hinc j i H Hi). lia.
Qed.

Lemma increasing_suffix_lt i j :
  i < j -> j < n -> lex_compare (suffix_at codes i) (suffix_at codes j) = Lt.
Proof.
  intros Hij Hj. rewrite (suffix_at_cons codes i), (suffix_at_cons codes j) by lia.
  simpl. pose proof (Hinc i j Hij Hj) as Hlt. apply Z.compare_lt_iff in Hlt.
  by rewrite Hlt.
Qed.

Lemma increasing_lcp_zero i j : i < n -> j < n -> i <> j -> lcp_at codes i j = 0.
Proof.
  intros Hi Hj Hne. destruct (lcp_at codes i j) eqn:E; [done|].
  destruct (lcp_at_pos codes i j ltac:(lia)) as (_ & _ & Heq).
  by apply increasing_inj in Heq.
Qed.

(** The first pass tells all positions apart and leaves them in their
    order in the text. *)
Lemma increasing_first_pass :
  let st := pass std_sort n (initial_state n codes) in
  all_ranked n st = true /\ st_sa st = seq 0 n /\
  forall a, a < n -> st_rank st !!! a = Z.of_nat a.
Proof.
  cbv zeta. set (st := pass std_sort n (initial_state n codes)).
  pose proof (initial_state_shape codes) as Hshape.
  assert (all_ranked n st = true) as Hex.
  { apply (distinct_ranks_exit std_sort Hsort); try done.
    intros i j Hi Hj Hr. apply increasing_inj; try done.
    assert (pair_compare (sort_key (st_rank (initial_state n codes)) n
                            (st_gap (initial_state n codes)) i)
                         (sort_key (st_rank (initial_state n codes)) n
                            (st_gap (initial_state n codes)) j) = Eq) as Hk.
    { rewrite <- (pass_rank_compare std_sort Hsort n _ Hn Hshape) by done.
      fold st. fold st in Hr. rewrite Hr. apply Z.compare_refl. }
    apply pair_compare_eq in Hk. rewrite initial_state_eq in Hk.
    by injection Hk as Hk _. }
  destruct (pass_shape std_sort Hsort n _ Hn Hshape) as ((Hperm & _) & _).
  fold st in Hperm.
  assert (forall a, a < n -> st_rank st !!! (st_sa st !!! a) = Z.of_nat a) as Hrank.
  { intros a Ha. by apply (pass_all_ranked std_sort Hsort). }
  assert (st_sa st = seq 0 n) as Hsa.
  { apply (strictly_sorted_unique codes); try done.
    - intros a b Hab Hb.
      assert (st_sa st !!! a < n) as Ha'
        by (apply (perm_seq_lookup_lt _ n); [done|lia]).
      assert (st_sa st !!! b < n) as Hb'
        by (by apply (perm_seq_lookup_lt _ n)).
      assert (pair_compare (sort_key (st_rank (initial_state n codes)) n
                              (st_gap (initial_state n codes)) (st_sa st !!! a))
                           (sort_key (st_rank (initial_state n codes)) n
                              (st_gap (initial_state n codes)) (st_sa st !!! b)) = Lt)
        as Hk.
      { rewrite <- (pass_rank_compare std_sort Hsort n _ Hn Hshape) by done.
        fold st. rewrite !Hrank by lia. apply Z.compare_lt_iff. lia. }
      rewrite initial_state_eq in Hk. unfold pair_compare, sort_key in Hk.
      cbn [fst snd st_rank st_gap] in Hk.
      destruct (Nat.lt_trichotomy (st_sa st !!! a) (st_sa st !!! b))
        as [H|[H|H]].
      + by apply increasing_suffix_lt.
      + apply NoDup_lookup_total_inj in H;
          [lia|by apply (perm_seq_NoDup _ n)
              |rewrite (perm_seq_length _ n); [lia|done]
              |rewrite (perm_seq_length _ n); [lia|done]].
      + pose proof (Hinc _ _ H Ha') as Hgt. apply Z.compare_gt_iff in Hgt.
        by rewrite Hgt in Hk.
    - intros a b Hab Hb. rewrite !lookup_total_seq_lt by lia.
      by apply increasing_suffix_lt. }
  split; [done|]. split; [done|].
  intros a Ha. specialize (Hrank a Ha).
  by rewrite Hsa, lookup_total_seq_lt in Hrank by done.
Qed.

Lemma increasing_kasai fuel :
  n < fuel ->
  kasai fuel codes n (seq 0 n) (Z.of_nat <$> seq 0 n) = Some (replicate n 0%Z).
Proof.
  intros Hfuel.
  destruct (kasai_correct codes (seq 0 n) (Z.of_nat <$> seq 0 n) Hn) with (fuel := fuel)
    as (l & Hrun & Hlen & H0 & Hl); try done.
  - intros a Ha. rewrite lookup_total_seq_lt by done.
    by rewrite lookup_total_fmap_seq.
  - intros a b Hab Hb. rewrite !lookup_total_seq_lt by lia.
    by apply increasing_suffix_lt.
  - rewrite Hrun. f_equal. apply total_lookup_ext.
    + by rewrite length_replicate.
    + intros i Hi. rewrite Hlen in Hi.
      rewrite lookup_total_replicate_2 by done.
      destruct (decide (i = 0)) as [->|Hne]; [done|].
      rewrite Hl by lia. rewrite !lookup_total_seq_lt by lia.
      rewrite increasing_lcp_zero by lia. done.
Qed.

End Increasing.

Lemma build_increasing std_sort sgn text :
  sort_spec std_sort ->
  0 < String.length text ->
  (forall i j, i < j -> j < String.length text ->
     (text_codes sgn text !!! i < text_codes sgn text !!! j)%Z) ->
  build_with_fuel std_sort sgn (S (String.length text)) text
  = Some (mkResult (seq 0 (String.length text))
                   (replicate (String.length text) 0%Z), 1).
Proof.
  intros Hsort Hn Hinc. unfold build_with_fuel.
  rewrite <- (length_text_codes sgn text) in *.
  set (codes := text_codes sgn text) in *.
  destruct (Nat.eqb_spec (length codes) 0) as [|_]; [lia|].
  destruct (increasing_first_pass std_sort Hsort codes Hn Hinc)
    as (Hex & Hsa & Hrank).
  cbn [doubling_loop]. rewrite Hex. cbn [mbind option_bind].
  assert (st_rank (pass std_sort (length codes) (initial_state (length codes) codes))
          = Z.of_nat <$> seq 0 (length codes)) as Hr.
  { apply total_lookup_ext.
    - rewrite length_fmap, length_seq.
      by destruct (pass_shape std_sort Hsort (length codes) _ Hn
                     (initial_state_shape codes)) as ((_ & -> & _) & _).
    - intros i Hi.
      destruct (pass_shape std_sort Hsort (length codes) _ Hn
                  (initial_state_shape codes)) as ((_ & Hl & _) & _).
      rewrite Hl in Hi. rewrite Hrank by done.
      by rewrite lookup_total_fmap_seq. }
  rewrite Hsa, Hr.
  rewrite (increasing_kasai codes Hn Hinc) by lia. done.
Qed.

(** ** Kasai's pass on a suffix array in any order *)

(** The inner loop stops at the first mismatch at the earliest. *)
Lemma extend_match_lower fuel codes i j h x :
  (0 <= h)%Z ->
  extend_match fuel codes (length codes) i j h = Some x ->
  (Z.of_nat (lcp_at codes i j) <= x)%Z.
Proof.
  intros Hh Hrun.
  destruct (decide (h <= Z.of_nat (lcp_at codes i j))%Z) as [Hle|Hgt].
  - pose proof (extend_match_exact codes (fuel + S (lcp_at codes i j)) i j
                  (Z.to_nat h) ltac:(lia) ltac:(lia)) as Hexact.
    rewrite Z2Nat.id in Hexact by done.
    pose proof (extend_match_mono fuel (fuel + S (lcp_at codes i j)) _ _ _ _ _ _
                  ltac:(lia) Hrun) as Hmono.
    rewrite Hexact in Hmono. injection Hmono as <-. lia.
  - apply extend_match_ge in Hrun. lia.
Qed.

Section KasaiLower.
Variable codes : list Z.
Local Abbreviation n := (length codes).
Variables (s : list nat) (r : list Z).
Hypothesis Hperm : s ≡ₚ seq 0 n.
Hypothesis Hrank : forall a, a < n -> r !!! (s !!! a) = Z.of_nat a.

Lemma inverse_rank_range i : i < n -> (0 <= r !!! i < Z.of_nat n)%Z.
Proof.
  intros Hi. destruct (perm_seq_position s n i Hperm Hi) as (a & Ha & <-).
  rewrite Hrank by done. lia.
Qed.

Lemma inverse_rank_inj i j : i < n -> j < n -> r !!! i = r !!! j -> i = j.
Proof.
  intros Hi Hj Heq.
  destruct (perm_seq_position s n i Hperm Hi) as (a & Ha & <-).
  destruct (perm_seq_position s n j Hperm Hj) as (b & Hb & <-).
  rewrite !Hrank in Heq by done. f_equal. lia.
Qed.

Lemma kasai_fold_lower fuel k l h :
  k <= n ->
  fold_left (kasai_step fuel codes n s r) (seq 0 k) (Some (replicate n 0%Z, 0%Z))
  = Some (l, h) ->
  length l = n /\ (0 <= h)%Z /\
  forall j, j < k -> (0 < r !!! j)%Z ->
    (Z.of_nat (lcp_at codes (s !!! Z.to_nat (r !!! j - 1)) j)
     <= l !!! Z.to_nat (r !!! j))%Z.
Proof.
  revert l h. induction k as [|k IH]; intros l h Hk.
  - simpl. intros [= <- <-]. rewrite length_replicate.
    split; [done|]. split; [done|]. intros j Hj. lia.
  - rewrite seq_S, fold_left_app. simpl.
    destruct (fold_left (kasai_step fuel codes n s r) (seq 0 k) _)
      as [[l0 h0]|] eqn:E; [|done].
    destruct (IH l0 h0 ltac:(lia) eq_refl) as (Hlen & Hh & Hdone).
    unfold kasai_step. simpl.
    pose proof (inverse_rank_range k ltac:(lia)) as Hrk.
    destruct (Z.ltb_spec 0 (r !!! k)) as [Hpos|Hzero].
    + destruct (extend_match fuel codes n k _ h0) as [x|] eqn:Ex; [|done].
      simpl. intros [= <- <-].
      pose proof (extend_match_ge _ _ _ _ _ _ _ Ex) as Hge.
      pose proof (extend_match_lower _ _ _ _ _ _ Hh Ex) as Hlow.
      split; [by rewrite length_insert|]. split.
      { destruct (Z.ltb_spec 0 x); lia. }
      intros j Hj Hrj. destruct (decide (j = k)) as [->|Hne].
      * rewrite list_lookup_total_insert_eq by lia.
        by rewrite lcp_at_sym.
      * rewrite list_lookup_total_insert_ne.
        -- apply Hdone; [lia|done].
        -- intros Heq. apply Hne.
           pose proof (inverse_rank_range j ltac:(lia)) as Hrj'.
           apply inverse_rank_inj; [lia|lia|lia].
    + intros [= <- <-]. split; [done|]. split; [done|].
      intros j Hj Hrj. destruct (decide (j = k)) as [->|Hne]; [lia|].
      apply Hdone; [lia|done].
Qed.

Lemma kasai_lower fuel l a :
  kasai fuel codes n s r = Some l -> 1 <= a -> a < n ->
  (Z.of_nat (lcp_at codes (s !!! (a - 1)%nat) (s !!! a)) <= l !!! a)%Z.
Proof.
  unfold kasai. intros Hrun Ha1 Ha.
  destruct (fold_left (kasai_step fuel codes n s r) (seq 0 n) _)
    as [[l0 h0]|] eqn:E; [|done].
  simpl in Hrun. injection Hrun as ->.
  destruct (kasai_fold_lower fuel n l h0 ltac:(lia) E) as (_ & _ & Hdone).
  assert (s !!! a < n) as Hsa by (by apply (perm_seq_lookup_lt s n)).
  specialize (Hdone (s !!! a) Hsa). rewrite Hrank in Hdone by done.
  rewrite Nat2Z.id in Hdone.
  replace (Z.to_nat (Z.of_nat a - 1)) with (a - 1) in Hdone by lia.
  apply Hdone. lia.
Qed.

End KasaiLower.

Lemma build_lcp_lower std_sort sgn text res a :
  sort_spec std_sort ->
  buildSuffixArrayAndLCP std_sort sgn text = Some res ->
  1 <= a -> a < String.length text ->
  (Z.of_nat (lcp_at (text_codes sgn text) (sa res !!! (a - 1)%nat) (sa res !!! a))
   <= lcp res !!! a)%Z.
Proof.
  intros Hsort Hrun Ha1 Ha.
  unfold buildSuffixArrayAndLCP, build_with_fuel in Hrun.
  set (codes := text_codes sgn text) in *.
  assert (String.length text = length codes) as Hlen
    by (symmetry; apply length_text_codes).
  rewrite Hlen in *.
  destruct (Nat.eqb_spec (length codes) 0) as [|Hn]; [lia|].
  destruct (doubling_loop _ _ _ _) as [[st k]|] eqn:E; [|done].
  simpl in Hrun. destruct (kasai _ _ _ _ _) as [l|] eqn:Ek; [|done].
  simpl in Hrun. injection Hrun as <-. simpl.
  destruct (doubling_loop_enters _ _ _ _ _ _ E) as (j & st1 & _ & Hent & -> & Hex).
  assert (state_shape (length codes) st1) as Hshape.
  { eapply loop_enters_shape; [done|lia| |exact Hent]. apply initial_state_shape. }
  destruct (pass_shape std_sort Hsort (length codes) st1 ltac:(lia) Hshape)
    as ((Hperm & _) & _).
  apply (kasai_lower codes (st_sa (pass std_sort (length codes) st1))
           (st_rank (pass std_sort (length codes) st1)) Hperm)
    with (fuel := S (length codes)); try done.
  intros b Hb. apply (pass_all_ranked std_sort Hsort); [lia|done|done|done].
Qed.

(** * The claims *)

(** C1 (the suffix array is sorted), at the failing input: the two bytes
    0xE9 0xE9 (Latin-1 "éé") where [char] is signed.  The function returns
    [SA = [0; 1]], but the suffix at 0 is the whole text and the suffix at 1
    is its proper prefix, so the suffix at [SA[0]] is not [<=] the suffix at
    [SA[1]], whether symbols are ordered as signed or as unsigned values. *)
Theorem sa_unsorted_signed_char std_sort :
  sort_spec std_sort ->
  exists res,
    buildSuffixArrayAndLCP std_sort true (string_of_bytes [233; 233]) = Some res /\
    sa res = [0; 1] /\
    ~ suffixes_sorted (text_codes true (string_of_bytes [233; 233])) (sa res) /\
    ~ suffixes_sorted (text_codes false (string_of_bytes [233; 233])) (sa res).
Proof.
  intros Hsort. rewrite (build_insertion _ _ _ Hsort).
  eexists. split; [vm_compute; reflexivity|]. split; [reflexivity|].
  split; intros H; specialize (H 1 ltac:(lia) ltac:(simpl; lia)); done.
Qed.

Lemma sa_unsorted_signed_char_witness :
  sort_spec insertion_sort /\
  exists res,
    buildSuffixArrayAndLCP insertion_sort true (string_of_bytes [233; 233]) = Some res /\
    sa res = [0; 1] /\
    ~ suffixes_sorted (text_codes true (string_of_bytes [233; 233])) (sa res) /\
    ~ suffixes_sorted (text_codes false (string_of_bytes [233; 233])) (sa res).
Proof.
  split; [exact insertion_sort_spec|].
  exact (sa_unsorted_signed_char insertion_sort insertion_sort_spec).
Defined.

(** C2 (the [SA] returned is a permutation of [0..n-1], for every text), at
    the failing input: the two bytes 0xFF where [char] is signed.  The
    function returns nothing there, with any amount of fuel, so no
    permutation is returned.  On every text that does not end with two
    symbols of value [-1] the function does return and its [SA] has length
    [n] and is a permutation of [0..n-1]; and so is every [SA] it returns,
    on any text. *)
Theorem sa_permutation_missing_signed_char std_sort :
  sort_spec std_sort ->
  buildSuffixArrayAndLCP std_sort true (string_of_bytes [255; 255]) = None /\
  (forall fuel,
     build_with_fuel std_sort true fuel (string_of_bytes [255; 255]) = None) /\
  ~ (exists res,
       buildSuffixArrayAndLCP std_sort true (string_of_bytes [255; 255]) = Some res /\
       permutation_of_positions (String.length (string_of_bytes [255; 255])) (sa res)) /\
  (forall sgn text,
     ends_with_sentinel_pair (text_codes sgn text) = false ->
     exists res,
       buildSuffixArrayAndLCP std_sort sgn text = Some res /\
       permutation_of_positions (String.length text) (sa res)) /\
  (forall sgn text res,
     buildSuffixArrayAndLCP std_sort sgn text = Some res ->
     permutation_of_positions (String.length text) (sa res)).
Proof.
  intros Hsort.
  assert (forall sgn text res,
            buildSuffixArrayAndLCP std_sort sgn text = Some res ->
            permutation_of_positions (String.length text) (sa res)) as Hperm.
  { intros sgn text res Hrun.
    apply (build_returns_iff _ _ _ _ Hsort) in Hrun as (fuel & k & Hrun).
    pose proof (build_returns_permutation _ _ _ _ _ _ Hsort Hrun) as Hp.
    split; [by apply perm_seq_length|done]. }
  assert (forall fuel,
            build_with_fuel std_sort true fuel (string_of_bytes [255; 255]) = None)
    as Hnone.
  { intros fuel. apply build_diverges_sentinel_pair; [done|].
    vm_compute. reflexivity. }
  assert (buildSuffixArrayAndLCP std_sort true (string_of_bytes [255; 255]) = None)
    as Hb by (unfold buildSuffixArrayAndLCP; by rewrite Hnone).
  split; [done|]. split; [done|]. split.
  { intros (res & Hrun & _). congruence. }
  split; [|done].
  intros sgn text Hends.
  destruct (build_returns_padded std_sort sgn text Hsort Hends) as [res Hrun].
  exists res. split; [done|]. by apply (Hperm sgn).
Qed.

Lemma sa_permutation_missing_signed_char_witness :
  sort_spec insertion_sort /\
  buildSuffixArrayAndLCP insertion_sort true (string_of_bytes [255; 255]) = None /\
  (forall fuel,
     build_with_fuel insertion_sort true fuel (string_of_bytes [255; 255]) = None) /\
  ~ (exists res,
       buildSuffixArrayAndLCP insertion_sort true (string_of_bytes [255; 255]) = Some res /\
       permutation_of_positions (String.length (string_of_bytes [255; 255])) (sa res)) /\
  (forall sgn text,
     ends_with_sentinel_pair (text_codes sgn text) = false ->
     exists res,
       buildSuffixArrayAndLCP insertion_sort sgn text = Some res /\
       permutation_of_positions (String.length text) (sa res)) /\
  (forall sgn text res,
     buildSuffixArrayAndLCP insertion_sort sgn text = Some res ->
     permutation_of_positions (String.length text) (sa res)).
Proof.
  split; [exact insertion_sort_spec|].
  exact (sa_permutation_missing_signed_char insertion_sort insertion_sort_spec).
Defined.

(** C3 (the LCP array is exact), at the failing input: the four bytes
    0xE9 (Latin-1 "éééé") where [char] is signed.  The function returns
    [SA = [2; 0; 1; 3]] and [LCP = [0; 2; 3; 2]], but the suffixes at
    [SA[2] = 1] and [SA[3] = 3] share one symbol, not [LCP[3] = 2]. *)
Theorem lcp_inexact_signed_char std_sort :
  sort_spec std_sort ->
  exists res,
    buildSuffixArrayAndLCP std_sort true (string_of_bytes [233; 233; 233; 233])
    = Some res /\
    sa res = [2; 0; 1; 3] /\
    lcp res = [0; 2; 3; 2]%Z /\
    ~ lcp_exact (text_codes true (string_of_bytes [233; 233; 233; 233]))
        (sa res) (lcp res).
Proof.
  intros Hsort. rewrite (build_insertion _ _ _ Hsort).
  eexists. split; [vm_compute; reflexivity|]. split; [reflexivity|].
  split; [reflexivity|].
  intros (_ & _ & H). specialize (H 3 ltac:(lia) ltac:(simpl; lia)). done.
Qed.

Lemma lcp_inexact_signed_char_witness :
  sort_spec insertion_sort /\
  exists res,
    buildSuffixArrayAndLCP insertion_sort true (string_of_bytes [233; 233; 233; 233])
    = Some res /\
    sa res = [2; 0; 1; 3] /\
    lcp res = [0; 2; 3; 2]%Z /\
    ~ lcp_exact (text_codes true (string_of_bytes [233; 233; 233; 233]))
        (sa res) (lcp res).
Proof.
  split; [exact insertion_sort_spec|].
  exact (lcp_inexact_signed_char insertion_sort insertion_sort_spec).
Defined.

(** C4 (the function is total), at the failing input: the two bytes
    0xFF 0xFF where [char] is signed.  No amount of fuel lets the doubling
    loop reach its [break]: the function never returns. *)
Theorem build_never_returns_signed_char std_sort :
  sort_spec std_sort ->
  forall fuel,
    build_with_fuel std_sort true fuel (string_of_bytes [255; 255]) = None.
Proof.
  intros Hsort fuel. rewrite (build_with_fuel_insertion _ _ _ _ Hsort).
  apply build_stuck_signed_char.
Qed.

Lemma build_never_returns_signed_char_witness :
  sort_spec insertion_sort /\
  forall fuel,
    build_with_fuel insertion_sort true fuel (string_of_bytes [255; 255]) = None.
Proof.
  split; [exact insertion_sort_spec|].
  exact (build_never_returns_signed_char insertion_sort insertion_sort_spec).
Defined.

(** C5: after every pass of the doubling loop [rank[SA[i]]] is
    non-decreasing in [i], and when the exit test holds after a pass the
    rank table is the inverse permutation of [SA]: [rank[SA[i]] = i] and
    [SA[rank[p]] = p]. *)
Theorem ranks_monotone_then_inverse std_sort sgn text k st :
  sort_spec std_sort ->
  0 < String.length text ->
  loop_enters std_sort (String.length text)
    (initial_state (String.length text) (text_codes sgn text)) k st ->
  ranks_nondecreasing (String.length text) (pass std_sort (String.length text) st) /\
  (all_ranked (String.length text) (pass std_sort (String.length text) st) = true ->
   rank_inverts_sa (String.length text) (pass std_sort (String.length text) st)).
Proof.
  intros Hsort Hn Hent.
  set (n := String.length text) in *.
  assert (state_shape n st) as Hsh.
  { apply (loop_enters_shape std_sort n (initial_state n (text_codes sgn text))
             k st Hsort Hn); [|done].
    unfold n. rewrite <- (length_text_codes sgn text). apply initial_state_shape. }
  split.
  - intros i j Hij Hj. by apply pass_monotone.
  - intros Hex.
    destruct (pass_shape std_sort Hsort n st Hn Hsh) as ((Hp & _) & _).
    assert (forall i, i < n ->
      st_rank (pass std_sort n st) !!! (st_sa (pass std_sort n st) !!! i)
      = Z.of_nat i) as Hinv by (intros i Hi; by apply pass_all_ranked).
    split; [done|]. split; [done|].
    intros p Hp'. destruct (perm_seq_position _ n p Hp Hp') as (a & Ha & <-).
    rewrite Hinv by done. by rewrite Nat2Z.id.
Qed.

Lemma ranks_monotone_then_inverse_witness :
  sort_spec insertion_sort /\
  0 < String.length "banana" /\
  loop_enters insertion_sort (String.length "banana")
    (initial_state (String.length "banana") (text_codes true "banana")) 0
    (initial_state (String.length "banana") (text_codes true "banana")) /\
  ranks_nondecreasing (String.length "banana")
    (pass insertion_sort (String.length "banana")
       (initial_state (String.length "banana") (text_codes true "banana"))) /\
  (all_ranked (String.length "banana")
     (pass insertion_sort (String.length "banana")
        (initial_state (String.length "banana") (text_codes true "banana"))) = true ->
   rank_inverts_sa (String.length "banana")
     (pass insertion_sort (String.length "banana")
        (initial_state (String.length "banana") (text_codes true "banana")))).
Proof.
  split; [exact insertion_sort_spec|].
  split; [simpl; lia|].
  split; [apply enters_first|].
  exact (ranks_monotone_then_inverse insertion_sort true "banana" 0 _
           insertion_sort_spec ltac:(simpl; lia) (enters_first _ _ _)).
Defined.

(** C6 (the sentinel is below every rank), at the failing input: the two
    bytes 0xE9 0xE9 where [char] is signed.  The loop is entered with
    [gap = 1] and the rank table [[-23; -23]]; position 1 has
    [1 + gap >= n] and takes the sentinel [-1] as its next rank, which is
    above the ranks of the table, and the comparator puts the longer suffix
    (at 0) before the one that ends (at 1). *)
Theorem sentinel_not_below_signed_char :
  st_gap (initial_state 2 (text_codes true (string_of_bytes [233; 233]))) = 1 /\
  st_rank (initial_state 2 (text_codes true (string_of_bytes [233; 233])))
  = [-23; -23]%Z /\
  ~ sentinel_below_ranks 2
      (initial_state 2 (text_codes true (string_of_bytes [233; 233]))) /\
  ~ ending_suffix_first 2
      (initial_state 2 (text_codes true (string_of_bytes [233; 233]))).
Proof.
  split; [reflexivity|]. split; [reflexivity|]. split.
  - intros H. specialize (H 1 0 ltac:(lia) ltac:(simpl; lia) ltac:(lia)).
    vm_compute in H. done.
  - intros H.
    destruct (H 1 0 ltac:(lia) ltac:(lia) ltac:(simpl; lia) ltac:(simpl; lia)
                ltac:(reflexivity)) as [H1 _].
    vm_compute in H1. done.
Qed.

(** C7: on the empty text the function returns [SA = []] and [LCP = []];
    on a text of one symbol, whatever the symbol, it returns [SA = [0]] and
    [LCP = [0]]. *)
Theorem build_boundary_cases std_sort sgn :
  sort_spec std_sort ->
  buildSuffixArrayAndLCP std_sort sgn EmptyString = Some (mkResult [] []) /\
  forall c : ascii,
    buildSuffixArrayAndLCP std_sort sgn (String c EmptyString)
    = Some (mkResult [0] [0%Z]).
Proof.
  intros Hsort. split; [reflexivity|].
  intros c. rewrite (build_insertion _ _ _ Hsort). reflexivity.
Qed.

Lemma build_boundary_cases_witness :
  sort_spec insertion_sort /\
  buildSuffixArrayAndLCP insertion_sort true EmptyString = Some (mkResult [] []) /\
  forall c : ascii,
    buildSuffixArrayAndLCP insertion_sort true (String c EmptyString)
    = Some (mkResult [0] [0%Z]).
Proof.
  split; [exact insertion_sort_spec|].
  exact (build_boundary_cases insertion_sort true insertion_sort_spec).
Defined.

(** C8: the results on "banana" and on "mississippi". *)
Theorem build_banana_mississippi std_sort sgn :
  sort_spec std_sort ->
  buildSuffixArrayAndLCP std_sort sgn "banana"
  = Some (mkResult [5; 3; 1; 0; 4; 2] [0; 1; 3; 0; 0; 2]%Z) /\
  buildSuffixArrayAndLCP std_sort sgn "mississippi"
  = Some (mkResult [10; 7; 4; 1; 0; 9; 8; 6; 3; 5; 2]
                   [0; 1; 1; 4; 0; 0; 1; 0; 2; 1; 3]%Z).
Proof.
  intros Hsort. rewrite !(build_insertion _ _ _ Hsort).
  destruct sgn; split; vm_compute; reflexivity.
Qed.

Lemma build_banana_mississippi_witness :
  sort_spec insertion_sort /\
  buildSuffixArrayAndLCP insertion_sort true "banana"
  = Some (mkResult [5; 3; 1; 0; 4; 2] [0; 1; 3; 0; 0; 2]%Z) /\
  buildSuffixArrayAndLCP insertion_sort true "mississippi"
  = Some (mkResult [10; 7; 4; 1; 0; 9; 8; 6; 3; 5; 2]
                   [0; 1; 1; 4; 0; 0; 1; 0; 2; 1; 3]%Z).
Proof.
  split; [exact insertion_sort_spec|].
  exact (build_banana_mississippi insertion_sort true insertion_sort_spec).
Defined.

(** C9 as stated fails on the empty text: the function returns at the
    guard [if (n == 0)] and the body of the doubling loop never runs. *)
Lemma loop_body_not_run_on_empty_text :
  ~ (forall std_sort sgn text,
       sort_spec std_sort -> String.length text <= 1 ->
       exists k, 1 <= k /\ doubling_iterations std_sort sgn text = Some k).
Proof.
  intros H.
  destruct (H insertion_sort true EmptyString insertion_sort_spec ltac:(simpl; lia))
    as (k & Hk & Heq).
  vm_compute in Heq. injection Heq as <-. lia.
Qed.

(** C9, amended: on a text of one symbol the body of the doubling loop
    runs exactly once and the loop ends there; on the empty text the
    function returns before the loop and the body does not run. *)
Theorem loop_runs_once_or_not_at_all std_sort sgn text :
  sort_spec std_sort ->
  (String.length text = 1 -> doubling_iterations std_sort sgn text = Some 1) /\
  (String.length text = 0 -> doubling_iterations std_sort sgn text = Some 0).
Proof.
  intros Hsort. rewrite (doubling_iterations_insertion _ _ _ Hsort). split.
  - destruct text as [|c [|c' text]]; simpl; intros Hlen; try lia. reflexivity.
  - destruct text as [|c text]; simpl; intros Hlen; try lia. reflexivity.
Qed.

Lemma loop_runs_once_or_not_at_all_witness :
  sort_spec insertion_sort /\
  (String.length "a" = 1 -> doubling_iterations insertion_sort true "a" = Some 1) /\
  (String.length "a" = 0 -> doubling_iterations insertion_sort true "a" = Some 0).
Proof.
  split; [exact insertion_sort_spec|].
  exact (loop_runs_once_or_not_at_all insertion_sort true "a" insertion_sort_spec).
Defined.

(** C10 (an LCP value is within the length of the shorter suffix), at the
    failing input: the four bytes 0xE9 where [char] is signed.  The function
    returns [LCP[3] = 2] for the suffixes at [SA[2] = 1] and [SA[3] = 3], and
    [n - max 1 3 = 1]. *)
Theorem lcp_bound_broken_signed_char std_sort :
  sort_spec std_sort ->
  exists res,
    buildSuffixArrayAndLCP std_sort true (string_of_bytes [233; 233; 233; 233])
    = Some res /\
    lcp res !!! 3 = 2%Z /\
    String.length (string_of_bytes [233; 233; 233; 233])
    - max (sa res !!! 2) (sa res !!! 3) = 1 /\
    ~ lcp_bounded (text_codes true (string_of_bytes [233; 233; 233; 233]))
        (sa res) (lcp res).
Proof.
  intros Hsort. rewrite (build_insertion _ _ _ Hsort).
  eexists. split; [vm_compute; reflexivity|].
  split; [reflexivity|]. split; [reflexivity|].
  intros (_ & H). specialize (H 3 ltac:(lia) ltac:(simpl; lia)).
  vm_compute in H. by apply H.
Qed.

Lemma lcp_bound_broken_signed_char_witness :
  sort_spec insertion_sort /\
  exists res,
    buildSuffixArrayAndLCP insertion_sort true (string_of_bytes [233; 233; 233; 233])
    = Some res /\
    lcp res !!! 3 = 2%Z /\
    String.length (string_of_bytes [233; 233; 233; 233])
    - max (sa res !!! 2) (sa res !!! 3) = 1 /\
    ~ lcp_bounded (text_codes true (string_of_bytes [233; 233; 233; 233]))
        (sa res) (lcp res).
Proof.
  split; [exact insertion_sort_spec|].
  exact (lcp_bound_broken_signed_char insertion_sort insertion_sort_spec).
Defined.

(** * Further properties *)

Lemma banana_nonneg : nonneg_codes (text_codes true "banana").
Proof. vm_compute. repeat constructor; discriminate. Qed.

Lemma sa_sorted_nonneg_witness :
  sort_spec insertion_sort /\
  nonneg_codes (text_codes true "banana") /\
  exists res,
    buildSuffixArrayAndLCP insertion_sort true "banana" = Some res /\
    suffixes_sorted (text_codes true "banana") (sa res).
Proof.
  split; [exact insertion_sort_spec|]. split; [exact banana_nonneg|].
  exact (sa_sorted_nonneg insertion_sort insertion_sort_spec true "banana"
           banana_nonneg).
Defined.

Lemma sa_strictly_sorted_nonneg_witness :
  sort_spec insertion_sort /\
  nonneg_codes (text_codes true "banana") /\
  exists res,
    buildSuffixArrayAndLCP insertion_sort true "banana" = Some res /\
    forall i j, i < j -> j < String.length "banana" ->
      lex_lt (suffix_at (text_codes true "banana") (sa res !!! i))
             (suffix_at (text_codes true "banana") (sa res !!! j)) = true.
Proof.
  split; [exact insertion_sort_spec|]. split; [exact banana_nonneg|].
  exact (sa_strictly_sorted_nonneg insertion_sort insertion_sort_spec true "banana"
           banana_nonneg).
Defined.

Lemma lcp_exact_nonneg_witness :
  sort_spec insertion_sort /\
  nonneg_codes (text_codes true "banana") /\
  0 < String.length "banana" /\
  exists res,
    buildSuffixArrayAndLCP insertion_sort true "banana" = Some res /\
    lcp_exact (text_codes true "banana") (sa res) (lcp res).
Proof.
  split; [exact insertion_sort_spec|]. split; [exact banana_nonneg|].
  split; [simpl; lia|].
  exact (lcp_exact_nonneg insertion_sort insertion_sort_spec true "banana"
           banana_nonneg ltac:(simpl; lia)).
Defined.

Lemma build_total_nonneg_witness :
  sort_spec insertion_sort /\
  nonneg_codes (text_codes true "banana") /\
  exists res, buildSuffixArrayAndLCP insertion_sort true "banana" = Some res.
Proof.
  split; [exact insertion_sort_spec|]. split; [exact banana_nonneg|].
  exact (build_total_nonneg insertion_sort insertion_sort_spec true "banana"
           banana_nonneg).
Defined.

Lemma lcp_bounds_nonneg_witness :
  sort_spec insertion_sort /\
  nonneg_codes (text_codes true "banana") /\
  0 < String.length "banana" /\
  exists res,
    buildSuffixArrayAndLCP insertion_sort true "banana" = Some res /\
    lcp_bounded (text_codes true "banana") (sa res) (lcp res).
Proof.
  split; [exact insertion_sort_spec|]. split; [exact banana_nonneg|].
  split; [simpl; lia|].
  exact (lcp_bounds_nonneg insertion_sort insertion_sort_spec true "banana"
           banana_nonneg ltac:(simpl; lia)).
Defined.

Lemma sentinel_below_ranks_nonneg_witness :
  sort_spec insertion_sort /\
  nonneg_codes (text_codes true "banana") /\
  loop_enters insertion_sort (String.length "banana")
    (initial_state (String.length "banana") (text_codes true "banana")) 0
    (initial_state (String.length "banana") (text_codes true "banana")) /\
  sentinel_below_ranks (String.length "banana")
    (initial_state (String.length "banana") (text_codes true "banana")) /\
  ending_suffix_first (String.length "banana")
    (initial_state (String.length "banana") (text_codes true "banana")).
Proof.
  split; [exact insertion_sort_spec|]. split; [exact banana_nonneg|].
  split; [apply enters_first|].
  exact (sentinel_below_ranks_nonneg insertion_sort insertion_sort_spec true "banana"
           banana_nonneg 0 _ (enters_first _ _ _)).
Defined.

(** Where [char] is unsigned the function is correct on every text: it
    returns, [SA] is the sorted permutation of the positions, and [LCP] is
    exact and bounded. *)
Theorem build_correct_unsigned_char std_sort text :
  sort_spec std_sort ->
  exists res,
    buildSuffixArrayAndLCP std_sort false text = Some res /\
    permutation_of_positions (String.length text) (sa res) /\
    suffixes_sorted (text_codes false text) (sa res) /\
    (0 < String.length text ->
     lcp_exact (text_codes false text) (sa res) (lcp res) /\
     lcp_bounded (text_codes false text) (sa res) (lcp res)).
Proof.
  intros Hsort.
  exact (build_props_nonneg std_sort Hsort false text (nonneg_codes_unsigned text)).
Qed.

Lemma build_correct_unsigned_char_witness :
  sort_spec insertion_sort /\
  exists res,
    buildSuffixArrayAndLCP insertion_sort false (string_of_bytes [233; 233]) = Some res /\
    permutation_of_positions (String.length (string_of_bytes [233; 233])) (sa res) /\
    suffixes_sorted (text_codes false (string_of_bytes [233; 233])) (sa res) /\
    (0 < String.length (string_of_bytes [233; 233]) ->
     lcp_exact (text_codes false (string_of_bytes [233; 233])) (sa res) (lcp res) /\
     lcp_bounded (text_codes false (string_of_bytes [233; 233])) (sa res) (lcp res)).
Proof.
  split; [exact insertion_sort_spec|].
  exact (build_correct_unsigned_char insertion_sort (string_of_bytes [233; 233])
           insertion_sort_spec).
Defined.

(** The result does not depend on which conforming [std::sort] is used,
    that is, on the order in which ties come out of it. *)
Theorem result_independent_of_sort sort1 sort2 sgn text :
  sort_spec sort1 -> sort_spec sort2 ->
  buildSuffixArrayAndLCP sort1 sgn text = buildSuffixArrayAndLCP sort2 sgn text.
Proof.
  intros H1 H2. unfold buildSuffixArrayAndLCP.
  by rewrite (build_with_fuel_deterministic sort1 sort2 H1 H2).
Qed.

Lemma result_independent_of_sort_witness :
  sort_spec insertion_sort /\
  sort_spec insertion_sort_from_end /\
  st_sa (pass insertion_sort (String.length "banana")
           (initial_state (String.length "banana") (text_codes true "banana")))
  <> st_sa (pass insertion_sort_from_end (String.length "banana")
              (initial_state (String.length "banana") (text_codes true "banana"))) /\
  buildSuffixArrayAndLCP insertion_sort true "banana"
  = buildSuffixArrayAndLCP insertion_sort_from_end true "banana".
Proof.
  split; [exact insertion_sort_spec|]. split; [exact insertion_sort_from_end_spec|].
  split; [vm_compute; discriminate|].
  exact (result_independent_of_sort insertion_sort insertion_sort_from_end true "banana"
           insertion_sort_spec insertion_sort_from_end_spec).
Defined.

(** The comparator handed to [std::sort] is a strict weak ordering, as
    [std::sort] requires, for every rank table and every [gap]. *)
Theorem comparator_is_strict_weak_order rank_array n gap :
  strict_weak_order (compare_suffixes rank_array n gap).
Proof. apply (pair_ltb_swo (sort_key rank_array n gap)). Qed.

(** The fuel of the model loses nothing, for any text, either sign of
    [char] and any conforming [std::sort]: the function returns [res]
    exactly when some amount of fuel lets the model return [res], and more
    fuel never changes a result; a doubling loop that reaches its [break]
    does so within [n] passes, so with the fuel [n + 1] as well; and Kasai's
    pass always ends with the fuel [n + 1], whatever [sa] and [rank_array]
    hold. *)
Theorem fuel_is_enough std_sort sgn text :
  sort_spec std_sort ->
  (forall res,
     buildSuffixArrayAndLCP std_sort sgn text = Some res <->
     exists fuel k, build_with_fuel std_sort sgn fuel text = Some (res, k)) /\
  (forall res fuel fuel' k,
     fuel <= fuel' ->
     build_with_fuel std_sort sgn fuel text = Some (res, k) ->
     build_with_fuel std_sort sgn fuel' text = Some (res, k)) /\
  (forall fuel st k,
     0 < String.length text ->
     doubling_loop std_sort fuel (String.length text)
       (initial_state (String.length text) (text_codes sgn text)) = Some (st, k) ->
     k <= String.length text /\
     doubling_loop std_sort (S (String.length text)) (String.length text)
       (initial_state (String.length text) (text_codes sgn text)) = Some (st, k)) /\
  (forall s rank_array,
     is_Some (kasai (S (String.length text)) (text_codes sgn text)
                (String.length text) s rank_array)).
Proof.
  intros Hsort. split; [|split; [|split]].
  - intros res. by apply build_returns_iff.
  - intros res fuel fuel' k Hle. by apply build_with_fuel_mono.
  - intros fuel st k Hn Hrun.
    set (n := String.length text) in *.
    assert (state_shape n (initial_state n (text_codes sgn text))) as Hsh.
    { unfold n. rewrite <- (length_text_codes sgn text). apply initial_state_shape. }
    assert (st_gap (initial_state n (text_codes sgn text)) = 1) as Hg
      by (unfold initial_state; by destruct (init_arrays n _)).
    assert (k <= n) as Hk.
    { destruct (doubling_loop_count std_sort Hsort n Hn fuel _ _ _ Hsh
                  ltac:(lia) Hrun) as [->|Hlt]; [lia|].
      pose proof (Nat.pow_gt_lin_r 2 (k - 1) ltac:(lia)). rewrite Hg in Hlt. lia. }
    split; [done|].
    apply (doubling_loop_fuel std_sort n fuel); [done|lia].
  - intros s r.
    destruct (kasai_fold_total (S (String.length text)) (text_codes sgn text)
                (String.length text) s r (String.length text)
                (replicate (String.length text) 0%Z) 0%Z ltac:(lia) ltac:(lia))
      as [[l h] Hk].
    unfold kasai. rewrite Hk. by eexists.
Qed.

Lemma fuel_is_enough_witness :
  sort_spec insertion_sort /\
  (forall res,
     buildSuffixArrayAndLCP insertion_sort true "banana" = Some res <->
     exists fuel k, build_with_fuel insertion_sort true fuel "banana" = Some (res, k)) /\
  (forall res fuel fuel' k,
     fuel <= fuel' ->
     build_with_fuel insertion_sort true fuel "banana" = Some (res, k) ->
     build_with_fuel insertion_sort true fuel' "banana" = Some (res, k)) /\
  (forall fuel st k,
     0 < String.length "banana" ->
     doubling_loop insertion_sort fuel (String.length "banana")
       (initial_state (String.length "banana") (text_codes true "banana")) = Some (st, k) ->
     k <= String.length "banana" /\
     doubling_loop insertion_sort (S (String.length "banana")) (String.length "banana")
       (initial_state (String.length "banana") (text_codes true "banana")) = Some (st, k)) /\
  (forall s rank_array,
     is_Some (kasai (S (String.length "banana")) (text_codes true "banana")
                (String.length "banana") s rank_array)).
Proof.
  split; [exact insertion_sort_spec|].
  exact (fuel_is_enough insertion_sort true "banana" insertion_sort_spec).
Defined.

(** Whenever the function returns, the body of the doubling loop has run
    [k] times with [k = 1] or [2 ^ (k - 1) < n]: at most about [log2 n]
    passes. *)
Theorem doubling_iterations_logarithmic std_sort sgn text k :
  sort_spec std_sort ->
  0 < String.length text ->
  doubling_iterations std_sort sgn text = Some k ->
  k = 1 \/ 2 ^ (k - 1) < String.length text.
Proof.
  intros Hsort Hn. unfold doubling_iterations, build_with_fuel.
  destruct (Nat.eqb_spec (String.length text) 0) as [|_]; [lia|].
  set (n := String.length text) in *.
  set (codes := text_codes sgn text).
  assert (exists f, f = S n) as (f & Hf) by (by eexists). rewrite <- Hf.
  destruct (doubling_loop std_sort f n _) as [[st k']|] eqn:E; [|done]. simpl.
  destruct (kasai f codes n (st_sa st) (st_rank st)); [|done]. simpl.
  intros [= ->].
  assert (state_shape n (initial_state n codes)) as Hsh.
  { unfold n, codes. rewrite <- (length_text_codes sgn text).
    apply initial_state_shape. }
  assert (st_gap (initial_state n codes) = 1) as Hg
    by (unfold initial_state; by destruct (init_arrays n codes)).
  destruct (doubling_loop_count std_sort Hsort n Hn f _ _ _ Hsh ltac:(lia) E)
    as [->|Hlt]; [by left|].
  right. rewrite Hg in Hlt. lia.
Qed.

Lemma doubling_iterations_logarithmic_witness :
  sort_spec insertion_sort /\
  0 < String.length "banana" /\
  doubling_iterations insertion_sort true "banana" = Some 2 /\
  (2 = 1 \/ 2 ^ (2 - 1) < String.length "banana").
Proof.
  split; [exact insertion_sort_spec|]. split; [simpl; lia|].
  split; [vm_compute; reflexivity|].
  exact (doubling_iterations_logarithmic insertion_sort true "banana" 2
           insertion_sort_spec ltac:(simpl; lia) ltac:(vm_compute; reflexivity)).
Defined.

(** For every text and either sign of [char], the [LCP] that the function
    returns has length [n], starts with 0 and holds no negative value. *)
Theorem lcp_shape_any_text std_sort sgn text res :
  buildSuffixArrayAndLCP std_sort sgn text = Some res ->
  length (lcp res) = String.length text /\
  (0 < String.length text -> lcp res !!! 0 = 0%Z) /\
  (forall i, i < String.length text -> (0 <= lcp res !!! i)%Z).
Proof.
  unfold buildSuffixArrayAndLCP, build_with_fuel.
  destruct (Nat.eqb_spec (String.length text) 0) as [Hz|Hz].
  - simpl. intros [= <-]. simpl. rewrite Hz. repeat split; intros; lia.
  - set (n := String.length text) in *.
    assert (exists f, f = S n) as (f & Hf) by (by eexists). rewrite <- Hf.
    destruct (doubling_loop std_sort f n _) as [[st k]|]; [|done]. simpl.
    destruct (kasai f _ n (st_sa st) (st_rank st)) as [l|] eqn:E; [|done].
    simpl. intros [= <-]. simpl.
    destruct (kasai_shape _ _ _ _ _ _ E) as (H1 & H2 & H3).
    split; [done|]. split; [done|]. intros i Hi.
    rewrite Forall_forall in H2. apply H2.
    apply list_elem_of_lookup_total_2. lia.
Qed.

Lemma lcp_shape_any_text_witness :
  buildSuffixArrayAndLCP insertion_sort true (string_of_bytes [233; 233; 233; 233])
  = Some (mkResult [2; 0; 1; 3] [0; 2; 3; 2]%Z) /\
  length (lcp (mkResult [2; 0; 1; 3] [0; 2; 3; 2]%Z))
  = String.length (string_of_bytes [233; 233; 233; 233]) /\
  (0 < String.length (string_of_bytes [233; 233; 233; 233]) ->
   lcp (mkResult [2; 0; 1; 3] [0; 2; 3; 2]%Z) !!! 0 = 0%Z) /\
  (forall i, i < String.length (string_of_bytes [233; 233; 233; 233]) ->
     (0 <= lcp (mkResult [2; 0; 1; 3]%nat [0; 2; 3; 2]) !!! i)%Z).
Proof.
  split; [vm_compute; reflexivity|].
  exact (lcp_shape_any_text insertion_sort true (string_of_bytes [233; 233; 233; 233])
           (mkResult [2; 0; 1; 3] [0; 2; 3; 2]%Z) ltac:(vm_compute; reflexivity)).
Defined.

(** For every text and either sign of [char], the indices that Kasai's
    pass computes from the final rank table are in range: every rank lies in
    [0..n-1], so [sa[rank_array[i] - 1]] (read when the rank is positive)
    and [lcp[rank_array[i]]] are inside their arrays, and [sa] holds
    positions of the text. *)
Theorem kasai_indices_in_range std_sort sgn text fuel st k i :
  sort_spec std_sort ->
  0 < String.length text ->
  doubling_loop std_sort fuel (String.length text)
    (initial_state (String.length text) (text_codes sgn text)) = Some (st, k) ->
  i < String.length text ->
  (0 <= st_rank st !!! i < Z.of_nat (String.length text))%Z /\
  Z.to_nat (st_rank st !!! i) < length (st_sa st) /\
  st_sa st !!! i < String.length text.
Proof.
  intros Hsort Hn Hrun Hi.
  set (n := String.length text) in *.
  assert (state_shape n (initial_state n (text_codes sgn text))) as Hsh0.
  { unfold n. rewrite <- (length_text_codes sgn text). apply initial_state_shape. }
  destruct (doubling_loop_enters _ _ _ _ _ _ Hrun) as (j & st1 & _ & Hent & -> & _).
  pose proof (loop_enters_shape std_sort n _ j st1 Hsort Hn Hsh0 Hent) as Hsh1.
  destruct (pass_shape std_sort Hsort n st1 Hn Hsh1)
    as ((Hp & _) & _ & _ & _ & Hsteps).
  destruct (perm_seq_position _ n i Hp Hi) as (a & Ha & Hsa).
  pose proof (rank_steps_nonneg _ _ _ _ Hsteps a Ha) as H0.
  pose proof (rank_steps_le _ _ _ _ Hsteps a Ha) as H1.
  rewrite Hsa in H0, H1.
  split; [lia|]. split.
  - rewrite (perm_seq_length _ n Hp). lia.
  - by apply (perm_seq_lookup_lt _ n).
Qed.

Lemma kasai_indices_in_range_witness :
  sort_spec insertion_sort /\
  0 < String.length "banana" /\
  doubling_loop insertion_sort 7 (String.length "banana")
    (initial_state (String.length "banana") (text_codes true "banana"))
  = Some (mkState 2 [5; 3; 1; 0; 4; 2] [3; 2; 5; 1; 4; 0]%Z [3; 2; 5; 1; 4; 0]%Z, 2) /\
  0 < String.length "banana" /\
  (0 <= st_rank (mkState 2%nat [5; 3; 1; 0; 4; 2]%nat [3; 2; 5; 1; 4; 0] [3; 2; 5; 1; 4; 0])
        !!! 0%nat
   < Z.of_nat (String.length "banana"))%Z /\
  Z.to_nat (st_rank (mkState 2 [5; 3; 1; 0; 4; 2] [3; 2; 5; 1; 4; 0]%Z [3; 2; 5; 1; 4; 0]%Z)
              !!! 0)
  < length (st_sa (mkState 2 [5; 3; 1; 0; 4; 2] [3; 2; 5; 1; 4; 0]%Z [3; 2; 5; 1; 4; 0]%Z)) /\
  st_sa (mkState 2 [5; 3; 1; 0; 4; 2] [3; 2; 5; 1; 4; 0]%Z [3; 2; 5; 1; 4; 0]%Z) !!! 0
  < String.length "banana".
Proof.
  split; [exact insertion_sort_spec|]. split; [simpl; lia|].
  split; [vm_compute; reflexivity|]. split; [simpl; lia|].
  exact (kasai_indices_in_range insertion_sort true "banana" 7
           (mkState 2 [5; 3; 1; 0; 4; 2] [3; 2; 5; 1; 4; 0]%Z [3; 2; 5; 1; 4; 0]%Z) 2 0
           insertion_sort_spec ltac:(simpl; lia) ltac:(vm_compute; reflexivity)
           ltac:(simpl; lia)).
Defined.

(** * Properties of the function on every text, and of the programs
    around it *)

(** For every text, either sign of [char] and any conforming [std::sort],
    the function returns exactly when the text does not end with two
    symbols of value [-1]; when it does, the doubling loop never reaches its
    [break].  A symbol has the value [-1] exactly when [char] is signed and
    the byte is [0xFF]. *)
Theorem build_returns_unless_sentinel_pair std_sort sgn text :
  sort_spec std_sort ->
  (is_Some (buildSuffixArrayAndLCP std_sort sgn text)
   <-> ends_with_sentinel_pair (text_codes sgn text) = false) /\
  (ends_with_sentinel_pair (text_codes sgn text) = true ->
   forall fuel, build_with_fuel std_sort sgn fuel text = None) /\
  (forall c, char_to_int sgn c = (-1)%Z <-> sgn = true /\ c = ascii_of_nat 255).
Proof.
  intros Hsort. split; [|split].
  - split.
    + intros [res Hres].
      destruct (ends_with_sentinel_pair (text_codes sgn text)) eqn:E; [|done].
      unfold buildSuffixArrayAndLCP in Hres.
      by rewrite (build_diverges_sentinel_pair std_sort sgn text _ Hsort E) in Hres.
    + intros E. destruct (build_returns_padded std_sort sgn text Hsort E) as [res ->].
      by eexists.
  - intros E fuel. by apply build_diverges_sentinel_pair.
  - intros c. apply char_to_int_sentinel.
Qed.

Lemma build_returns_unless_sentinel_pair_witness :
  sort_spec insertion_sort /\
  (is_Some (buildSuffixArrayAndLCP insertion_sort true (string_of_bytes [97; 255; 255]))
   <-> ends_with_sentinel_pair (text_codes true (string_of_bytes [97; 255; 255])) = false) /\
  (ends_with_sentinel_pair (text_codes true (string_of_bytes [97; 255; 255])) = true ->
   forall fuel,
     build_with_fuel insertion_sort true fuel (string_of_bytes [97; 255; 255]) = None) /\
  (forall c, char_to_int true c = (-1)%Z <-> true = true /\ c = ascii_of_nat 255).
Proof.
  split; [exact insertion_sort_spec|].
  exact (build_returns_unless_sentinel_pair insertion_sort true
           (string_of_bytes [97; 255; 255]) insertion_sort_spec).
Defined.

(** For every text, either sign of [char] and any conforming [std::sort]:
    whenever the function returns, the suffixes are in strictly increasing
    order along [SA] when each is read with a [-1] appended if its length is
    odd. *)
Theorem sa_sorted_by_padded_suffixes std_sort sgn text res i j :
  sort_spec std_sort ->
  buildSuffixArrayAndLCP std_sort sgn text = Some res ->
  i < j -> j < String.length text ->
  lex_lt (padded_suffix (text_codes sgn text) (sa res !!! i))
         (padded_suffix (text_codes sgn text) (sa res !!! j)) = true.
Proof.
  intros Hsort Hrun Hij Hj. apply lex_lt_compare.
  by apply (build_sorted_padded std_sort).
Qed.

Lemma sa_sorted_by_padded_suffixes_witness :
  sort_spec insertion_sort /\
  buildSuffixArrayAndLCP insertion_sort true (string_of_bytes [233; 233; 233; 233])
  = Some (mkResult [2; 0; 1; 3] [0; 2; 3; 2]%Z) /\
  1 < 2 /\ 2 < String.length (string_of_bytes [233; 233; 233; 233]) /\
  lex_lt (padded_suffix (text_codes true (string_of_bytes [233; 233; 233; 233]))
            (sa (mkResult [2; 0; 1; 3] [0; 2; 3; 2]%Z) !!! 1))
         (padded_suffix (text_codes true (string_of_bytes [233; 233; 233; 233]))
            (sa (mkResult [2; 0; 1; 3] [0; 2; 3; 2]%Z) !!! 2)) = true.
Proof.
  split; [exact insertion_sort_spec|]. split; [vm_compute; reflexivity|].
  split; [lia|]. split; [simpl; lia|].
  exact (sa_sorted_by_padded_suffixes insertion_sort true
           (string_of_bytes [233; 233; 233; 233])
           (mkResult [2; 0; 1; 3] [0; 2; 3; 2]%Z) 1 2
           insertion_sort_spec ltac:(vm_compute; reflexivity) ltac:(lia)
           ltac:(simpl; lia)).
Defined.

(** In every pass of the doubling loop, on any text: the exit test
    [rank_array[sa[n-1]] == n - 1] holds exactly when the new ranks of the
    [n] positions are pairwise distinct, which is exactly when no two
    positions had the same pair (rank, next rank) in this pass. *)
Theorem exit_test_iff_distinct std_sort sgn text k st :
  sort_spec std_sort ->
  0 < String.length text ->
  loop_enters std_sort (String.length text)
    (initial_state (String.length text) (text_codes sgn text)) k st ->
  (all_ranked (String.length text) (pass std_sort (String.length text) st) = true
   <-> forall i j, i < String.length text -> j < String.length text ->
         st_rank (pass std_sort (String.length text) st) !!! i
         = st_rank (pass std_sort (String.length text) st) !!! j -> i = j) /\
  (all_ranked (String.length text) (pass std_sort (String.length text) st) = true
   <-> forall i j, i < String.length text -> j < String.length text ->
         sort_key (st_rank st) (String.length text) (st_gap st) i
         = sort_key (st_rank st) (String.length text) (st_gap st) j -> i = j).
Proof.
  intros Hsort Hn Hent.
  set (n := String.length text) in *.
  assert (state_shape n st) as Hshape.
  { eapply loop_enters_shape; [done|done| |exact Hent].
    unfold n. rewrite <- (length_text_codes sgn text). apply initial_state_shape. }
  assert (all_ranked n (pass std_sort n st) = true
          <-> forall i j, i < n -> j < n ->
                st_rank (pass std_sort n st) !!! i
                = st_rank (pass std_sort n st) !!! j -> i = j) as Hiff.
  { split.
    - intros Hex i j. by apply (exit_ranks_distinct std_sort Hsort n st).
    - by apply distinct_ranks_exit. }
  split; [done|]. rewrite Hiff. split.
  - intros Hinj i j Hi Hj Hkey. apply Hinj; try done. apply Z.compare_eq.
    rewrite (pass_rank_compare std_sort Hsort n st Hn Hshape) by done.
    rewrite Hkey. apply pair_compare_refl.
  - intros Hinj i j Hi Hj Hr. apply Hinj; try done. apply pair_compare_eq.
    rewrite <- (pass_rank_compare std_sort Hsort n st Hn Hshape) by done.
    rewrite Hr. apply Z.compare_refl.
Qed.

Lemma exit_test_iff_distinct_witness :
  sort_spec insertion_sort /\
  0 < String.length "banana" /\
  loop_enters insertion_sort (String.length "banana")
    (initial_state (String.length "banana") (text_codes true "banana")) 0
    (initial_state (String.length "banana") (text_codes true "banana")) /\
  (all_ranked (String.length "banana")
     (pass insertion_sort (String.length "banana")
        (initial_state (String.length "banana") (text_codes true "banana"))) = true
   <-> forall i j, i < String.length "banana" -> j < String.length "banana" ->
         st_rank (pass insertion_sort (String.length "banana")
                    (initial_state (String.length "banana") (text_codes true "banana"))) !!! i
         = st_rank (pass insertion_sort (String.length "banana")
                      (initial_state (String.length "banana") (text_codes true "banana"))) !!! j ->
         i = j) /\
  (all_ranked (String.length "banana")
     (pass insertion_sort (String.length "banana")
        (initial_state (String.length "banana") (text_codes true "banana"))) = true
   <-> forall i j, i < String.length "banana" -> j < String.length "banana" ->
         sort_key (st_rank (initial_state (String.length "banana") (text_codes true "banana")))
           (String.length "banana")
           (st_gap (initial_state (String.length "banana") (text_codes true "banana"))) i
         = sort_key (st_rank (initial_state (String.length "banana") (text_codes true "banana")))
             (String.length "banana")
             (st_gap (initial_state (String.length "banana") (text_codes true "banana"))) j ->
         i = j).
Proof.
  split; [exact insertion_sort_spec|]. split; [simpl; lia|].
  split; [apply enters_first|].
  exact (exit_test_iff_distinct insertion_sort true "banana" 0 _
           insertion_sort_spec ltac:(simpl; lia) (enters_first _ _ _)).
Defined.

(** In every pass of the doubling loop, on any text: the new rank table
    compares two positions as their pairs (rank, next rank) compare, so a
    pass never merges or reverses ranks that already differed; the new ranks
    lie in [0..n-1] and leave no gap below a rank in use. *)
Theorem pass_ranks_dense_key_ranks std_sort sgn text k st i j :
  sort_spec std_sort ->
  0 < String.length text ->
  loop_enters std_sort (String.length text)
    (initial_state (String.length text) (text_codes sgn text)) k st ->
  i < String.length text -> j < String.length text ->
  (st_rank (pass std_sort (String.length text) st) !!! i
   ?= st_rank (pass std_sort (String.length text) st) !!! j)%Z
  = pair_compare (sort_key (st_rank st) (String.length text) (st_gap st) i)
                 (sort_key (st_rank st) (String.length text) (st_gap st) j) /\
  ((st_rank st !!! i < st_rank st !!! j)%Z ->
   (st_rank (pass std_sort (String.length text) st) !!! i
    < st_rank (pass std_sort (String.length text) st) !!! j)%Z) /\
  (0 <= st_rank (pass std_sort (String.length text) st) !!! i
   <= Z.of_nat (String.length text) - 1)%Z /\
  (forall v, (0 <= v <= st_rank (pass std_sort (String.length text) st) !!! i)%Z ->
     exists p, p < String.length text /\
       st_rank (pass std_sort (String.length text) st) !!! p = v).
Proof.
  intros Hsort Hn Hent Hi Hj.
  set (n := String.length text) in *.
  assert (state_shape n st) as Hshape.
  { eapply loop_enters_shape; [done|done| |exact Hent].
    unfold n. rewrite <- (length_text_codes sgn text). apply initial_state_shape. }
  pose proof (pass_rank_compare std_sort Hsort n st Hn Hshape i j Hi Hj) as Hcmp.
  split; [done|]. split; [|split].
  - intros Hlt. unfold Z.lt in *. rewrite Hcmp.
    unfold pair_compare, sort_key. simpl. by rewrite Hlt.
  - by apply pass_rank_bounds.
  - intros v Hv. by apply (pass_rank_dense std_sort Hsort n st Hn Hshape i).
Qed.

Lemma pass_ranks_dense_key_ranks_witness :
  sort_spec insertion_sort /\
  0 < String.length "banana" /\
  loop_enters insertion_sort (String.length "banana")
    (initial_state (String.length "banana") (text_codes true "banana")) 0
    (initial_state (String.length "banana") (text_codes true "banana")) /\
  1 < String.length "banana" /\ 0 < String.length "banana" /\
  (st_rank (pass insertion_sort (String.length "banana")
              (initial_state (String.length "banana") (text_codes true "banana"))) !!! 1%nat
   ?= st_rank (pass insertion_sort (String.length "banana")
                 (initial_state (String.length "banana") (text_codes true "banana"))) !!! 0%nat)%Z
  = pair_compare
      (sort_key (st_rank (initial_state (String.length "banana") (text_codes true "banana")))
         (String.length "banana")
         (st_gap (initial_state (String.length "banana") (text_codes true "banana"))) 1)
      (sort_key (st_rank (initial_state (String.length "banana") (text_codes true "banana")))
         (String.length "banana")
         (st_gap (initial_state (String.length "banana") (text_codes true "banana"))) 0) /\
  ((st_rank (initial_state (String.length "banana") (text_codes true "banana")) !!! 1%nat
    < st_rank (initial_state (String.length "banana") (text_codes true "banana")) !!! 0%nat)%Z ->
   (st_rank (pass insertion_sort (String.length "banana")
               (initial_state (String.length "banana") (text_codes true "banana"))) !!! 1%nat
    < st_rank (pass insertion_sort (String.length "banana")
                 (initial_state (String.length "banana") (text_codes true "banana"))) !!! 0%nat)%Z) /\
  (0 <= st_rank (pass insertion_sort (String.length "banana")
                   (initial_state (String.length "banana") (text_codes true "banana"))) !!! 1%nat
   <= Z.of_nat (String.length "banana") - 1)%Z /\
  (forall v,
     (0 <= v <= st_rank (pass insertion_sort (String.length "banana")
                           (initial_state (String.length "banana")
                              (text_codes true "banana"))) !!! 1%nat)%Z ->
     exists p, p < String.length "banana" /\
       st_rank (pass insertion_sort (String.length "banana")
                  (initial_state (String.length "banana") (text_codes true "banana"))) !!! p
       = v).
Proof.
  split; [exact insertion_sort_spec|]. split; [simpl; lia|].
  split; [apply enters_first|]. split; [simpl; lia|]. split; [simpl; lia|].
  exact (pass_ranks_dense_key_ranks insertion_sort true "banana" 0 _ 1 0
           insertion_sort_spec ltac:(simpl; lia) (enters_first _ _ _)
           ltac:(simpl; lia) ltac:(simpl; lia)).
Defined.

(** For a text of non-negative symbols and any conforming [std::sort], the
    [SA] that the function returns is the only arrangement of the positions
    [0..n-1] in which each suffix is [<=] the next: any such arrangement is
    equal to it. *)
Theorem sa_unique_sorted_permutation std_sort sgn text p :
  sort_spec std_sort ->
  nonneg_codes (text_codes sgn text) ->
  permutation_of_positions (String.length text) p ->
  suffixes_sorted (text_codes sgn text) p ->
  exists res,
    buildSuffixArrayAndLCP std_sort sgn text = Some res /\ sa res = p.
Proof.
  intros Hsort Hnn [_ Hperm] Hsorted.
  destruct (build_result_nonneg std_sort Hsort sgn text Hnn)
    as (res & Hrun & Hp & Hs & _).
  exists res. split; [done|].
  rewrite <- (length_text_codes sgn text) in *.
  apply (strictly_sorted_unique (text_codes sgn text)); try done.
  intros a b Hab Hb. by apply sorted_strict.
Qed.

Lemma sa_unique_sorted_permutation_witness :
  sort_spec insertion_sort /\
  nonneg_codes (text_codes true "banana") /\
  permutation_of_positions (String.length "banana") [5; 3; 1; 0; 4; 2] /\
  suffixes_sorted (text_codes true "banana") [5; 3; 1; 0; 4; 2] /\
  exists res,
    buildSuffixArrayAndLCP insertion_sort true "banana" = Some res /\
    sa res = [5; 3; 1; 0; 4; 2].
Proof.
  assert (permutation_of_positions (String.length "banana") [5; 3; 1; 0; 4; 2])
    as Hperm.
  { split; [reflexivity|].
    change [5; 3; 1; 0; 4; 2] with (naive_suffix_array (text_codes true "banana")).
    apply naive_suffix_array_perm. }
  assert (suffixes_sorted (text_codes true "banana") [5; 3; 1; 0; 4; 2]) as Hs.
  { intros i H1 H2.
    do 6 (destruct i as [|i]; [try lia; vm_compute; reflexivity|]).
    simpl in H2. lia. }
  split; [exact insertion_sort_spec|]. split; [exact banana_nonneg|].
  split; [exact Hperm|]. split; [exact Hs|].
  exact (sa_unique_sorted_permutation insertion_sort true "banana" [5; 3; 1; 0; 4; 2]
           insertion_sort_spec banana_nonneg Hperm Hs).
Defined.

(** For a text of non-negative symbols and any conforming [std::sort], the
    function returns what the definitions give directly: the positions
    sorted by comparing whole suffixes, and for each pair of neighbours in
    that order the length of their common prefix counted symbol by
    symbol. *)
Theorem build_equals_naive std_sort sgn text :
  sort_spec std_sort ->
  nonneg_codes (text_codes sgn text) ->
  buildSuffixArrayAndLCP std_sort sgn text
  = Some (naive_build (text_codes sgn text)).
Proof. apply build_naive_nonneg. Qed.

Lemma build_equals_naive_witness :
  sort_spec insertion_sort /\
  nonneg_codes (text_codes true "banana") /\
  buildSuffixArrayAndLCP insertion_sort true "banana"
  = Some (naive_build (text_codes true "banana")).
Proof.
  split; [exact insertion_sort_spec|]. split; [exact banana_nonneg|].
  exact (build_equals_naive insertion_sort true "banana"
           insertion_sort_spec banana_nonneg).
Defined.

(** Whatever the contents of [sa] and [rank_array], whenever Kasai's pass
    ends, the body of its [while] loop ([h++]) has run at most [2 * n] times
    in total over the [n] iterations of the [for] loop, and counting the
    iterations does not change the array computed. *)
Theorem kasai_while_iterations_linear fuel codes n s rank_array l :
  kasai fuel codes n s rank_array = Some l ->
  exists steps,
    kasai_count fuel codes n s rank_array = Some (l, steps) /\ steps <= 2 * n.
Proof. apply kasai_count_linear. Qed.

Lemma kasai_while_iterations_linear_witness :
  kasai 7 (text_codes true "banana") 6 [5; 3; 1; 0; 4; 2] [3; 2; 5; 1; 4; 0]%Z
  = Some [0; 1; 3; 0; 0; 2]%Z /\
  exists steps,
    kasai_count 7 (text_codes true "banana") 6 [5; 3; 1; 0; 4; 2] [3; 2; 5; 1; 4; 0]%Z
    = Some ([0; 1; 3; 0; 0; 2]%Z, steps) /\ steps <= 2 * 6.
Proof.
  split; [vm_compute; reflexivity|].
  exact (kasai_while_iterations_linear 7 (text_codes true "banana") 6
           [5; 3; 1; 0; 4; 2] [3; 2; 5; 1; 4; 0]%Z [0; 1; 3; 0; 0; 2]%Z
           ltac:(vm_compute; reflexivity)).
Defined.

(** [testBuildSuffixArrayAndLCP] passes its fourteen assertions and prints
    its report, with any conforming [std::sort] and either sign of
    [char]: no assertion depends on how ties are sorted. *)
Theorem test_driver_passes std_sort sgn :
  sort_spec std_sort ->
  testBuildSuffixArrayAndLCP std_sort sgn
  = Returns tt
      (lines ["Test case 1 passed."; "Test case 2 passed.";
              "Test case 3 passed."; "Test case 4 passed.";
              "Test case 5 passed."; "Test case 6 passed.";
              "Test case 7 passed."; EmptyString;
              "All tests passed successfully!"]%string).
Proof.
  intros Hsort. rewrite test_driver_insertion by done.
  destruct sgn; vm_compute; reflexivity.
Qed.

Lemma test_driver_passes_witness :
  sort_spec insertion_sort /\
  testBuildSuffixArrayAndLCP insertion_sort true
  = Returns tt
      (lines ["Test case 1 passed."; "Test case 2 passed.";
              "Test case 3 passed."; "Test case 4 passed.";
              "Test case 5 passed."; "Test case 6 passed.";
              "Test case 7 passed."; EmptyString;
              "All tests passed successfully!"]%string).
Proof.
  split; [exact insertion_sort_spec|].
  exact (test_driver_passes insertion_sort true insertion_sort_spec).
Defined.

(** [main] returns 0, with any conforming [std::sort] and either sign of
    [char], and what it has written to [cout] by then is the report of the
    tests followed by the sample run on "banana": the two arrays and the six
    suffixes in lexicographic order. *)
Theorem main_returns_zero std_sort sgn :
  sort_spec std_sort ->
  main std_sort sgn
  = Returns 0%Z
      (lines ["Test case 1 passed."; "Test case 2 passed.";
              "Test case 3 passed."; "Test case 4 passed.";
              "Test case 5 passed."; "Test case 6 passed.";
              "Test case 7 passed."; EmptyString;
              "All tests passed successfully!";
              "Building Suffix Array and LCP for: "
                ++ String "034" "banana" ++ String "034" EmptyString;
              "Suffix Array (SA): 5 3 1 0 4 2 ";
              "LCP Array (LCP): 0 1 3 0 0 2 ";
              EmptyString;
              "Suffixes in Lexicographical Order:";
              "SA[0]=5, LCP[0]=0: a";
              "SA[1]=3, LCP[1]=1: ana";
              "SA[2]=1, LCP[2]=3: anana";
              "SA[3]=0, LCP[3]=0: banana";
              "SA[4]=4, LCP[4]=0: na";
              "SA[5]=2, LCP[5]=2: nana";
              EmptyString]%string).
Proof.
  intros Hsort. unfold main, runBuildSuffixArrayAndLCPSample.
  rewrite test_driver_insertion, sample_report_insertion by done.
  destruct sgn; vm_compute; reflexivity.
Qed.

Lemma main_returns_zero_witness :
  sort_spec insertion_sort /\
  main insertion_sort false
  = Returns 0%Z
      (lines ["Test case 1 passed."; "Test case 2 passed.";
              "Test case 3 passed."; "Test case 4 passed.";
              "Test case 5 passed."; "Test case 6 passed.";
              "Test case 7 passed."; EmptyString;
              "All tests passed successfully!";
              "Building Suffix Array and LCP for: "
                ++ String "034" "banana" ++ String "034" EmptyString;
              "Suffix Array (SA): 5 3 1 0 4 2 ";
              "LCP Array (LCP): 0 1 3 0 0 2 ";
              EmptyString;
              "Suffixes in Lexicographical Order:";
              "SA[0]=5, LCP[0]=0: a";
              "SA[1]=3, LCP[1]=1: ana";
              "SA[2]=1, LCP[2]=3: anana";
              "SA[3]=0, LCP[3]=0: banana";
              "SA[4]=4, LCP[4]=0: na";
              "SA[5]=2, LCP[5]=2: nana";
              EmptyString]%string).
Proof.
  split; [exact insertion_sort_spec|].
  exact (main_returns_zero insertion_sort false insertion_sort_spec).
Defined.

(** The body of [runBuildSuffixArrayAndLCPSample] on any text in place of
    "banana": if [buildSuffixArrayAndLCP] returns, the two arrays have the
    same length, so [result.lcp[i]] is in range for every [i] below
    [result.sa.size()], every [result.sa[i]] is at most the length of the
    text, so [substr] does not throw, and the report runs to its end; if it
    does not return, neither does the report. *)
Theorem sample_report_outcome std_sort sgn text :
  sort_spec std_sort ->
  match buildSuffixArrayAndLCP std_sort sgn text with
  | Some res =>
      length (lcp res) = length (sa res) /\
      (forall i, i < length (sa res) -> sa res !!! i <= String.length text) /\
      exists out, sample_report std_sort sgn text = Returns tt out
  | None => exists out, sample_report std_sort sgn text = NeverReturns out
  end.
Proof.
  intros Hsort. unfold sample_report.
  destruct (buildSuffixArrayAndLCP std_sort sgn text) as [res|] eqn:E.
  - destruct (build_lengths _ _ _ _ Hsort E) as (H1 & H2 & H3).
    split; [congruence|]. split.
    { intros i Hi. rewrite H1 in Hi. specialize (H3 i Hi). lia. }
    unfold for_range.
    cbn [call mbind outcome_mbind outcome_bind mret outcome_ret cout endl].
    match goal with
    | |- context [for_each (sa res) ?b] =>
        destruct (for_each_returns (sa res) b) as [o1 ->]; [by eexists|]
    end.
    match goal with
    | |- context [for_each (lcp res) ?b] =>
        destruct (for_each_returns (lcp res) b) as [o2 ->]; [by eexists|]
    end.
    match goal with
    | |- context [for_each (seq 0 (length (sa res))) ?b] =>
        destruct (for_each_returns (seq 0 (length (sa res))) b) as [o3 ->]
    end.
    { intros i Hi. apply elem_of_seq in Hi. rewrite H1 in Hi.
      specialize (H3 i ltac:(lia)). unfold substr.
      destruct (Nat.leb_spec (sa res !!! i) (String.length text)); [|lia].
      by eexists. }
    by eexists.
  - by eexists.
Qed.

Lemma sample_report_outcome_witness :
  sort_spec insertion_sort /\
  match buildSuffixArrayAndLCP insertion_sort true (string_of_bytes [233; 233]) with
  | Some res =>
      length (lcp res) = length (sa res) /\
      (forall i, i < length (sa res) ->
         sa res !!! i <= String.length (string_of_bytes [233; 233])) /\
      exists out,
        sample_report insertion_sort true (string_of_bytes [233; 233]) = Returns tt out
  | None =>
      exists out,
        sample_report insertion_sort true (string_of_bytes [233; 233]) = NeverReturns out
  end.
Proof.
  split; [exact insertion_sort_spec|].
  exact (sample_report_outcome insertion_sort true (string_of_bytes [233; 233])
           insertion_sort_spec).
Defined.

(** On any non-empty text, the pass entered after [k] earlier ones reaches
    the [break] exactly when the first [2^(k+1)] symbols of the [n] suffixes,
    each suffix of odd length read with a [-1] appended, are pairwise
    distinct; on a text of non-negative symbols, exactly when the first
    [2^(k+1)] symbols of the [n] suffixes themselves are pairwise
    distinct. *)
Theorem exit_iff_prefixes_distinct std_sort sgn text k st :
  sort_spec std_sort ->
  0 < String.length text ->
  loop_enters std_sort (String.length text)
    (initial_state (String.length text) (text_codes sgn text)) k st ->
  (all_ranked (String.length text) (pass std_sort (String.length text) st) = true
   <-> forall i j, i < String.length text -> j < String.length text ->
         take (2 ^ (k + 1)) (padded_suffix (text_codes sgn text) i)
         = take (2 ^ (k + 1)) (padded_suffix (text_codes sgn text) j) -> i = j) /\
  (nonneg_codes (text_codes sgn text) ->
   (all_ranked (String.length text) (pass std_sort (String.length text) st) = true
    <-> forall i j, i < String.length text -> j < String.length text ->
          take (2 ^ (k + 1)) (suffix_at (text_codes sgn text) i)
          = take (2 ^ (k + 1)) (suffix_at (text_codes sgn text) j) -> i = j)).
Proof.
  intros Hsort Hn Hent.
  rewrite <- (length_text_codes sgn text) in *.
  set (codes := text_codes sgn text) in *.
  assert (st_gap st * 2 = 2 ^ (k + 1)) as <-.
  { rewrite (loop_enters_gap _ _ _ _ _ Hent), initial_state_gap.
    rewrite Nat.add_1_r, Nat.pow_succ_r'. lia. }
  split.
  - apply exit_iff_padded_distinct; [done|done|].
    by apply (loop_enters_padded_inv std_sort Hsort codes Hn k).
  - intros Hnn. apply exit_iff_prefixes_distinct_nonneg; [done|done|].
    by apply (loop_enters_inv std_sort codes k).
Qed.

Lemma exit_iff_prefixes_distinct_witness :
  sort_spec insertion_sort /\
  0 < String.length "banana" /\
  loop_enters insertion_sort (String.length "banana")
    (initial_state (String.length "banana") (text_codes true "banana")) 0
    (initial_state (String.length "banana") (text_codes true "banana")) /\
  (all_ranked (String.length "banana")
     (pass insertion_sort (String.length "banana")
        (initial_state (String.length "banana") (text_codes true "banana"))) = true
   <-> forall i j, i < String.length "banana" -> j < String.length "banana" ->
         take (2 ^ (0 + 1)) (padded_suffix (text_codes true "banana") i)
         = take (2 ^ (0 + 1)) (padded_suffix (text_codes true "banana") j) -> i = j) /\
  (nonneg_codes (text_codes true "banana") ->
   (all_ranked (String.length "banana")
      (pass insertion_sort (String.length "banana")
         (initial_state (String.length "banana") (text_codes true "banana"))) = true
    <-> forall i j, i < String.length "banana" -> j < String.length "banana" ->
          take (2 ^ (0 + 1)) (suffix_at (text_codes true "banana") i)
          = take (2 ^ (0 + 1)) (suffix_at (text_codes true "banana") j) -> i = j)).
Proof.
  split; [exact insertion_sort_spec|]. split; [simpl; lia|].
  split; [apply enters_first|].
  exact (exit_iff_prefixes_distinct insertion_sort true "banana" 0 _
           insertion_sort_spec ltac:(simpl; lia) (enters_first _ _ _)).
Defined.

(** In a run of the doubling loop that reaches its [break] after [k]
    passes, on any non-empty text: a pass is entered only with a number [j]
    below [k], its [gap] is [2^j], and from the second pass on [gap] is
    below [n], so that [i + gap] stays below [2 * n] for every position
    [i]. *)
Theorem gap_stays_below_length std_sort sgn text fuel st' k j st :
  sort_spec std_sort ->
  0 < String.length text ->
  doubling_loop std_sort fuel (String.length text)
    (initial_state (String.length text) (text_codes sgn text)) = Some (st', k) ->
  loop_enters std_sort (String.length text)
    (initial_state (String.length text) (text_codes sgn text)) j st ->
  j < k /\ st_gap st = 2 ^ j /\ (j = 0 \/ st_gap st < String.length text).
Proof.
  intros Hsort Hn Hrun Hent.
  pose proof (loop_enters_before_exit _ _ _ _ _ _ _ _ Hrun Hent) as Hjk.
  pose proof (loop_enters_gap _ _ _ _ _ Hent) as Hgap.
  rewrite initial_state_gap in Hgap.
  split; [done|]. split; [lia|].
  destruct (decide (j = 0)) as [|Hj]; [by left|right].
  assert (state_shape (String.length text)
            (initial_state (String.length text) (text_codes sgn text))) as Hsh.
  { rewrite <- (length_text_codes sgn text). apply initial_state_shape. }
  destruct (doubling_loop_count std_sort Hsort _ Hn fuel _ _ _ Hsh
              ltac:(rewrite initial_state_gap; lia) Hrun) as [->|Hlt]; [lia|].
  rewrite initial_state_gap in Hlt. rewrite Hgap.
  pose proof (Nat.pow_le_mono_r 2 j (k - 1) ltac:(lia) ltac:(lia)). lia.
Qed.

Lemma gap_stays_below_length_witness :
  sort_spec insertion_sort /\
  0 < String.length "banana" /\
  doubling_loop insertion_sort 7 (String.length "banana")
    (initial_state (String.length "banana") (text_codes true "banana"))
  = Some (mkState 2 [5; 3; 1; 0; 4; 2] [3; 2; 5; 1; 4; 0]%Z [3; 2; 5; 1; 4; 0]%Z, 2) /\
  loop_enters insertion_sort (String.length "banana")
    (initial_state (String.length "banana") (text_codes true "banana")) 0
    (initial_state (String.length "banana") (text_codes true "banana")) /\
  0 < 2 /\
  st_gap (initial_state (String.length "banana") (text_codes true "banana")) = 2 ^ 0 /\
  (0 = 0 \/
   st_gap (initial_state (String.length "banana") (text_codes true "banana"))
   < String.length "banana").
Proof.
  split; [exact insertion_sort_spec|]. split; [simpl; lia|].
  split; [vm_compute; reflexivity|]. split; [apply enters_first|].
  exact (gap_stays_below_length insertion_sort true "banana" 7 _ 2 0 _
           insertion_sort_spec ltac:(simpl; lia) ltac:(vm_compute; reflexivity)
           (enters_first _ _ _)).
Defined.

(** On the text of [n] copies of one character whose [int] value is not
    negative (the third test, "aaaaa", for any length), with any conforming
    [std::sort]: [SA] lists the positions from the last to the first and
    [LCP[i] = i]. *)
Theorem build_all_equal_text std_sort sgn c n :
  sort_spec std_sort ->
  (0 <= char_to_int sgn c)%Z ->
  buildSuffixArrayAndLCP std_sort sgn (repeat_char c n)
  = Some (mkResult (reverse (seq 0 n)) (Z.of_nat <$> seq 0 n)).
Proof. apply build_all_equal_nonneg. Qed.

Lemma build_all_equal_text_witness :
  sort_spec insertion_sort /\
  (0 <= char_to_int true "a")%Z /\
  buildSuffixArrayAndLCP insertion_sort true (repeat_char "a" 5)
  = Some (mkResult (reverse (seq 0 5)) (Z.of_nat <$> seq 0 5)).
Proof.
  split; [exact insertion_sort_spec|]. split; [vm_compute; discriminate|].
  exact (build_all_equal_text insertion_sort true "a" 5 insertion_sort_spec
           ltac:(vm_compute; discriminate)).
Defined.

(** On a text whose symbols are strictly increasing as [int]s (the fourth
    test, "abcde"), with any conforming [std::sort] and either sign of
    [char], negative symbols included: [SA] is [0, 1, ..., n-1], every [LCP]
    value is 0, and the doubling loop reaches its [break] in its first
    pass. *)
Theorem build_increasing_text std_sort sgn text :
  sort_spec std_sort ->
  (forall i j, i < j -> j < String.length text ->
     (text_codes sgn text !!! i < text_codes sgn text !!! j)%Z) ->
  buildSuffixArrayAndLCP std_sort sgn text
  = Some (mkResult (seq 0 (String.length text))
                   (replicate (String.length text) 0%Z)) /\
  (0 < String.length text -> doubling_iterations std_sort sgn text = Some 1).
Proof.
  intros Hsort Hinc. unfold buildSuffixArrayAndLCP, doubling_iterations.
  destruct (decide (String.length text = 0)) as [Hz|Hz].
  - rewrite (build_empty std_sort sgn _ text Hz), Hz. split; [done|lia].
  - rewrite (build_increasing std_sort sgn text Hsort ltac:(lia) Hinc).
    split; done.
Qed.

Lemma build_increasing_text_witness :
  sort_spec insertion_sort /\
  (forall i j, i < j -> j < String.length (string_of_bytes [200; 201; 97]) ->
     (text_codes true (string_of_bytes [200; 201; 97]%nat) !!! i
      < text_codes true (string_of_bytes [200; 201; 97]%nat) !!! j)%Z) /\
  buildSuffixArrayAndLCP insertion_sort true (string_of_bytes [200; 201; 97])
  = Some (mkResult (seq 0 (String.length (string_of_bytes [200; 201; 97])))
                   (replicate (String.length (string_of_bytes [200; 201; 97])) 0%Z)) /\
  (0 < String.length (string_of_bytes [200; 201; 97]) ->
   doubling_iterations insertion_sort true (string_of_bytes [200; 201; 97]) = Some 1).
Proof.
  assert (forall i j, i < j -> j < String.length (string_of_bytes [200; 201; 97]) ->
            (text_codes true (string_of_bytes [200; 201; 97]%nat) !!! i
             < text_codes true (string_of_bytes [200; 201; 97]%nat) !!! j)%Z) as Hinc.
  { intros i j Hij Hj. simpl in Hj.
    destruct j as [|[|[|j]]]; [lia| | |lia];
      destruct i as [|[|i]]; try lia; vm_compute; reflexivity. }
  split; [exact insertion_sort_spec|]. split; [exact Hinc|].
  exact (build_increasing_text insertion_sort true (string_of_bytes [200; 201; 97])
           insertion_sort_spec Hinc).
Defined.

(** For every text, either sign of [char] and any conforming [std::sort]:
    whenever the function returns, no [LCP] value is below the length of the
    common prefix of the two suffixes it is about; where [LCP] is not exact
    it is too large. *)
Theorem lcp_never_underestimates std_sort sgn text res i :
  sort_spec std_sort ->
  buildSuffixArrayAndLCP std_sort sgn text = Some res ->
  1 <= i -> i < String.length text ->
  (Z.of_nat (common_prefix_length
               (suffix_at (text_codes sgn text) (sa res !!! (i - 1)%nat))
               (suffix_at (text_codes sgn text) (sa res !!! i)))
   <= lcp res !!! i)%Z.
Proof. apply build_lcp_lower. Qed.

Lemma lcp_never_underestimates_witness :
  sort_spec insertion_sort /\
  buildSuffixArrayAndLCP insertion_sort true (string_of_bytes [233; 233; 233; 233])
  = Some (mkResult [2; 0; 1; 3] [0; 2; 3; 2]%Z) /\
  1 <= 3 /\ 3 < String.length (string_of_bytes [233; 233; 233; 233]) /\
  (Z.of_nat (common_prefix_length
               (suffix_at (text_codes true (string_of_bytes [233; 233; 233; 233]%nat))
                  (sa (mkResult [2; 0; 1; 3]%nat [0; 2; 3; 2]) !!! (3 - 1)%nat))
               (suffix_at (text_codes true (string_of_bytes [233; 233; 233; 233]%nat))
                  (sa (mkResult [2; 0; 1; 3]%nat [0; 2; 3; 2]) !!! 3%nat)))
   <= lcp (mkResult [2; 0; 1; 3]%nat [0; 2; 3; 2]) !!! 3%nat)%Z.
Proof.
  split; [exact insertion_sort_spec|]. split; [vm_compute; reflexivity|].
  split; [lia|]. split; [simpl; lia|].
  exact (lcp_never_underestimates insertion_sort true
           (string_of_bytes [233; 233; 233; 233])
           (mkResult [2; 0; 1; 3] [0; 2; 3; 2]%Z) 3
           insertion_sort_spec ltac:(vm_compute; reflexivity) ltac:(lia)
           ltac:(simpl; lia)).
Defined.

(** On any non-empty text, with any conforming [std::sort]: if a pass
    entered with [2 * gap >= n] does not reach the [break], then a further
    pass leaves the rank table as it is, no later pass reaches the [break],
    and the function never returns. *)
Theorem loop_stuck_once_gap_covers_text std_sort sgn text j st :
  sort_spec std_sort ->
  0 < String.length text ->
  loop_enters std_sort (String.length text)
    (initial_state (String.length text) (text_codes sgn text)) j st ->
  String.length text <= st_gap st * 2 ->
  all_ranked (String.length text) (pass std_sort (String.length text) st) = false ->
  st_rank (pass std_sort (String.length text)
             (double_gap (pass std_sort (String.length text) st)))
  = st_rank (pass std_sort (String.length text) st) /\
  (forall fuel,
     doubling_loop std_sort fuel (String.length text)
       (double_gap (pass std_sort (String.length text) st)) = None) /\
  (forall fuel, build_with_fuel std_sort sgn fuel text = None).
Proof.
  intros Hsort Hn Hent Hbig Hex.
  set (n := String.length text) in *.
  assert (state_shape n (initial_state n (text_codes sgn text))) as Hsh0.
  { unfold n. rewrite <- (length_text_codes sgn text). apply initial_state_shape. }
  pose proof (loop_enters_shape std_sort n _ j st Hsort Hn Hsh0 Hent) as Hsh.
  destruct (pass_stationary std_sort Hsort n Hn st Hsh Hbig) as [Hr _].
  assert (forall fuel,
            doubling_loop std_sort fuel n (double_gap (pass std_sort n st)) = None)
    as Hnone.
  { intros fuel. by apply stationary_diverges. }
  split; [done|]. split; [done|].
  intros fuel. unfold build_with_fuel. fold n.
  destruct (Nat.eqb_spec n 0) as [|_]; [lia|].
  rewrite (loop_enters_diverges std_sort n _ (S j) _
             (enters_next _ _ _ _ _ Hent Hex) Hnone). done.
Qed.

Lemma loop_stuck_once_gap_covers_text_witness :
  sort_spec insertion_sort /\
  0 < String.length (string_of_bytes [255; 255]) /\
  loop_enters insertion_sort (String.length (string_of_bytes [255; 255]))
    (initial_state (String.length (string_of_bytes [255; 255]))
       (text_codes true (string_of_bytes [255; 255]))) 0
    (initial_state (String.length (string_of_bytes [255; 255]))
       (text_codes true (string_of_bytes [255; 255]))) /\
  String.length (string_of_bytes [255; 255])
  <= st_gap (initial_state (String.length (string_of_bytes [255; 255]))
               (text_codes true (string_of_bytes [255; 255]))) * 2 /\
  all_ranked (String.length (string_of_bytes [255; 255]))
    (pass insertion_sort (String.length (string_of_bytes [255; 255]))
       (initial_state (String.length (string_of_bytes [255; 255]))
          (text_codes true (string_of_bytes [255; 255])))) = false /\
  st_rank (pass insertion_sort (String.length (string_of_bytes [255; 255]))
             (double_gap
                (pass insertion_sort (String.length (string_of_bytes [255; 255]))
                   (initial_state (String.length (string_of_bytes [255; 255]))
                      (text_codes true (string_of_bytes [255; 255]))))))
  = st_rank (pass insertion_sort (String.length (string_of_bytes [255; 255]))
               (initial_state (String.length (string_of_bytes [255; 255]))
                  (text_codes true (string_of_bytes [255; 255])))) /\
  (forall fuel,
     doubling_loop insertion_sort fuel (String.length (string_of_bytes [255; 255]))
       (double_gap
          (pass insertion_sort (String.length (string_of_bytes [255; 255]))
             (initial_state (String.length (string_of_bytes [255; 255]))
                (text_codes true (string_of_bytes [255; 255]))))) = None) /\
  (forall fuel,
     build_with_fuel insertion_sort true fuel (string_of_bytes [255; 255]) = None).
Proof.
  split; [exact insertion_sort_spec|]. split; [simpl; lia|].
  split; [apply enters_first|]. split; [vm_compute; lia|].
  split; [vm_compute; reflexivity|].
  exact (loop_stuck_once_gap_covers_text insertion_sort true
           (string_of_bytes [255; 255]) 0 _
           insertion_sort_spec ltac:(simpl; lia) (enters_first _ _ _)
           ltac:(vm_compute; lia) ltac:(vm_compute; reflexivity)).
Defined.
